(** * The consistency checker of the object store ([ostree fsck])

    A shallow embedding of [src/ostree/ot-builtin-fsck.c]: the remote
    repair routine, the per-object verifier with its remediation policy,
    the loop over the reachable set, the preparation of the repair
    sources and the command itself, followed by the properties the
    specification states about them.

    The command talks to three collaborators that live outside this
    file: the object store (libostree), the HTTP client (libsoup) and
    GLib.  They are collected in one interface, [LibOstree]; every
    function of the checker is written against that interface, and the
    theorems hold for every implementation of it.  A small list-backed
    implementation, [Toy], runs the checker on concrete repositories.

    The request handler of [src/ostree/ot-builtin-trivial-httpd.c]
    follows, in the module [Httpd], written the same way against the
    file system it serves. *)

From Stdlib Require Import ZArith Lia Ascii String DecimalString.
From Stdlib Require Import Sorted.
From stdpp Require Import base strings list gmap.

Local Open Scope string_scope.
Local Open Scope Z_scope.
Local Open Scope list_scope.

(** ** Data model *)

(** Modelled from the spec: the enumeration [OstreeObjectType] is declared
    in libostree's headers, not in the command; section 3 of the
    specification gives its four kinds. *)
Inductive OstreeObjectType :=
| OSTREE_OBJECT_TYPE_FILE
| OSTREE_OBJECT_TYPE_DIR_TREE
| OSTREE_OBJECT_TYPE_DIR_META
| OSTREE_OBJECT_TYPE_COMMIT.

#[global] Instance OstreeObjectType_eq_dec : EqDecision OstreeObjectType.
Proof. solve_decision. Defined.

Definition objtype_code (t : OstreeObjectType) : nat :=
  match t with
  | OSTREE_OBJECT_TYPE_FILE => 1
  | OSTREE_OBJECT_TYPE_DIR_TREE => 2
  | OSTREE_OBJECT_TYPE_DIR_META => 3
  | OSTREE_OBJECT_TYPE_COMMIT => 4
  end%nat.

Definition objtype_of_code (n : nat) : option OstreeObjectType :=
  match n with
  | 1 => Some OSTREE_OBJECT_TYPE_FILE
  | 2 => Some OSTREE_OBJECT_TYPE_DIR_TREE
  | 3 => Some OSTREE_OBJECT_TYPE_DIR_META
  | 4 => Some OSTREE_OBJECT_TYPE_COMMIT
  | _ => None
  end%nat.

#[global] Instance OstreeObjectType_countable : Countable OstreeObjectType.
Proof.
  apply (inj_countable objtype_code objtype_of_code).
  intros []; reflexivity.
Defined.

(** Modelled from the spec: the macro [OSTREE_OBJECT_TYPE_IS_META] comes
    from the same header; commits, directory trees and directory metadata
    are the metadata kinds, files are content. *)
Definition OSTREE_OBJECT_TYPE_IS_META (t : OstreeObjectType) : bool :=
  match t with
  | OSTREE_OBJECT_TYPE_FILE => false
  | _ => true
  end.

(** A serialized object name: the key of the hash tables the command
    iterates over, [ostree_object_name_deserialize] gives it back as a
    checksum and a kind. *)
Definition ObjectName : Type := string * OstreeObjectType.

(** GLib errors: a domain, a code, a message.  [G_IO_ERROR] is the
    domain of GIO; the two codes the command tests or raises are members
    of GLib's [GIOErrorEnum]. *)
Record GError := mkGError {
  domain : string;
  code : Z;
  message : string
}.

Definition G_IO_ERROR : string := "g-io-error-quark".
Definition G_IO_ERROR_FAILED : Z := 0.
Definition G_IO_ERROR_NOT_FOUND : Z := 1.

Definition g_error_matches (e : GError) (d : string) (c : Z) : bool :=
  bool_decide (domain e = d) && bool_decide (code e = c).

(** [g_prefix_error (error, fmt, ...)]: a no-op when no error is set. *)
Definition g_prefix_error (error : option GError) (prefix : string)
  : option GError :=
  match error with
  | None => None
  | Some e => Some (mkGError (domain e) (code e) (prefix +:+ message e))
  end.

Definition g_set_error_literal (d : string) (c : Z) (msg : string)
  : option GError :=
  Some (mkGError d c msg).

(** The outcome of a C function that returns [gboolean] and reports
    through a [GError **]: [GOk] is [TRUE]; [GFail] is [FALSE] together
    with what the error location holds on return (which the checker, in
    one place, leaves empty). *)
Inductive GResult (A : Type) :=
| GOk (a : A)
| GFail (error : option GError).
Arguments GOk {A} a.
Arguments GFail {A} error.

(** The four command-line options, file-scope variables in the source. *)
Record Options := mkOptions {
  opt_quiet : bool;
  opt_delete : bool;
  opt_add_tombstones : bool;
  opt_repair_remotes : option (list string)
}.

(** Modelled from the spec: the flags [OstreeRepoCommitState] are declared
    in libostree's headers; the replication state of a commit is Complete
    or Partial, [OSTREE_REPO_COMMIT_STATE_PARTIAL] is the bit that marks
    it Partial. *)
Definition OSTREE_REPO_COMMIT_STATE_PARTIAL : Z := 1.

(** [guint] arithmetic wraps at 2^32.  The sizes GLib reports
    ([g_hash_table_size], [g_strv_length], the [len] of a pointer array)
    are the number of elements of the container. *)
Definition guint (z : Z) : Z := z mod 2 ^ 32.

(** The line feed of the C literals ["...\n"]. *)
Definition LF : string := String "010"%char EmptyString.

(** ["%u"] *)
Definition fmt_u (z : Z) : string := NilZero.string_of_uint (N.to_uint (Z.to_N z)).

(** ** The collaborators *)

(** What the command calls and does not define.  [World] is the state all
    of it lives in: the repository on disk, the remotes behind the
    network, the cancellable.  A call that can change that state returns
    the new one; the others read it.  Failing calls of the libraries
    always set their error, hence [GError + _]. *)
Class LibOstree := {
  World : Type;
  GVariant : Type;
  GInputStream : Type;
  GFileInfo : Type;
  SoupRequest : Type;
  Csum : Type;

  (* libostree, pure helpers *)
  ostree_object_type_to_string : OstreeObjectType → string;
  ostree_get_relative_object_path : string → OstreeObjectType → bool → string;
  ostree_checksum_from_bytes : Csum → string;
  ostree_commit_get_parent : GVariant → option string;
  ostree_validate_structureof_commit : GVariant → option GError;
  ostree_validate_structureof_dirtree : GVariant → option GError;
  ostree_validate_structureof_dirmeta : GVariant → option GError;
  ostree_validate_structureof_file_mode : Z → option GError;
  ostree_checksum_file_from_input :
    option GFileInfo → option GVariant → GInputStream → OstreeObjectType →
    GError + Csum;
  ostree_content_stream_parse :
    bool → GInputStream → Z → bool →
    GError + (GInputStream * GFileInfo * GVariant);
  ostree_raw_file_to_content_stream :
    GInputStream → GFileInfo → GVariant → GError + (GInputStream * Z);

  (* libostree, reading the repository *)
  ostree_option_context_parse : list string → World → GError + Options;
  ostree_repo_load_variant : World → OstreeObjectType → string → GError + GVariant;
  ostree_repo_load_file :
    World → string → GError + (GInputStream * GFileInfo * GVariant);
  ostree_repo_load_commit : World → string → GError + (GVariant * Z);
  ostree_repo_list_objects : World → GError + gset ObjectName;
  ostree_repo_traverse_commit_union :
    World → string → Z → gset ObjectName → GError + gset ObjectName;
  ostree_repo_remote_get_url : World → string → GError + string;
  ostree_repo_remote_list : World → option (list string);

  (* libostree, changing the repository *)
  ostree_repo_delete_object :
    World → OstreeObjectType → string → option GError * World;
  ostree_repo_write_content :
    World → string → GInputStream → Z → option GError * World;
  ot_enable_tombstone_commits : World → option GError * World;

  (* GLib and libsoup *)
  g_file_info_get_attribute_uint32 : GFileInfo → string → Z;
  g_memory_input_stream_new_from_data : GVariant → GInputStream;
  g_cancellable_is_cancelled : World → bool;
  soup_session_request : string → GError + SoupRequest;
  soup_request_send : World → SoupRequest → (GError + GInputStream) * World;
  soup_request_get_content_length : World → SoupRequest → Z
}.

(** ** Effects *)

(** What a run does that can be observed from outside, in order: the
    lines it prints, the remotes it asks for, the requests it sends, the
    objects it writes and deletes, the commits it hands to the walker. *)
Inductive Event :=
| Stdout (line : string)
| Stderr (line : string)
| RemoteGetUrl (remote : string)
| RequestSend (url : string)
| WriteContent (checksum : string)
| DeleteObject (objtype : OstreeObjectType) (checksum : string)
| EnableTombstones
| TraverseCommit (checksum : string).

(** The remotes a run asked the store about, in order. *)
Definition tried (l : list Event) : list string :=
  omap (λ e, match e with RemoteGetUrl remote => Some remote | _ => None end) l.

(** The state a run threads: the world, and the cell [found_corruption]
    of [ostree_builtin_fsck] that the verifier receives by pointer. *)
Record State (W : Type) := mkState {
  world : W;
  found_corruption : bool
}.
Arguments mkState {W} world found_corruption.
Arguments world {W} s.
Arguments found_corruption {W} s.

Section Fsck.
Context {lib : LibOstree}.

(** A computation returns its value, the new state and the events it
    emitted. *)
Definition M (A : Type) : Type := State World → A * State World * list Event.

Definition ret {A} (a : A) : M A := λ s, (a, s, []).

Definition bind {A B} (m : M A) (f : A → M B) : M B :=
  λ s, let '(a, s1, l1) := m s in
       let '(b, s2, l2) := f a s1 in
       (b, s2, l1 ++ l2).

#[global] Instance M_ret : MRet M := @ret.
#[global] Instance M_bind : MBind M := λ A B f m, bind m f.

Definition emit (e : Event) : M unit := λ s, (tt, s, [e]).

(** Read the world. *)
Definition ask {A} (f : World → A) : M A := λ s, (f (world s), s, []).

(** Call into the world: the answer, the world after the call, and the
    call recorded. *)
Definition call {A} (e : Event) (f : World → A * World) : M A :=
  λ s, let '(a, w) := f (world s) in
       (a, mkState w (found_corruption s), [e]).

Definition set_found_corruption (b : bool) : M unit :=
  λ s, (tt, mkState (world s) b, []).

Definition get_found_corruption : M bool :=
  λ s, (found_corruption s, s, []).

Definition when (b : bool) (m : M unit) : M unit := if b then m else ret tt.

Definition g_print (line : string) : M unit := emit (Stdout line).
Definition g_printerr (line : string) : M unit := emit (Stderr line).

Definition remote_get_url (remote : string) : M (GError + string) :=
  emit (RemoteGetUrl remote) ;;
  ask (λ w, ostree_repo_remote_get_url w remote).

Definition delete_object (objtype : OstreeObjectType) (checksum : string)
  : M (option GError) :=
  call (DeleteObject objtype checksum)
       (λ w, ostree_repo_delete_object w objtype checksum).

(** ** [repair_object] *)

(** How one round of the [for] loop over [repair_remotes] ends:
    [return TRUE], [continue] (every failure but one) or [return FALSE]
    (a failed download of a cancelled run). *)
Inductive Round :=
| ReturnTrue
| Continue
| ReturnFalse.

(** The body of the loop, for the source [remote]. *)
Definition repair_from (opts : Options) (type checksum relative_path : string)
    (objtype : OstreeObjectType) (remote : string) : M Round :=
  u ← remote_get_url remote;
  match u with
  | inl error =>
    g_printerr ("repair of " +:+ type +:+ " " +:+ checksum +:+ " from " +:+ remote
                +:+ " failed, failed to get a URL for remote: " +:+ message error) ;;
    ret Continue
  | inr server_url =>
    let url := server_url +:+ "/" +:+ relative_path in
    match soup_session_request url with
    | inl error =>
      g_printerr ("repair of " +:+ type +:+ " " +:+ checksum +:+ " from " +:+ remote
                  +:+ " failed, failed to get a request to URL " +:+ url +:+ ": "
                  +:+ message error) ;;
      ret Continue
    | inr request =>
      s ← call (RequestSend url) (λ w, soup_request_send w request);
      match s with
      | inl error =>
        cancelled ← ask g_cancellable_is_cancelled;
        if (cancelled : bool) then ret ReturnFalse
        else
          g_printerr ("repair of " +:+ type +:+ " " +:+ checksum +:+ " from " +:+ remote
                      +:+ " failed, failed to download the object from URL " +:+ url
                      +:+ ": " +:+ message error) ;;
          ret Continue
      | inr stream =>
        len ← ask (λ w, soup_request_get_content_length w request);
        match ostree_content_stream_parse true stream len false with
        | inl error =>
          g_printerr ("repair of " +:+ type +:+ " " +:+ checksum +:+ " from " +:+ remote
                      +:+ " failed, failed to parse the content stream: "
                      +:+ message error) ;;
          ret Continue
        | inr (file_stream, file_info, xattrs) =>
          match ostree_raw_file_to_content_stream file_stream file_info xattrs with
          | inl error =>
            g_printerr ("repair of " +:+ type +:+ " " +:+ checksum +:+ " from " +:+ remote
                        +:+ " failed, failed to create a content stream: "
                        +:+ message error) ;;
            ret Continue
          | inr (content_stream, content_len) =>
            w ← call (WriteContent checksum)
                  (λ w, ostree_repo_write_content w checksum content_stream content_len);
            match w with
            | Some error =>
              (if opt_delete opts
               then (delete_object objtype checksum ;; ret tt)
               else ret tt) ;;
              g_printerr ("repair of " +:+ type +:+ " " +:+ checksum +:+ " from " +:+ remote
                          +:+ " failed, failed to write object to the repository: "
                          +:+ message error) ;;
              ret Continue
            | None => ret ReturnTrue
            end
          end
        end
      end
    end
  end.

(** The loop: sources in order, until a round returns; [return FALSE]
    after the last one. *)
Fixpoint repair_object_loop (opts : Options) (type checksum relative_path : string)
    (objtype : OstreeObjectType) (iter : list string) : M bool :=
  match iter with
  | [] => ret false
  | remote :: iter =>
    round ← repair_from opts type checksum relative_path objtype remote;
    match round with
    | ReturnTrue => ret true
    | ReturnFalse => ret false
    | Continue => repair_object_loop opts type checksum relative_path objtype iter
    end
  end.

Definition repair_object (opts : Options) (repair_remotes : list string)
    (checksum : string) (objtype : OstreeObjectType) : M bool :=
  let type := ostree_object_type_to_string objtype in
  if bool_decide (objtype ≠ OSTREE_OBJECT_TYPE_FILE) then
    g_printerr ("repair of " +:+ type +:+ " " +:+ checksum +:+ " failed, not implenented") ;;
    ret false
  else
    let relative_path := ostree_get_relative_object_path checksum objtype true in
    repair_object_loop opts type checksum relative_path objtype repair_remotes.

(** ** [load_and_fsck_one_object] *)

(** The locals [missing], [file_info], [xattrs] and [input] once the
    object has been looked up: nothing is bound when it is missing; a
    metadata object binds only [input]. *)
Inductive Loaded :=
| Missing
| Present (file_info : option GFileInfo) (xattrs : option GVariant)
          (input : GInputStream).

(** [if (repair_remotes == NULL || !repair_object (...))
      *out_found_corruption = TRUE;] *)
Definition repair_or_flag (opts : Options) (repair_remotes : option (list string))
    (checksum : string) (objtype : OstreeObjectType) : M unit :=
  match repair_remotes with
  | None => set_found_corruption true
  | Some remotes =>
    repaired ← repair_object opts remotes checksum objtype;
    when (negb repaired) (set_found_corruption true)
  end.

Definition load_and_fsck_one_object (opts : Options) (checksum : string)
    (objtype : OstreeObjectType) (repair_remotes : option (list string))
  : M (GResult unit) :=
  let type := ostree_object_type_to_string objtype in
  loaded ←
    (if OSTREE_OBJECT_TYPE_IS_META objtype then
       r ← ask (λ w, ostree_repo_load_variant w objtype checksum);
       match r with
       | inl temp_error =>
         if g_error_matches temp_error G_IO_ERROR G_IO_ERROR_NOT_FOUND then
           g_printerr ("Object missing: " +:+ checksum +:+ "." +:+ type +:+ LF) ;;
           ret (GOk Missing)
         else
           (* [temp_error] is never stored in [error] here: the prefix
              applies to an empty location *)
           ret (GFail (g_prefix_error None
                         ("Loading metadata object " +:+ checksum +:+ ": ")))
       | inr metadata =>
         let invalid :=
           match objtype with
           | OSTREE_OBJECT_TYPE_COMMIT =>
             g_prefix_error (ostree_validate_structureof_commit metadata)
               ("While validating commit metadata '" +:+ checksum +:+ "': ")
           | OSTREE_OBJECT_TYPE_DIR_TREE =>
             g_prefix_error (ostree_validate_structureof_dirtree metadata)
               ("While validating directory tree '" +:+ checksum +:+ "': ")
           | OSTREE_OBJECT_TYPE_DIR_META =>
             g_prefix_error (ostree_validate_structureof_dirmeta metadata)
               ("While validating directory metadata '" +:+ checksum +:+ "': ")
           | OSTREE_OBJECT_TYPE_FILE => None
           end in
         match invalid with
         | Some error => ret (GFail (Some error))
         | None =>
           ret (GOk (Present None None (g_memory_input_stream_new_from_data metadata)))
         end
       end
     else
       (* g_assert (objtype == OSTREE_OBJECT_TYPE_FILE) *)
       r ← ask (λ w, ostree_repo_load_file w checksum);
       match r with
       | inl temp_error =>
         if g_error_matches temp_error G_IO_ERROR G_IO_ERROR_NOT_FOUND then
           g_printerr ("Object missing: " +:+ checksum +:+ "." +:+ type +:+ LF) ;;
           ret (GOk Missing)
         else
           ret (GFail (g_prefix_error (Some temp_error)
                         ("Loading file object " +:+ checksum +:+ ": ")))
       | inr (input, file_info, xattrs) =>
         let mode := g_file_info_get_attribute_uint32 file_info "unix::mode" in
         match ostree_validate_structureof_file_mode mode with
         | Some error =>
           ret (GFail (g_prefix_error (Some error)
                         ("While validating file '" +:+ checksum +:+ "': ")))
         | None => ret (GOk (Present (Some file_info) (Some xattrs) input))
         end
       end);
  match loaded with
  | GFail error => ret (GFail error)
  | GOk Missing =>
    repair_or_flag opts repair_remotes checksum objtype ;;
    ret (GOk tt)
  | GOk (Present file_info xattrs input) =>
    match ostree_checksum_file_from_input file_info xattrs input objtype with
    | inl error => ret (GFail (Some error))
    | inr computed_csum =>
      let tmp_checksum := ostree_checksum_from_bytes computed_csum in
      if bool_decide (checksum ≠ tmp_checksum) then
        let msg := "corrupted object " +:+ checksum +:+ "." +:+ type
                   +:+ "; actual checksum: " +:+ tmp_checksum in
        if opt_delete opts || bool_decide (repair_remotes ≠ None) then
          g_printerr (msg +:+ LF) ;;
          delete_object objtype checksum ;;
          repair_or_flag opts repair_remotes checksum objtype ;;
          ret (GOk tt)
        else
          ret (GFail (g_set_error_literal G_IO_ERROR G_IO_ERROR_FAILED msg))
      else ret (GOk tt)
    end
  end.

(** ** [fsck_reachable_objects_from_commits] *)

(** First loop: the walker extends [reachable_objects] from each commit
    of [commits] (every key there is a commit, which the source asserts). *)
Fixpoint traverse_commits (iter : list ObjectName) (reachable_objects : gset ObjectName)
  : M (GResult (gset ObjectName)) :=
  match iter with
  | [] => ret (GOk reachable_objects)
  | (checksum, _) :: iter =>
    emit (TraverseCommit checksum) ;;
    r ← ask (λ w, ostree_repo_traverse_commit_union w checksum 0 reachable_objects);
    match r with
    | inl error => ret (GFail (Some error))
    | inr reachable_objects => traverse_commits iter reachable_objects
    end
  end.

(** Second loop: every reachable object is verified; [i], [mod_]
    (the source's [mod]) and [count] are [guint]s. *)
Fixpoint fsck_objects (opts : Options) (repair_remotes : option (list string))
    (count mod_ : Z) (iter : list ObjectName) (i : Z) : M (GResult unit) :=
  match iter with
  | [] => ret (GOk tt)
  | (checksum, objtype) :: iter =>
    r ← load_and_fsck_one_object opts checksum objtype repair_remotes;
    match r with
    | GFail error => ret (GFail error)
    | GOk _ =>
      when ((mod_ =? 0) || (i `mod` mod_ =? 0))
           (g_print (fmt_u (guint (i + 1)) +:+ "/" +:+ fmt_u count +:+ " objects" +:+ LF)) ;;
      fsck_objects opts repair_remotes count mod_ iter (guint (i + 1))
    end
  end.

Definition fsck_reachable_objects_from_commits (opts : Options)
    (commits : gset ObjectName) (repair_remotes : option (list string))
  : M (GResult unit) :=
  r ← traverse_commits (elements commits) ∅;
  match r with
  | GFail error => ret (GFail error)
  | GOk reachable_objects =>
    let count := Z.of_nat (size reachable_objects) in
    let mod_ := count `div` 10 in
    fsck_objects opts repair_remotes count mod_ (elements reachable_objects) 0
  end.

(** ** [prepare_repair_remotes] *)

Fixpoint strv_contains (haystack : list string) (needle : string) : bool :=
  match haystack with
  | [] => false
  | s :: haystack =>
    if bool_decide (s = needle) then true else strv_contains haystack needle
  end.

(** The [for] loop that asks the store for the URL of each named remote. *)
Fixpoint check_remote_urls (iter : list string) : M (GResult unit) :=
  match iter with
  | [] => ret (GOk tt)
  | remote :: iter =>
    u ← remote_get_url remote;
    match u with
    | inl error => ret (GFail (Some error))
    | inr _ => check_remote_urls iter
    end
  end.

Definition prepare_repair_remotes (opts : Options) : M (GResult (option (list string))) :=
  match opt_repair_remotes opts with
  | None | Some [] => ret (GOk None)
  | Some remotes =>
    if strv_contains remotes "-" then
      if Z.of_nat (length remotes) >? 1 then
        ret (GFail (g_set_error_literal G_IO_ERROR G_IO_ERROR_FAILED
          "Either list repair remotes explicitly or use - (dash) to use all available remotes"))
      else
        all ← ask ostree_repo_remote_list;
        ret (GOk all)
    else
      r ← check_remote_urls remotes;
      match r with
      | GFail error => ret (GFail error)
      | GOk _ => ret (GOk (Some remotes))
      end
  end.

(** ** [ostree_builtin_fsck] *)

(** The census: the loop over the listing.  [tombstones] is the pointer
    array (empty, and unused, when tombstoning is off); [commits] the
    table of roots; [n_partial] a [guint]. *)
Fixpoint census (opts : Options) (iter : list ObjectName)
    (commits : gset ObjectName) (n_partial : Z) (tombstones : list string)
  : M (GResult (gset ObjectName * Z * list string)) :=
  match iter with
  | [] => ret (GOk (commits, n_partial, tombstones))
  | (checksum, objtype) :: iter =>
    if bool_decide (objtype = OSTREE_OBJECT_TYPE_COMMIT) then
      r ← ask (λ w, ostree_repo_load_commit w checksum);
      match r with
      | inl error => ret (GFail (Some error))
      | inr (commit, commitstate) =>
        staged ←
          (if opt_add_tombstones opts then
             match ostree_commit_get_parent commit with
             | Some parent =>
               p ← ask (λ w, ostree_repo_load_variant w OSTREE_OBJECT_TYPE_COMMIT parent);
               match p with
               | inl local_error =>
                 if g_error_matches local_error G_IO_ERROR G_IO_ERROR_NOT_FOUND
                 then ret (GOk (tombstones ++ [checksum]))
                 else ret (GFail (Some local_error))
               | inr _ => ret (GOk tombstones)
               end
             | None => ret (GOk tombstones)
             end
           else ret (GOk tombstones));
        match staged with
        | GFail error => ret (GFail error)
        | GOk tombstones =>
          if bool_decide (Z.land commitstate OSTREE_REPO_COMMIT_STATE_PARTIAL ≠ 0)
          then census opts iter commits (guint (n_partial + 1)) tombstones
          else census opts iter ({[ (checksum, objtype) ]} ∪ commits) n_partial tombstones
        end
      end
    else census opts iter commits n_partial tombstones
  end.

(** The [for] loop of the apply phase. *)
Fixpoint add_tombstones (tombstones : list string) : M (GResult unit) :=
  match tombstones with
  | [] => ret (GOk tt)
  | checksum :: tombstones =>
    g_print ("Adding tombstone for commit " +:+ checksum +:+ LF) ;;
    d ← delete_object OSTREE_OBJECT_TYPE_COMMIT checksum;
    match d with
    | Some error => ret (GFail (Some error))
    | None => add_tombstones tombstones
    end
  end.

Definition apply_tombstones (opts : Options) (n_partial : Z) (tombstones : list string)
  : M (GResult unit) :=
  if opt_add_tombstones opts then
    enabled ←
      (if Z.of_nat (length tombstones) =? 0 then ret None
       else call EnableTombstones ot_enable_tombstone_commits);
    match enabled with
    | Some error => ret (GFail (Some error))
    | None => add_tombstones tombstones
    end
  else
    when (n_partial >? 0)
         (g_print (fmt_u n_partial +:+ " partial commits not verified" +:+ LF)) ;;
    ret (GOk tt).

Definition ostree_builtin_fsck (argv : list string) : M (GResult unit) :=
  set_found_corruption false ;;
  parsed ← ask (ostree_option_context_parse argv);
  match parsed with
  | inl error => ret (GFail (Some error))
  | inr opts =>
    prepared ← prepare_repair_remotes opts;
    match prepared with
    | GFail error => ret (GFail error)
    | GOk repair_remotes =>
      when (negb (opt_quiet opts)) (g_print ("Enumerating objects..." +:+ LF)) ;;
      listed ← ask ostree_repo_list_objects;
      match listed with
      | inl error => ret (GFail (Some error))
      | inr objects =>
        counted ← census opts (elements objects) ∅ 0 [];
        match counted with
        | GFail error => ret (GFail error)
        | GOk (commits, n_partial, tombstones) =>
          when (negb (opt_quiet opts))
               (g_print ("Verifying content integrity of "
                         +:+ fmt_u (Z.of_nat (size commits))
                         +:+ " commit objects..." +:+ LF)) ;;
          verified ← fsck_reachable_objects_from_commits opts commits repair_remotes;
          match verified with
          | GFail error => ret (GFail error)
          | GOk _ =>
            applied ← apply_tombstones opts n_partial tombstones;
            match applied with
            | GFail error => ret (GFail error)
            | GOk _ =>
              corrupt ← get_found_corruption;
              if (corrupt : bool) then
                ret (GFail (g_set_error_literal G_IO_ERROR G_IO_ERROR_FAILED
                              "Repository corruption encountered"))
              else ret (GOk tt)
            end
          end
        end
      end
    end
  end.

End Fsck.

(** * Reading the specification

    The vocabulary of the theorems: the verifier's outcome for an object
    as section 4.3 of the specification names it, the messages of the
    command, the phases of a run, and what the store says about the
    commits of a listing. *)

Section Specification.
Context {lib : LibOstree}.

(** *** The verifier's outcome *)

(** Section 4.3 of the specification classifies an object by what the
    store answers: a load that fails with "not found" is [Missing], any
    other load failure is fatal; a loaded object that fails its
    validator is [StructurallyInvalid]; otherwise its checksum is
    recomputed and compared.  This is the specification's reading, the
    theorems below relate [load_and_fsck_one_object] to it. *)
Inductive Outcome :=
| PresentValid
| OutcomeMissing
| LoadFailure (error : GError)
| StructurallyInvalid (reason : GError)
| ChecksumFailure (error : GError)
| ChecksumMismatch (actual : string).

(** The comparison of step 4. *)
Definition recomputed (file_info : option GFileInfo) (xattrs : option GVariant)
    (input : GInputStream) (checksum : string) (objtype : OstreeObjectType)
  : Outcome :=
  match ostree_checksum_file_from_input file_info xattrs input objtype with
  | inl e => ChecksumFailure e
  | inr csum =>
    if bool_decide (ostree_checksum_from_bytes csum = checksum)
    then PresentValid
    else ChecksumMismatch (ostree_checksum_from_bytes csum)
  end.

(** The validator of a metadata kind. *)
Definition schema_error (objtype : OstreeObjectType) (metadata : GVariant)
  : option GError :=
  match objtype with
  | OSTREE_OBJECT_TYPE_COMMIT => ostree_validate_structureof_commit metadata
  | OSTREE_OBJECT_TYPE_DIR_TREE => ostree_validate_structureof_dirtree metadata
  | OSTREE_OBJECT_TYPE_DIR_META => ostree_validate_structureof_dirmeta metadata
  | OSTREE_OBJECT_TYPE_FILE => None
  end.

Definition outcome (w : World) (checksum : string) (objtype : OstreeObjectType)
  : Outcome :=
  match objtype with
  | OSTREE_OBJECT_TYPE_FILE =>
    match ostree_repo_load_file w checksum with
    | inl e =>
      if g_error_matches e G_IO_ERROR G_IO_ERROR_NOT_FOUND then OutcomeMissing
      else LoadFailure e
    | inr (input, file_info, xattrs) =>
      match ostree_validate_structureof_file_mode
              (g_file_info_get_attribute_uint32 file_info "unix::mode") with
      | Some reason => StructurallyInvalid reason
      | None => recomputed (Some file_info) (Some xattrs) input checksum objtype
      end
    end
  | _ =>
    match ostree_repo_load_variant w objtype checksum with
    | inl e =>
      if g_error_matches e G_IO_ERROR G_IO_ERROR_NOT_FOUND then OutcomeMissing
      else LoadFailure e
    | inr metadata =>
      match schema_error objtype metadata with
      | Some reason => StructurallyInvalid reason
      | None =>
        recomputed None None (g_memory_input_stream_new_from_data metadata)
                   checksum objtype
      end
    end
  end.

(** The report of a corrupted object. *)
Definition corrupted_object (checksum : string) (objtype : OstreeObjectType)
    (actual : string) : string :=
  "corrupted object " +:+ checksum +:+ "." +:+ ostree_object_type_to_string objtype
  +:+ "; actual checksum: " +:+ actual.

(** The diagnostics of a missing object and of a refused repair. *)
Definition object_missing (checksum : string) (objtype : OstreeObjectType) : string :=
  "Object missing: " +:+ checksum +:+ "." +:+ ostree_object_type_to_string objtype +:+ LF.

Definition not_implemented (checksum : string) (objtype : OstreeObjectType) : string :=
  "repair of " +:+ ostree_object_type_to_string objtype +:+ " " +:+ checksum
  +:+ " failed, not implenented".

(** The state with the corruption flag up. *)
Definition flagged (s : State World) : State World := mkState (world s) true.

(** The context [load_and_fsck_one_object] puts before a validator's
    reason. *)
Definition while_validating (checksum : string) (objtype : OstreeObjectType) : string :=
  match objtype with
  | OSTREE_OBJECT_TYPE_COMMIT => "While validating commit metadata '" +:+ checksum +:+ "': "
  | OSTREE_OBJECT_TYPE_DIR_TREE => "While validating directory tree '" +:+ checksum +:+ "': "
  | OSTREE_OBJECT_TYPE_DIR_META => "While validating directory metadata '" +:+ checksum +:+ "': "
  | OSTREE_OBJECT_TYPE_FILE => "While validating file '" +:+ checksum +:+ "': "
  end.

(** What [g_prefix_error] makes of an error. *)
Definition prefixed (prefix : string) (e : GError) : GError :=
  mkGError (domain e) (code e) (prefix +:+ message e).

(** The error of an unrepaired checksum mismatch. *)
Definition corruption (checksum : string) (objtype : OstreeObjectType) (actual : string)
  : GError :=
  mkGError G_IO_ERROR G_IO_ERROR_FAILED (corrupted_object checksum objtype actual).

(** What [load_and_fsck_one_object] does, outcome by outcome: the
    remediation policy of section 4.4 as the code has it. *)
Definition policy (opts : Options) (checksum : string) (objtype : OstreeObjectType)
    (repair_remotes : option (list string)) (st : State World)
  : GResult unit * State World * list Event :=
  match outcome (world st) checksum objtype with
  | PresentValid => (GOk tt, st, [])
  | OutcomeMissing =>
    let '(_, s, l) := repair_or_flag opts repair_remotes checksum objtype st in
    (GOk tt, s, Stderr (object_missing checksum objtype) :: l)
  | LoadFailure e =>
    (GFail (match objtype with
            | OSTREE_OBJECT_TYPE_FILE =>
              Some (prefixed ("Loading file object " +:+ checksum +:+ ": ") e)
            | _ => None
            end), st, [])
  | StructurallyInvalid reason =>
    (GFail (Some (prefixed (while_validating checksum objtype) reason)), st, [])
  | ChecksumFailure e => (GFail (Some e), st, [])
  | ChecksumMismatch actual =>
    if opt_delete opts || bool_decide (repair_remotes ≠ None) then
      let '(_, w) := ostree_repo_delete_object (world st) objtype checksum in
      let '(_, s, l) :=
        repair_or_flag opts repair_remotes checksum objtype
                       (mkState w (found_corruption st)) in
      (GOk tt, s,
       Stderr (corrupted_object checksum objtype actual +:+ LF)
       :: DeleteObject objtype checksum :: l)
    else (GFail (Some (corruption checksum objtype actual)), st, [])
  end.

(** The progress line of round [i], if one is due. *)
Definition progress (count mod_ i : Z) : list Event :=
  if (mod_ =? 0) || (i `mod` mod_ =? 0)
  then [Stdout (fmt_u (guint (i + 1)) +:+ "/" +:+ fmt_u count +:+ " objects" +:+ LF)]
  else [].

(** The counter after a run over [done]. *)
Definition advance (done : list ObjectName) (i : Z) : Z :=
  fold_left (λ i _, guint (i + 1)) done i.

(** A computation that leaves the flag as it found it, and one that at
    most raises it. *)
Definition keeps_flag {A} (m : M A) : Prop :=
  ∀ st, found_corruption (m st).1.2 = found_corruption st.

Definition raises_flag {A} (m : M A) : Prop :=
  ∀ st, found_corruption st = true → found_corruption (m st).1.2 = true.

(** *** The command, phase by phase *)

(** The verdict of a run that found corruption. *)
Definition corruption_encountered : GError :=
  mkGError G_IO_ERROR G_IO_ERROR_FAILED "Repository corruption encountered".

(** What the command has settled when the verification loop starts. *)
Record Verification := mkVerification {
  v_opts : Options;
  v_repair_remotes : option (list string);
  v_n_partial : Z;
  v_tombstones : list string;
  v_reachable : gset ObjectName
}.

(** [ostree_builtin_fsck] up to the verification loop: options, repair
    sources, census, and the walker over the roots. *)
Definition until_verification (argv : list string) : M (GResult Verification) :=
  set_found_corruption false ;;
  parsed ← ask (ostree_option_context_parse argv);
  match parsed with
  | inl error => ret (GFail (Some error))
  | inr opts =>
    prepared ← prepare_repair_remotes opts;
    match prepared with
    | GFail error => ret (GFail error)
    | GOk repair_remotes =>
      when (negb (opt_quiet opts)) (g_print ("Enumerating objects..." +:+ LF)) ;;
      listed ← ask ostree_repo_list_objects;
      match listed with
      | inl error => ret (GFail (Some error))
      | inr objects =>
        counted ← census opts (elements objects) ∅ 0 [];
        match counted with
        | GFail error => ret (GFail error)
        | GOk (commits, n_partial, tombstones) =>
          when (negb (opt_quiet opts))
               (g_print ("Verifying content integrity of "
                         +:+ fmt_u (Z.of_nat (size commits))
                         +:+ " commit objects..." +:+ LF)) ;;
          walked ← traverse_commits (elements commits) ∅;
          match walked with
          | GFail error => ret (GFail error)
          | GOk reachable =>
            ret (GOk (mkVerification opts repair_remotes n_partial tombstones reachable))
          end
        end
      end
    end
  end.

(** The verification loop of a run. *)
Definition verification (v : Verification) (iter : list ObjectName) (i : Z)
  : M (GResult unit) :=
  let count := Z.of_nat (size (v_reachable v)) in
  fsck_objects (v_opts v) (v_repair_remotes v) count (count `div` 10) iter i.

(** [ostree_builtin_fsck] after the verification loop: the apply phase
    and the verdict. *)
Definition after_verification (v : Verification) : M (GResult unit) :=
  applied ← apply_tombstones (v_opts v) (v_n_partial v) (v_tombstones v);
  match applied with
  | GFail error => ret (GFail error)
  | GOk _ =>
    corrupt ← get_found_corruption;
    if (corrupt : bool) then ret (GFail (Some corruption_encountered))
    else ret (GOk tt)
  end.

(** A run that has verified [done] and is about to verify [todo]. *)
Definition verifying (argv : list string) (st0 : State World) (v : Verification)
    (done todo : list ObjectName) (st : State World) (l : list Event) : Prop :=
  ∃ s1 l1 l2,
    until_verification argv st0 = (GOk v, s1, l1)
    ∧ elements (v_reachable v) = done ++ todo
    ∧ verification v done 0 s1 = (GOk tt, st, l2)
    ∧ l = l1 ++ l2.

(** What the census finds out about one commit of the listing. *)
Definition stage (opts : Options) (w : World) (checksum : string) (commit : GVariant)
    (tombstones : list string) : GResult (list string) :=
  if opt_add_tombstones opts then
    match ostree_commit_get_parent commit with
    | Some parent =>
      match ostree_repo_load_variant w OSTREE_OBJECT_TYPE_COMMIT parent with
      | inl local_error =>
        if g_error_matches local_error G_IO_ERROR G_IO_ERROR_NOT_FOUND
        then GOk (tombstones ++ [checksum])
        else GFail (Some local_error)
      | inr _ => GOk tombstones
      end
    | None => GOk tombstones
    end
  else GOk tombstones.

(** The commits of a listing, as the store describes them: the state
    of a commit, whether it is partial or complete, and whether its
    parent is set and cannot be found. *)
Definition commit_state (w : World) (o : ObjectName) : option Z :=
  if bool_decide (o.2 = OSTREE_OBJECT_TYPE_COMMIT) then
    match ostree_repo_load_commit w o.1 with
    | inr (_, commitstate) => Some commitstate
    | inl _ => None
    end
  else None.

Definition partial_commit (w : World) (o : ObjectName) : bool :=
  match commit_state w o with
  | Some commitstate =>
    bool_decide (Z.land commitstate OSTREE_REPO_COMMIT_STATE_PARTIAL ≠ 0)
  | None => false
  end.

Definition complete_commit (w : World) (o : ObjectName) : bool :=
  match commit_state w o with
  | Some commitstate =>
    bool_decide (Z.land commitstate OSTREE_REPO_COMMIT_STATE_PARTIAL = 0)
  | None => false
  end.

Definition orphan_commit (w : World) (o : ObjectName) : bool :=
  if bool_decide (o.2 = OSTREE_OBJECT_TYPE_COMMIT) then
    match ostree_repo_load_commit w o.1 with
    | inr (commit, _) =>
      match ostree_commit_get_parent commit with
      | Some parent =>
        match ostree_repo_load_variant w OSTREE_OBJECT_TYPE_COMMIT parent with
        | inl error => g_error_matches error G_IO_ERROR G_IO_ERROR_NOT_FOUND
        | inr _ => false
        end
      | None => false
      end
    | inl _ => false
    end
  else false.

(** *** What a phase can emit *)

(** Every event of a computation satisfies [P]. *)
Definition emits {A} (P : Event → Prop) (m : M A) : Prop :=
  ∀ st, Forall P (m st).2.

(** An event that is not a call of the walker. *)
Definition not_a_walk (e : Event) : Prop :=
  match e with
  | TraverseCommit _ => False
  | _ => True
  end.

(** The roots of a run: the commits of the listing the store does not
    mark partial. *)
Definition root_of (w : World) (e : Event) : Prop :=
  ∀ c, e = TraverseCommit c → complete_commit w (c, OSTREE_OBJECT_TYPE_COMMIT) = true.

(** The walker at depth 0 adds no commit but the one it starts from. *)
Definition walker_adds_only_root : Prop :=
  ∀ w c reachable reachable',
    ostree_repo_traverse_commit_union w c 0 reachable = inr reachable' →
    ∀ c', (c', OSTREE_OBJECT_TYPE_COMMIT) ∈ reachable' →
          c' = c ∨ (c', OSTREE_OBJECT_TYPE_COMMIT) ∈ reachable.

(** The lines and calls of the apply phase for the staged commits. *)
Definition tombstone_events (tombstones : list string) : list Event :=
  flat_map (λ checksum,
              [Stdout ("Adding tombstone for commit " +:+ checksum +:+ LF);
               DeleteObject OSTREE_OBJECT_TYPE_COMMIT checksum]) tombstones.

(** The options with [--quiet] set or cleared. *)
Definition with_quiet (quiet : bool) (opts : Options) : Options :=
  mkOptions quiet (opt_delete opts) (opt_add_tombstones opts) (opt_repair_remotes opts).

(** The error of [prepare_repair_remotes]. *)
Definition dash_error : GError :=
  mkGError G_IO_ERROR G_IO_ERROR_FAILED
    "Either list repair remotes explicitly or use - (dash) to use all available remotes".

(** *** One round of the repair *)

(** What a source has for the object, as far as a round gets with it:
    the stage at which it fails, or the content stream to write. *)
Inductive Fetch :=
| NoUrl (error : GError)
| NoRequest (url : string) (error : GError)
| NoDownload (url : string) (error : GError) (w : World)
| NoParse (url : string) (error : GError) (w : World)
| NoContentStream (url : string) (error : GError) (w : World)
| Fetched (url : string) (content_stream : GInputStream) (content_len : Z) (w : World).

Definition fetch (w : World) (relative_path remote : string) : Fetch :=
  match ostree_repo_remote_get_url w remote with
  | inl error => NoUrl error
  | inr server_url =>
    let url := server_url +:+ "/" +:+ relative_path in
    match soup_session_request url with
    | inl error => NoRequest url error
    | inr request =>
      match soup_request_send w request with
      | (inl error, w1) => NoDownload url error w1
      | (inr stream, w1) =>
        match ostree_content_stream_parse true stream
                (soup_request_get_content_length w1 request) false with
        | inl error => NoParse url error w1
        | inr (file_stream, file_info, xattrs) =>
          match ostree_raw_file_to_content_stream file_stream file_info xattrs with
          | inl error => NoContentStream url error w1
          | inr (content_stream, content_len) =>
            Fetched url content_stream content_len w1
          end
        end
      end
    end
  end.

(** The diagnostic of a round that failed. *)
Definition repair_failed (type checksum remote what : string) : Event :=
  Stderr ("repair of " +:+ type +:+ " " +:+ checksum +:+ " from " +:+ remote +:+ what).

(** What a round does with what the source has: it returns [TRUE]
    exactly when the content was fetched and the store took it; it
    returns [FALSE] exactly when the download failed in a cancelled
    run; in every other case it reports the failure and passes to the
    next source. *)
Definition round_of (opts : Options) (type checksum relative_path : string)
    (objtype : OstreeObjectType) (remote : string) (st : State World)
  : Round * State World * list Event :=
  let failed := repair_failed type checksum remote in
  let after w := mkState w (found_corruption st) in
  match fetch (world st) relative_path remote with
  | NoUrl error =>
    (Continue, st,
     [RemoteGetUrl remote;
      failed (" failed, failed to get a URL for remote: " +:+ message error)])
  | NoRequest url error =>
    (Continue, st,
     [RemoteGetUrl remote;
      failed (" failed, failed to get a request to URL " +:+ url +:+ ": "
              +:+ message error)])
  | NoDownload url error w =>
    if g_cancellable_is_cancelled w
    then (ReturnFalse, after w, [RemoteGetUrl remote; RequestSend url])
    else
      (Continue, after w,
       [RemoteGetUrl remote; RequestSend url;
        failed (" failed, failed to download the object from URL " +:+ url +:+ ": "
                +:+ message error)])
  | NoParse url error w =>
    (Continue, after w,
     [RemoteGetUrl remote; RequestSend url;
      failed (" failed, failed to parse the content stream: " +:+ message error)])
  | NoContentStream url error w =>
    (Continue, after w,
     [RemoteGetUrl remote; RequestSend url;
      failed (" failed, failed to create a content stream: " +:+ message error)])
  | Fetched url content_stream content_len w =>
    match ostree_repo_write_content w checksum content_stream content_len with
    | (None, w') =>
      (ReturnTrue, after w', [RemoteGetUrl remote; RequestSend url; WriteContent checksum])
    | (Some error, w') =>
      let report :=
        failed (" failed, failed to write object to the repository: "
                +:+ message error) in
      if opt_delete opts then
        (Continue, after (ostree_repo_delete_object w' objtype checksum).2,
         [RemoteGetUrl remote; RequestSend url; WriteContent checksum;
          DeleteObject objtype checksum; report])
      else
        (Continue, after w',
         [RemoteGetUrl remote; RequestSend url; WriteContent checksum; report])
    end
  end.

(** The sources of [before] have all failed and passed to the next: the
    state and the events after the last of them. *)
Fixpoint all_fail (round : string → State World → Round * State World * list Event)
    (before : list string) (st : State World) : option (State World * list Event) :=
  match before with
  | [] => Some (st, [])
  | remote :: before =>
    match round remote st with
    | (Continue, s, l) =>
      match all_fail round before s with
      | Some (s', l') => Some (s', l ++ l')
      | None => None
      end
    | _ => None
    end
  end.

(** *** What a run changes, prints and counts *)

(** An event that neither changes the store nor talks to a remote: a
    line on stdout or stderr, a call of the walker. *)
Definition harmless (e : Event) : Prop :=
  match e with
  | Stdout _ | Stderr _ | TraverseCommit _ => True
  | _ => False
  end.

(** A computation that leaves the store as it is and emits harmless
    events only. *)
Definition read_only {A} (m : M A) : Prop :=
  ∀ st, world (m st).1.2 = world st ∧ Forall harmless (m st).2.

(** A line on stdout. *)
Definition printed (e : Event) : Prop := ∃ line, e = Stdout line.

(** The store knows the URL of [remote]. *)
Definition has_url (w : World) (remote : string) : Prop :=
  ∃ url, ostree_repo_remote_get_url w remote = inr url.

(** The commits of a listing. *)
Definition listed_commit (o : ObjectName) : bool :=
  bool_decide (o.2 = OSTREE_OBJECT_TYPE_COMMIT).

(** The object an event changes in the store, if it changes one. *)
Definition changed (e : Event) : option ObjectName :=
  match e with
  | WriteContent checksum => Some (checksum, OSTREE_OBJECT_TYPE_FILE)
  | DeleteObject objtype checksum => Some (checksum, objtype)
  | _ => None
  end.

(** An event that changes no object but those of [allowed]. *)
Definition changes_within (allowed : ObjectName → Prop) (e : Event) : Prop :=
  ∀ o, changed e = Some o → allowed o.

(** What a repair of the object [o] may emit: diagnostics, questions to
    the store about a remote, requests, the write of [o], and its
    deletion when [--delete] is set. *)
Definition repair_event (opts : Options) (o : ObjectName) (e : Event) : Prop :=
  match e with
  | Stderr _ | RemoteGetUrl _ | RequestSend _ => True
  | WriteContent checksum => (checksum, OSTREE_OBJECT_TYPE_FILE) = o
  | DeleteObject objtype checksum => opt_delete opts = true ∧ (checksum, objtype) = o
  | Stdout _ | EnableTombstones | TraverseCommit _ => False
  end.

(** The lines a run printed on stdout. *)
Definition is_stdout (e : Event) : bool :=
  match e with
  | Stdout _ => true
  | _ => false
  end.

Definition lines (l : list Event) : nat := length (List.filter is_stdout l).

(** The rounds, among the [n] rounds from round [i] on, at which a
    progress line is due. *)
Fixpoint due (mod_ i : Z) (n : nat) : nat :=
  match n with
  | O => O
  | S n =>
    if (mod_ =? 0) || (i `mod` mod_ =? 0)
    then S (due mod_ (i + 1) n)
    else due mod_ (i + 1) n
  end.

(** The calls of the walker on the roots [iter], in order. *)
Definition walks (iter : list ObjectName) : list Event :=
  (λ o, TraverseCommit o.1) <$> iter.

End Specification.

(** ** A list-backed store *)

(** A repository small enough to run: objects in a finite map, remotes
    and the servers behind them in association lists.  The digest of a
    content is the content itself, so an object is intact exactly when
    its content is its name. *)
Module Toy.

Record Object := mkObject {
  content : string;             (* what is stored; its digest *)
  mode : Z;                     (* "unix::mode", for files *)
  well_formed : bool;           (* does the payload follow its schema *)
  io_error : option GError;     (* loading fails with this *)
  parent : option string;       (* commits: the parent checksum *)
  state : Z;                    (* commits: OstreeRepoCommitState *)
  refs : list ObjectName        (* commits: what the walker finds *)
}.

Record Repo := mkRepo {
  objects : gmap ObjectName Object;
  remotes : list (string * string);          (* name, base URL *)
  servers : list (string * option string);   (* URL, body served *)
  cancelled : bool;
  tombstone_commits : bool;
  undeletable : list string;                 (* deleting these fails *)
  command_line : Options
}.

Definition not_found (what : string) : GError :=
  mkGError G_IO_ERROR G_IO_ERROR_NOT_FOUND ("No such " +:+ what).

Definition failed (what : string) : GError :=
  mkGError G_IO_ERROR G_IO_ERROR_FAILED what.

Fixpoint assoc {A} (k : string) (l : list (string * A)) : option A :=
  match l with
  | [] => None
  | (k', a) :: l => if bool_decide (k' = k) then Some a else assoc k l
  end.

Definition load (r : Repo) (t : OstreeObjectType) (c : string) : GError + Object :=
  match objects r !! (c, t) with
  | None => inl (not_found "object")
  | Some o =>
    match io_error o with
    | Some e => inl e
    | None => inr o
    end
  end.

Definition schema (o : Object) : option GError :=
  if well_formed o then None else Some (failed "invalid structure").

(** S_ISREG or S_ISLNK. *)
Definition file_mode (m : Z) : option GError :=
  let fmt := Z.land m 61440 in
  if (fmt =? 32768) || (fmt =? 40960) then None
  else Some (failed "not a valid file type").

Definition type_name (t : OstreeObjectType) : string :=
  match t with
  | OSTREE_OBJECT_TYPE_FILE => "file"
  | OSTREE_OBJECT_TYPE_DIR_TREE => "dirtree"
  | OSTREE_OBJECT_TYPE_DIR_META => "dirmeta"
  | OSTREE_OBJECT_TYPE_COMMIT => "commit"
  end.

Definition delete (r : Repo) (t : OstreeObjectType) (c : string)
  : option GError * Repo :=
  if bool_decide (c ∈ undeletable r) then (Some (failed "cannot unlink"), r)
  else
    match objects r !! (c, t) with
    | None => (Some (not_found "object"), r)
    | Some _ =>
      (None, mkRepo (delete (c, t) (objects r)) (remotes r) (servers r)
                    (cancelled r) (tombstone_commits r) (undeletable r)
                    (command_line r))
    end.

Definition write (r : Repo) (c : string) (body : string) (len : Z)
  : option GError * Repo :=
  if bool_decide (body = c) then
    (None, mkRepo (<[ (c, OSTREE_OBJECT_TYPE_FILE) :=
                      mkObject body 33188 true None None 0 [] ]> (objects r))
                  (remotes r) (servers r) (cancelled r) (tombstone_commits r)
                  (undeletable r) (command_line r))
  else (Some (failed "corrupted object written"), r).

(** A cancelled run fails every request; otherwise the server answers
    with a body or not at all. *)
Definition send (r : Repo) (url : string) : (GError + string) * Repo :=
  if cancelled r then (inl (failed "Operation was cancelled"), r)
  else
    match assoc url (servers r) with
    | Some (Some body) => (inr body, r)
    | _ => (inl (not_found "page"), r)
    end.

(** A body parses unless it is empty. *)
Definition parse (body : string) : GError + (string * Z * Object) :=
  if bool_decide (body = EmptyString) then inl (failed "unexpected end of stream")
  else inr (body, 33188, mkObject body 33188 true None None 0 []).

(** The walker at depth 0: the commit and what it refers to, parents and
    other commits left out. *)
Definition traverse (r : Repo) (c : string) (reachable : gset ObjectName)
  : GError + gset ObjectName :=
  match load r OSTREE_OBJECT_TYPE_COMMIT c with
  | inl e => inl e
  | inr o =>
    inr ({[ (c, OSTREE_OBJECT_TYPE_COMMIT) ]}
         ∪ list_to_set (filter (λ o, o.2 ≠ OSTREE_OBJECT_TYPE_COMMIT) (refs o))
         ∪ reachable)
  end.

Definition remote_list (r : Repo) : option (list string) :=
  match remotes r with
  | [] => None
  | l => Some (l.*1)
  end.

#[local] Instance lib : LibOstree := {|
  World := Repo;
  GVariant := Object;
  GInputStream := string;
  GFileInfo := Z;
  SoupRequest := string;
  Csum := string;
  ostree_object_type_to_string := type_name;
  ostree_get_relative_object_path c t _ :=
    "objects/" +:+ c +:+ "." +:+ type_name t;
  ostree_checksum_from_bytes c := c;
  ostree_commit_get_parent := parent;
  ostree_validate_structureof_commit := schema;
  ostree_validate_structureof_dirtree := schema;
  ostree_validate_structureof_dirmeta := schema;
  ostree_validate_structureof_file_mode := file_mode;
  ostree_checksum_file_from_input _ _ input _ := inr input;
  ostree_content_stream_parse _ stream _ _ := parse stream;
  ostree_raw_file_to_content_stream stream _ _ :=
    inr (stream, Z.of_nat (String.length stream));
  ostree_option_context_parse _ r := inr (command_line r);
  ostree_repo_load_variant := load;
  ostree_repo_load_file r c :=
    match load r OSTREE_OBJECT_TYPE_FILE c with
    | inl e => inl e
    | inr o => inr (content o, mode o, o)
    end;
  ostree_repo_load_commit r c :=
    match load r OSTREE_OBJECT_TYPE_COMMIT c with
    | inl e => inl e
    | inr o => inr (o, state o)
    end;
  ostree_repo_list_objects r := inr (dom (objects r));
  ostree_repo_traverse_commit_union r c _ reachable := traverse r c reachable;
  ostree_repo_remote_get_url r name :=
    match assoc name (remotes r) with
    | Some url => inr url
    | None => inl (not_found "remote")
    end;
  ostree_repo_remote_list := remote_list;
  ostree_repo_delete_object := delete;
  ostree_repo_write_content := write;
  ot_enable_tombstone_commits r :=
    (None, mkRepo (objects r) (remotes r) (servers r) (cancelled r) true
                  (undeletable r) (command_line r));
  g_file_info_get_attribute_uint32 m _ := m;
  g_memory_input_stream_new_from_data := content;
  g_cancellable_is_cancelled := cancelled;
  soup_session_request url := inr url;
  soup_request_send := send;
  soup_request_get_content_length _ _ := 0
|}.

(** Objects and repositories to run on. *)
Definition file (body : string) : Object := mkObject body 33188 true None None 0 [].
Definition commit (body : string) (parent : option string) (state : Z)
    (refs : list ObjectName) : Object :=
  mkObject body 0 true None parent state refs.

Definition options (quiet delete tombstones : bool) (repair : option (list string))
  : Options := mkOptions quiet delete tombstones repair.

Definition repo (objs : list (ObjectName * Object)) (opts : Options) : Repo :=
  mkRepo (list_to_map objs) [] [] false false [] opts.

Definition start (r : Repo) : State Repo := mkState r false.

End Toy.

(** Sample repositories and the lines a run prints on them. *)
Module Samples.
Import Toy.
Definition FILE := OSTREE_OBJECT_TYPE_FILE.
Definition COMMIT := OSTREE_OBJECT_TYPE_COMMIT.
Definition DIR_TREE := OSTREE_OBJECT_TYPE_DIR_TREE.

Definition plain : Options := mkOptions false false false None.
Definition quiet : Options := mkOptions true false false None.
Definition deleting : Options := mkOptions false true false None.
Definition tombstoning : Options := mkOptions false false true None.
Definition repairing (remotes : list string) : Options :=
  mkOptions false false false (Some remotes).

(** One commit over one file whose content no longer matches its name. *)
Definition corrupted (opts : Options) : Repo :=
  repo [(("c1", COMMIT), commit "c1" None 0 [("f1", FILE)]);
        (("f1", FILE), file "XX")] opts.

(** One commit over a tree, a file that is there and one that is not. *)
Definition incomplete (opts : Options) : Repo :=
  repo [(("c1", COMMIT), commit "c1" None 0
           [("f1", FILE); ("f2", FILE); ("d1", DIR_TREE)]);
        (("f1", FILE), file "f1"); (("d1", DIR_TREE), file "d1")] opts.

(** One commit over a file stored with the mode of a directory. *)
Definition bad_mode (opts : Options) : Repo :=
  repo [(("c1", COMMIT), commit "c1" None 0 [("f1", FILE)]);
        (("f1", FILE), mkObject "f1" 16877 true None None 0 [])] opts.

(** One commit over a tree the store does not have. *)
Definition treeless (opts : Options) : Repo :=
  repo [(("c1", COMMIT), commit "c1" None 0 [("d1", DIR_TREE)])] opts.

(** A commit alone. *)
Definition lone (opts : Options) : Repo :=
  repo [(("c1", COMMIT), commit "c1" None 0 [])] opts.

(** A complete commit, and a partial one that refers to a file the store
    does not have. *)
Definition shallow (opts : Options) : Repo :=
  repo [(("c1", COMMIT), commit "c1" None 0 []);
        (("c2", COMMIT), commit "c2" None 1 [("f9", FILE)])] opts.

(** A commit whose parent, [c1], has been pruned. *)
Definition pruned (opts : Options) : Repo :=
  repo [(("c2", COMMIT), commit "c2" (Some "c1") 0 [])] opts.

(** The remote [origin] serves the file [f1]; [mirror] answers with an
    empty body. *)
Definition with_remotes (r : Repo) : Repo :=
  mkRepo (objects r)
         [("origin", "http://origin"); ("mirror", "http://mirror")]
         [("http://origin/objects/f1.file", Some "f1");
          ("http://mirror/objects/f1.file", Some EmptyString)]
         (cancelled r) (tombstone_commits r) (undeletable r) (command_line r).

Definition cancel (r : Repo) : Repo :=
  mkRepo (objects r) (remotes r) (servers r) true (tombstone_commits r)
         (undeletable r) (command_line r).

Definition enumerating : Event := Stdout ("Enumerating objects..." +:+ LF).
Definition verifying_commits (n : string) : Event :=
  Stdout ("Verifying content integrity of " +:+ n +:+ " commit objects..." +:+ LF).
Definition objects_done (i n : string) : Event :=
  Stdout (i +:+ "/" +:+ n +:+ " objects" +:+ LF).
End Samples.

(** More repositories to run on. *)
Module Cases.
Import Toy Samples.
Definition DIR_META := OSTREE_OBJECT_TYPE_DIR_META.

Definition io_failure : GError := failed "Input/output error".

(** One commit over a file, both intact. *)
Definition healthy (opts : Options) : Repo :=
  repo [(("c1", COMMIT), commit "c1" None 0 [("f1", FILE)]);
        (("f1", FILE), file "f1")] opts.

(** One commit over a tree whose payload does not follow its schema. *)
Definition malformed (opts : Options) : Repo :=
  repo [(("c1", COMMIT), commit "c1" None 0 [("d1", DIR_TREE)]);
        (("d1", DIR_TREE), mkObject "d1" 0 false None None 0 [])] opts.

(** One commit over a tree and a file that cannot be read. *)
Definition unreadable (opts : Options) : Repo :=
  repo [(("c1", COMMIT), commit "c1" None 0 [("d1", DIR_TREE); ("f1", FILE)]);
        (("d1", DIR_TREE), mkObject "d1" 0 true (Some io_failure) None 0 []);
        (("f1", FILE), mkObject "f1" 33188 true (Some io_failure) None 0 [])] opts.

(** A commit that cannot be read. *)
Definition damaged (opts : Options) : Repo :=
  repo [(("c1", COMMIT), mkObject "c1" 0 true (Some io_failure) None 0 [])] opts.

Definition partial_commits (n : string) : Event :=
  Stdout (n +:+ " partial commits not verified" +:+ LF).
End Cases.

(** * The trivial web server ([ostree trivial-httpd])

    A shallow embedding of [src/ostree/ot-builtin-trivial-httpd.c]: the
    directory listing, the permission check and the handler of a
    request.  The handler talks to the file system and answers through
    the message libsoup hands it; both are recorded, call by call. *)
Module Httpd.

(** ** The system *)

(** The file types and permission bits of [<sys/stat.h>]. *)
Definition S_IFMT : Z := 61440.
Definition S_IFREG : Z := 32768.
Definition S_IFDIR : Z := 16384.
Definition S_IROTH : Z := 4.
Definition S_IXOTH : Z := 1.

Definition S_ISREG (mode : Z) : bool := Z.land mode S_IFMT =? S_IFREG.
Definition S_ISDIR (mode : Z) : bool := Z.land mode S_IFMT =? S_IFDIR.

(** The two fields of [struct stat] the server reads. *)
Record struct_stat := mkStat {
  st_mode : Z;
  st_size : Z
}.

(** The values of [errno] the server tells apart. *)
Definition EPERM : Z := 1.
Definition ENOENT : Z := 2.
Definition EINTR : Z := 4.

(** The status codes and methods of libsoup. *)
Definition SOUP_STATUS_OK : Z := 200.
Definition SOUP_STATUS_MOVED_PERMANENTLY : Z := 301.
Definition SOUP_STATUS_FORBIDDEN : Z := 403.
Definition SOUP_STATUS_NOT_FOUND : Z := 404.
Definition SOUP_STATUS_INTERNAL_SERVER_ERROR : Z := 500.
Definition SOUP_STATUS_NOT_IMPLEMENTED : Z := 501.

Definition SOUP_METHOD_GET : string := "GET".
Definition SOUP_METHOD_HEAD : string := "HEAD".

(** What the server calls and does not define.  [Fs] is the state of the
    system; every call returns the state after it, so that a call
    repeated can be answered differently.  [stat] answers [inl errno]
    when it returns -1; [readdir] stands for [opendir], the [readdir]
    loop and [closedir], and answers the names in the order [readdir]
    yields them, or [None] when [opendir] fails; [g_mapped_file_new]
    answers the contents of the mapping. *)
Class Posix := {
  Fs : Type;
  stat : Fs → string → (Z + struct_stat) * Fs;
  readdir : Fs → string → option (list string) * Fs;
  g_mapped_file_new : Fs → string → option string * Fs;
  g_build_filename : string → string → string;
  g_markup_escape_text : string → string
}.

(** The request as the handler reads it: [msg->method] and
    [soup_message_get_uri (msg)->path]. *)
Record SoupMessage := mkSoupMessage {
  method : string;
  uri_path : string
}.

(** [OtTrivialHttpd]; [root] is the path of the [GFile]. *)
Record OtTrivialHttpd := mkOtTrivialHttpd {
  root : string;
  running : bool
}.

(** The calls of a run, in order: those into the system, with their
    answers, and those on the message. *)
Inductive Call :=
| Stat (path : string) (answer : Z + struct_stat)
| Readdir (path : string) (answer : option (list string))
| MappedFileNew (path : string) (answer : option string)
| SetStatus (status : Z)
| SetRedirect (status : Z) (redirect_uri : string)
| SetResponse (content_type : string) (body : string)
| BodyAppendBuffer (contents : string)
| HeadersAppend (name value : string).

(** ** Strings *)

Definition CRLF : string := String "013"%char (String "010"%char EmptyString).

(** The double quote of the C literal ["<a href=\"%s\">"]. *)
Definition QUOTE : string := String "034"%char EmptyString.

(** [strstr], [strchr] and [strrchr]: the suffix of the string that
    starts at the match, [None] for [NULL]. *)
Fixpoint strstr (haystack needle : string) : option string :=
  if String.prefix needle haystack then Some haystack
  else
    match haystack with
    | EmptyString => None
    | String _ rest => strstr rest needle
    end.

Fixpoint strchr (s : string) (c : ascii) : option string :=
  match s with
  | EmptyString => None
  | String a rest => if bool_decide (a = c) then Some s else strchr rest c
  end.

Fixpoint strrchr (s : string) (c : ascii) : option string :=
  match s with
  | EmptyString => None
  | String a rest =>
    match strrchr rest c with
    | Some found => Some found
    | None => if bool_decide (a = c) then Some s else None
    end
  end.

(** [strcmp], up to the magnitude of its result. *)
Definition strcmp (a b : string) : comparison := String.compare a b.

(** ["%lu"] of a [gulong]. *)
Definition fmt_lu (z : Z) : string := fmt_u (z mod 2 ^ 64).

(** ** [compare_strings] and the sort *)

Definition compare_strings (a b : string) : comparison := strcmp a b.

(** [g_ptr_array_sort]: the array in the order of the comparison.  Two
    names that compare equal are the same string, so the order [qsort]
    leaves equal elements in cannot be observed. *)
Fixpoint sorted_insert (compare : string → string → comparison) (x : string)
    (l : list string) : list string :=
  match l with
  | [] => [x]
  | y :: rest =>
    match compare x y with
    | Gt => y :: sorted_insert compare x rest
    | _ => x :: l
    end
  end.

Definition g_ptr_array_sort (compare : string → string → comparison)
    (l : list string) : list string :=
  foldr (sorted_insert compare) [] l.

Section Server.
Context {sys : Posix}.

(** A computation returns its value, the system after it and the calls
    it made. *)
Definition IO (A : Type) : Type := Fs → A * Fs * list Call.

Definition io_ret {A} (a : A) : IO A := λ fs, (a, fs, []).

Definition io_bind {A B} (m : IO A) (f : A → IO B) : IO B :=
  λ fs, let '(a, fs1, l1) := m fs in
        let '(b, fs2, l2) := f a fs1 in
        (b, fs2, l1 ++ l2).

#[global] Instance IO_ret : MRet IO := @io_ret.
#[global] Instance IO_bind : MBind IO := λ A B f m, io_bind m f.

(** A call into the system, recorded with its answer. *)
Definition sys_call {A} (f : Fs → A * Fs) (record : A → Call) : IO A :=
  λ fs, let '(a, fs') := f fs in (a, fs', [record a]).

(** A call on the message. *)
Definition soup (c : Call) : IO unit := λ fs, (tt, fs, [c]).

Definition call_stat (path : string) : IO (Z + struct_stat) :=
  sys_call (λ fs, stat fs path) (Stat path).

(** ** [get_directory_listing] *)

(** The entries the [readdir] loop keeps: all but ["."], and but [".."]
    when the directory is ["./"]. *)
Definition kept (path d_name : string) : bool :=
  negb (bool_decide (d_name = ".")
        || (bool_decide (d_name = "..") && bool_decide (path = "./"))).

(** The array [entries] after the sort. *)
Definition entries_of (path : string) (dir : option (list string)) : list string :=
  g_ptr_array_sort compare_strings
    (g_markup_escape_text <$> List.filter (kept path) (default [] dir)).

Definition anchor (entry : string) : string :=
  "<a href=" +:+ QUOTE +:+ entry +:+ QUOTE +:+ ">" +:+ entry +:+ "</a><br>" +:+ CRLF.

(** The page.  The title is what follows the first slash of [path],
    slash included; the handler asks for the listing of paths that end
    in a slash only, and a path without one would be printed as GLib
    prints a [NULL] string. *)
Definition get_directory_listing (path : string) : IO string :=
  dir ← sys_call (λ fs, readdir fs path) (Readdir path);
  let entries := entries_of path dir in
  let escaped :=
    match strchr path "/" with
    | Some title => g_markup_escape_text title
    | None => "(null)"
    end in
  mret ("<html>" +:+ CRLF
        +:+ "<head><title>Index of " +:+ escaped +:+ "</title></head>" +:+ CRLF
        +:+ "<body><h1>Index of " +:+ escaped +:+ "</h1>" +:+ CRLF +:+ "<p>" +:+ CRLF
        +:+ String.concat EmptyString (anchor <$> entries)
        +:+ "</body>" +:+ CRLF +:+ "</html>" +:+ CRLF).

(** ** [is_safe_to_access] *)

Definition is_safe_to_access (stbuf : struct_stat) : bool :=
  if negb (S_ISREG (st_mode stbuf) || S_ISDIR (st_mode stbuf)) then false
  else if Z.land (st_mode stbuf) S_IROTH =? 0 then false
  else if S_ISDIR (st_mode stbuf) && (Z.land (st_mode stbuf) S_IXOTH =? 0) then false
  else true.

(** ** [do_get] *)

(** [do ret = stat (safepath, &stbuf); while (ret == -1 && errno == EINTR);]
    with fuel for the rounds: [None] when it runs out. *)
Fixpoint stat_retry (fuel : nat) (safepath : string) : IO (option (Z + struct_stat)) :=
  match fuel with
  | O => mret None
  | S fuel =>
    r ← call_stat safepath;
    match r with
    | inl errno =>
      if errno =? EINTR then stat_retry fuel safepath else mret (Some (inl errno))
    | inr stbuf => mret (Some (inr stbuf))
    end
  end.

(** The handler proper.  [fuel] bounds the rounds of the [stat] loop and
    the depth of the recursion on [index.html]; [None] when it runs
    out, [Some tt] when the handler returns. *)
Fixpoint do_get (fuel : nat) (self : OtTrivialHttpd) (msg : SoupMessage) (path : string)
  : IO (option unit) :=
  match fuel with
  | O => mret None
  | S fuel =>
    if bool_decide (strstr path "../" ≠ None) then
      soup (SetStatus SOUP_STATUS_FORBIDDEN) ;; mret (Some tt)
    else
      let path := match path with
                  | String "/" rest => rest
                  | _ => path
                  end in
      let safepath := g_build_filename (root self) path in
      r ← stat_retry fuel safepath;
      match r with
      | None => mret None
      | Some (inl errno) =>
        (if errno =? EPERM then soup (SetStatus SOUP_STATUS_FORBIDDEN)
         else if errno =? ENOENT then soup (SetStatus SOUP_STATUS_NOT_FOUND)
         else soup (SetStatus SOUP_STATUS_INTERNAL_SERVER_ERROR)) ;;
        mret (Some tt)
      | Some (inr stbuf) =>
        if negb (is_safe_to_access stbuf) then
          soup (SetStatus SOUP_STATUS_FORBIDDEN) ;; mret (Some tt)
        else if S_ISDIR (st_mode stbuf) then
          match strrchr safepath "/" with
          | Some (String _ EmptyString) =>
            (* slash && !slash[1] *)
            let index_realpath := safepath +:+ "/index.html" in
            i ← call_stat index_realpath;
            match i with
            | inr _ => do_get fuel self msg (path +:+ "/index.html")
            | inl _ =>
              listing ← get_directory_listing safepath;
              soup (SetResponse "text/html" listing) ;;
              mret (Some tt)
            end
          | _ =>
            soup (SetRedirect SOUP_STATUS_MOVED_PERMANENTLY (uri_path msg +:+ "/")) ;;
            mret (Some tt)
          end
        else if negb (S_ISREG (st_mode stbuf)) then
          soup (SetStatus SOUP_STATUS_FORBIDDEN) ;; mret (Some tt)
        else if bool_decide (method msg = SOUP_METHOD_GET) then
          mapping ← sys_call (λ fs, g_mapped_file_new fs safepath) (MappedFileNew safepath);
          match mapping with
          | None =>
            soup (SetStatus SOUP_STATUS_INTERNAL_SERVER_ERROR) ;; mret (Some tt)
          | Some contents =>
            soup (BodyAppendBuffer contents) ;;
            soup (SetStatus SOUP_STATUS_OK) ;;
            mret (Some tt)
          end
        else
          (* msg->method == SOUP_METHOD_HEAD *)
          soup (HeadersAppend "Content-Length" (fmt_lu (st_size stbuf))) ;;
          soup (SetStatus SOUP_STATUS_OK) ;;
          mret (Some tt)
      end
  end.

(** ** [httpd_callback] *)

(** The iterator over the request headers that the callback sets up is
    never read; [query] and [context] are not used either. *)
Definition httpd_callback (fuel : nat) (self : OtTrivialHttpd) (msg : SoupMessage)
    (path : string) : IO (option unit) :=
  if bool_decide (method msg = SOUP_METHOD_GET)
     || bool_decide (method msg = SOUP_METHOD_HEAD)
  then do_get fuel self msg path
  else soup (SetStatus SOUP_STATUS_NOT_IMPLEMENTED) ;; mret (Some tt).

End Server.

(** ** Reading the handler *)

Section Vocabulary.
Context {sys : Posix}.

(** [path] after [if (path[0] == '/') path++;], and the path the handler
    looks up for it. *)
Definition relative (path : string) : string :=
  match path with
  | String "/" rest => rest
  | _ => path
  end.

Definition safepath_of (self : OtTrivialHttpd) (path : string) : string :=
  g_build_filename (root self) (relative path).

(** The status the handler gives an [errno] of [stat]. *)
Definition status_of_errno (errno : Z) : Z :=
  if errno =? EPERM then SOUP_STATUS_FORBIDDEN
  else if errno =? ENOENT then SOUP_STATUS_NOT_FOUND
  else SOUP_STATUS_INTERNAL_SERVER_ERROR.

(** [stat] on [path] gives an answer other than [EINTR] after at most
    [k] interrupted calls. *)
Fixpoint settles (k : nat) (fs : Fs) (path : string) : Prop :=
  match stat fs path with
  | (inl errno, fs') =>
    if errno =? EINTR then
      match k with
      | O => False
      | S k => settles k fs' path
      end
    else True
  | (inr _, _) => True
  end.

(** The calls that answer the request: a status, a redirect or a
    response. *)
Definition is_answer (c : Call) : bool :=
  match c with
  | SetStatus _ | SetRedirect _ _ | SetResponse _ _ => true
  | _ => false
  end.

(** The calls that hand out a file: the status 200, a body, a header. *)
Definition hands_out (c : Call) : bool :=
  match c with
  | SetStatus status => status =? SOUP_STATUS_OK
  | BodyAppendBuffer _ | HeadersAppend _ _ => true
  | _ => false
  end.

(** The calls that open a file and send its contents. *)
Definition maps_file (c : Call) : bool :=
  match c with
  | MappedFileNew _ _ | BodyAppendBuffer _ => true
  | _ => false
  end.

Definition is_header (c : Call) : bool :=
  match c with
  | HeadersAppend _ _ => true
  | _ => false
  end.

(** [stbuf] describes a regular file that others may read. *)
Definition world_readable_file (stbuf : struct_stat) : Prop :=
  S_ISREG (st_mode stbuf) = true ∧ Z.land (st_mode stbuf) S_IROTH ≠ 0.

(** The page [get_directory_listing] makes of what [readdir] answered. *)
Definition page (path : string) (dir : option (list string)) : string :=
  let escaped :=
    match strchr path "/" with
    | Some title => g_markup_escape_text title
    | None => "(null)"
    end in
  "<html>" +:+ CRLF
  +:+ "<head><title>Index of " +:+ escaped +:+ "</title></head>" +:+ CRLF
  +:+ "<body><h1>Index of " +:+ escaped +:+ "</h1>" +:+ CRLF +:+ "<p>" +:+ CRLF
  +:+ String.concat EmptyString (anchor <$> entries_of path dir)
  +:+ "</body>" +:+ CRLF +:+ "</html>" +:+ CRLF.

(** What [do_get] does once [stat] has answered, case by case. *)
Definition answer (self : OtTrivialHttpd) (msg : SoupMessage) (path : string)
    (continue : string → Fs → option unit * Fs * list Call)
    (r : Z + struct_stat) (fs : Fs) : option unit * Fs * list Call :=
  let safepath := safepath_of self path in
  match r with
  | inl errno => (Some tt, fs, [SetStatus (status_of_errno errno)])
  | inr stbuf =>
    if negb (is_safe_to_access stbuf) then (Some tt, fs, [SetStatus SOUP_STATUS_FORBIDDEN])
    else if S_ISDIR (st_mode stbuf) then
      match strrchr safepath "/" with
      | Some (String _ EmptyString) =>
        let '(i, fs1) := stat fs (safepath +:+ "/index.html") in
        match i with
        | inr _ =>
          let '(r', fs2, l) := continue (relative path +:+ "/index.html") fs1 in
          (r', fs2, Stat (safepath +:+ "/index.html") i :: l)
        | inl _ =>
          let '(dir, fs2) := readdir fs1 safepath in
          (Some tt, fs2,
           [Stat (safepath +:+ "/index.html") i; Readdir safepath dir;
            SetResponse "text/html" (page safepath dir)])
        end
      | _ =>
        (Some tt, fs,
         [SetRedirect SOUP_STATUS_MOVED_PERMANENTLY (uri_path msg +:+ "/")])
      end
    else if bool_decide (method msg = SOUP_METHOD_GET) then
      let '(mapping, fs1) := g_mapped_file_new fs safepath in
      match mapping with
      | None =>
        (Some tt, fs1,
         [MappedFileNew safepath None; SetStatus SOUP_STATUS_INTERNAL_SERVER_ERROR])
      | Some contents =>
        (Some tt, fs1,
         [MappedFileNew safepath (Some contents); BodyAppendBuffer contents;
          SetStatus SOUP_STATUS_OK])
      end
    else
      (Some tt, fs,
       [HeadersAppend "Content-Length" (fmt_lu (st_size stbuf));
        SetStatus SOUP_STATUS_OK])
  end.

(** The order of the listing. *)
Definition le_strings (a b : string) : Prop := compare_strings a b ≠ Gt.

End Vocabulary.

End Httpd.

(** ** A list-backed file system *)

(** A disk small enough to run the web server on: what [stat] answers
    for a path, the contents of a file, the names of a directory; the
    first [interrupts] calls of [stat] are interrupted. *)
Module Disk.
Import Httpd.

Record Node := mkNode {
  node_stat : Z + struct_stat;
  node_contents : option string;
  node_names : option (list string)
}.

Record Disk := mkDisk {
  nodes : list (string * Node);
  interrupts : nat
}.

Definition disk_stat (d : Disk) (path : string) : (Z + struct_stat) * Disk :=
  match interrupts d with
  | S n => (inl EINTR, mkDisk (nodes d) n)
  | O =>
    (match Toy.assoc path (nodes d) with
     | Some node => node_stat node
     | None => inl ENOENT
     end, d)
  end.

Definition disk_readdir (d : Disk) (path : string) : option (list string) * Disk :=
  (match Toy.assoc path (nodes d) with
   | Some node => node_names node
   | None => None
   end, d).

Definition disk_map (d : Disk) (path : string) : option string * Disk :=
  (match Toy.assoc path (nodes d) with
   | Some node => node_contents node
   | None => None
   end, d).

(** For a root without a trailing slash and a path without a leading
    one. *)
Definition build_filename (root path : string) : string :=
  if bool_decide (path = EmptyString) then root else root +:+ "/" +:+ path.

Fixpoint escape (s : string) : string :=
  match s with
  | EmptyString => EmptyString
  | String c rest =>
    (if bool_decide (c = "<"%char) then "&lt;"
     else if bool_decide (c = ">"%char) then "&gt;"
     else if bool_decide (c = "&"%char) then "&amp;"
     else String c EmptyString) +:+ escape rest
  end.

#[local] Instance sys : Posix := {|
  Fs := Disk;
  stat := disk_stat;
  readdir := disk_readdir;
  g_mapped_file_new := disk_map;
  g_build_filename := build_filename;
  g_markup_escape_text := escape
|}.

Definition EACCES : Z := 13.

Definition directory (names : list string) : Node :=
  mkNode (inr (mkStat 16877 4096)) None (Some names).

Definition regular (mode : Z) (contents : string) : Node :=
  mkNode (inr (mkStat mode (Z.of_nat (String.length contents)))) (Some contents) None.

(** [/srv]: a directory [pub] with two files, one of them private; a
    directory [site] with an [index.html]; a path [stat] may not look
    at. *)
Definition srv : Disk :=
  mkDisk [("/srv/pub", directory []);
          ("/srv/pub/", directory ["."; "b.txt"; ".."; "a<1>"; "secret"]);
          ("/srv/pub/b.txt", regular 33188 "hello");
          ("/srv/pub/secret", regular 33152 "key");
          ("/srv/site/", directory ["."; ".."; "index.html"]);
          ("/srv/site//index.html", regular 33188 "<html></html>");
          ("/srv/locked", mkNode (inl EACCES) None None)] O.

Definition interrupted (n : nat) (d : Disk) : Disk := mkDisk (nodes d) n.

Definition server : OtTrivialHttpd := mkOtTrivialHttpd "/srv" true.
Definition get (path : string) : SoupMessage := mkSoupMessage "GET" path.
Definition head (path : string) : SoupMessage := mkSoupMessage "HEAD" path.

End Disk.

(** * Properties *)

Section Properties.
Context {lib : LibOstree}.

(** *** Running the monad *)

(** Unfold the plumbing, keep the strings folded. *)
Ltac run :=
  repeat (progress (
    unfold mbind, mret, M_bind, M_ret, bind, ret, emit, ask, call, when,
      g_print, g_printerr, set_found_corruption, get_found_corruption,
      remote_get_url, delete_object;
    cbn beta iota zeta delta [app negb orb andb fst snd world found_corruption])).

Ltac done_run :=
  repeat first [ rewrite app_nil_r | rewrite <- app_assoc | rewrite <- app_comm_cons ];
  reflexivity.

(** *** One object *)

(** [repair_object] on a metadata kind: one line on stderr, nothing else. *)
Lemma repair_object_meta opts remotes checksum objtype st :
  objtype ≠ OSTREE_OBJECT_TYPE_FILE →
  repair_object opts remotes checksum objtype st
  = (false, st, [Stderr (not_implemented checksum objtype)]).
Proof.
  intros Hmeta. unfold repair_object.
  rewrite bool_decide_eq_true_2 by assumption. reflexivity.
Qed.

Lemma repair_or_flag_none opts checksum objtype st :
  repair_or_flag opts None checksum objtype st = (tt, flagged st, []).
Proof. reflexivity. Qed.

Lemma repair_or_flag_some opts remotes checksum objtype st :
  repair_or_flag opts (Some remotes) checksum objtype st
  = let '(repaired, s, l) := repair_object opts remotes checksum objtype st in
    (tt, if repaired then s else flagged s, l).
Proof.
  unfold repair_or_flag. run.
  destruct (repair_object _ _ _ _ _) as [[[] s] l]; run; done_run.
Qed.

Lemma fsck_policy opts checksum objtype repair_remotes st :
  load_and_fsck_one_object opts checksum objtype repair_remotes st
  = policy opts checksum objtype repair_remotes st.
Proof.
  unfold policy, outcome, recomputed, schema_error, load_and_fsck_one_object,
    corruption, corrupted_object, object_missing, prefixed, while_validating,
    g_prefix_error, g_set_error_literal.
  destruct objtype; cbn [OSTREE_OBJECT_TYPE_IS_META]; run.
  all: repeat (first [ case_bool_decide | case_match ]; simplify_eq; run;
               try done_run).
Qed.

(** *** The loop over the reachable set *)

Lemma fsck_objects_fail opts rr count mod_ checksum objtype rest i st error s l :
  load_and_fsck_one_object opts checksum objtype rr st = (GFail error, s, l) →
  fsck_objects opts rr count mod_ ((checksum, objtype) :: rest) i st
  = (GFail error, s, l).
Proof.
  intros H. cbn [fsck_objects]. run. rewrite H. run. done_run.
Qed.

Lemma fsck_objects_ok opts rr count mod_ checksum objtype rest i st u s l :
  load_and_fsck_one_object opts checksum objtype rr st = (GOk u, s, l) →
  fsck_objects opts rr count mod_ ((checksum, objtype) :: rest) i st
  = let '(r, s', l') := fsck_objects opts rr count mod_ rest (guint (i + 1)) s in
    (r, s', l ++ progress count mod_ i ++ l').
Proof.
  intros H. cbn [fsck_objects]. run. rewrite H. unfold progress. run.
  destruct ((mod_ =? 0) || (i `mod` mod_ =? 0)); run;
    destruct (fsck_objects _ _ _ _ _ _ _) as [[r s'] l']; reflexivity.
Qed.

Lemma fsck_objects_app opts rr count mod_ done todo i st s l :
  fsck_objects opts rr count mod_ done i st = (GOk tt, s, l) →
  fsck_objects opts rr count mod_ (done ++ todo) i st
  = let '(r, s', l') := fsck_objects opts rr count mod_ todo (advance done i) s in
    (r, s', l ++ l').
Proof.
  revert i st s l. induction done as [|[checksum objtype] done IH]; intros i st s l H.
  - cbn [fsck_objects] in H. unfold ret in H. simplify_eq.
    cbn [app advance fold_left].
    destruct (fsck_objects _ _ _ _ _ _ _) as [[r s'] l']. reflexivity.
  - destruct (load_and_fsck_one_object opts checksum objtype rr st)
      as [[[[]|error] s1] l1] eqn:Hone.
    + rewrite (fsck_objects_ok _ _ _ _ _ _ _ _ _ _ _ _ Hone) in H.
      cbn [app]. rewrite (fsck_objects_ok _ _ _ _ _ _ _ _ _ _ _ _ Hone).
      destruct (fsck_objects opts rr count mod_ done (guint (i + 1)) s1)
        as [[[[]|error] s2] l2] eqn:Hdone; simplify_eq.
      rewrite (IH _ _ _ _ Hdone). cbn [advance fold_left].
      destruct (fsck_objects _ _ _ _ todo _ _) as [[r s'] l'].
      rewrite <- !app_assoc. reflexivity.
    + rewrite (fsck_objects_fail _ _ _ _ _ _ _ _ _ _ _ _ Hone) in H. discriminate.
Qed.

(** *** The corruption flag *)

Lemma keeps_raises {A} (m : M A) : keeps_flag m → raises_flag m.
Proof. intros H st Hst. rewrite H. exact Hst. Qed.

Lemma keeps_flag_ret {A} (a : A) : keeps_flag (ret a).
Proof. intros st. reflexivity. Qed.

Lemma keeps_flag_emit e : keeps_flag (emit e).
Proof. intros st. reflexivity. Qed.

Lemma keeps_flag_ask {A} (f : World → A) : keeps_flag (ask f).
Proof. intros st. reflexivity. Qed.

Lemma keeps_flag_call {A} e (f : World → A * World) : keeps_flag (call e f).
Proof. intros st. unfold call. destruct (f (world st)). reflexivity. Qed.

Lemma keeps_flag_bind {A B} (m : M A) (f : A → M B) :
  keeps_flag m → (∀ a, keeps_flag (f a)) → keeps_flag (m ≫= f).
Proof.
  intros Hm Hf st. unfold mbind, M_bind, bind.
  specialize (Hm st). destruct (m st) as [[a s1] l1].
  specialize (Hf a s1). destruct (f a s1) as [[b s2] l2].
  cbn in *. congruence.
Qed.

Lemma raises_flag_bind {A B} (m : M A) (f : A → M B) :
  raises_flag m → (∀ a, raises_flag (f a)) → raises_flag (m ≫= f).
Proof.
  intros Hm Hf st Hst. unfold mbind, M_bind, bind.
  specialize (Hm st Hst). destruct (m st) as [[a s1] l1].
  specialize (Hf a s1 Hm). destruct (f a s1) as [[b s2] l2].
  exact Hf.
Qed.

Lemma raises_flag_set : raises_flag (set_found_corruption true).
Proof. intros st _. reflexivity. Qed.

Ltac flag :=
  repeat lazymatch goal with
  | |- keeps_flag (mbind _ _) => apply keeps_flag_bind; [|intros ?]
  | |- keeps_flag (ret _) => apply keeps_flag_ret
  | |- keeps_flag (emit _) => apply keeps_flag_emit
  | |- keeps_flag (g_print _) => apply keeps_flag_emit
  | |- keeps_flag (g_printerr _) => apply keeps_flag_emit
  | |- keeps_flag (ask _) => apply keeps_flag_ask
  | |- keeps_flag (call _ _) => apply keeps_flag_call
  | |- keeps_flag (delete_object _ _) => apply keeps_flag_call
  | |- keeps_flag (remote_get_url _) => unfold remote_get_url
  | |- keeps_flag (when _ _) => unfold when
  | |- keeps_flag (match ?x with _ => _ end) => destruct x
  | |- raises_flag (mbind _ _) => apply raises_flag_bind; [|intros ?]
  | |- raises_flag (set_found_corruption true) => apply raises_flag_set
  | |- raises_flag (when _ _) => unfold when
  | |- raises_flag (match ?x with _ => _ end) => destruct x
  | |- raises_flag _ => apply keeps_raises
  end.

Lemma repair_from_keeps_flag opts type checksum path objtype remote :
  keeps_flag (repair_from opts type checksum path objtype remote).
Proof. unfold repair_from. flag. Qed.

Lemma repair_object_keeps_flag opts remotes checksum objtype :
  keeps_flag (repair_object opts remotes checksum objtype).
Proof.
  unfold repair_object. destruct (bool_decide _); [flag|].
  induction remotes as [|remote remotes IH]; cbn [repair_object_loop]; [flag|].
  apply keeps_flag_bind; [apply repair_from_keeps_flag|].
  intros []; [flag| exact IH |flag].
Qed.

Lemma repair_or_flag_raises opts rr checksum objtype :
  raises_flag (repair_or_flag opts rr checksum objtype).
Proof.
  unfold repair_or_flag. destruct rr as [remotes|]; [|flag].
  apply raises_flag_bind.
  - apply keeps_raises, repair_object_keeps_flag.
  - intros []; cbn [negb]; flag.
Qed.

Lemma load_and_fsck_raises opts checksum objtype rr :
  raises_flag (load_and_fsck_one_object opts checksum objtype rr).
Proof.
  intros st Hst. rewrite fsck_policy. unfold policy.
  destruct (outcome _ _ _); try exact Hst.
  - pose proof (repair_or_flag_raises opts rr checksum objtype st Hst) as H.
    destruct (repair_or_flag _ _ _ _ _) as [[[] s] l]. exact H.
  - destruct (_ || _); [|exact Hst].
    destruct (ostree_repo_delete_object _ _ _) as [d w].
    pose proof (repair_or_flag_raises opts rr checksum objtype
                  (mkState w (found_corruption st)) Hst) as H.
    destruct (repair_or_flag _ _ _ _ _) as [[[] s] l]. exact H.
Qed.

Lemma fsck_objects_raises opts rr count mod_ iter i :
  raises_flag (fsck_objects opts rr count mod_ iter i).
Proof.
  revert i. induction iter as [|[checksum objtype] iter IH]; intros i;
    cbn [fsck_objects]; [flag|].
  apply raises_flag_bind; [apply load_and_fsck_raises|].
  intros [u|error]; [|flag].
  apply raises_flag_bind; [flag|]. intros _. apply IH.
Qed.

Lemma add_tombstones_keeps_flag tombstones : keeps_flag (add_tombstones tombstones).
Proof.
  induction tombstones as [|checksum tombstones IH]; cbn [add_tombstones]; [flag|].
  apply keeps_flag_bind; [flag|]. intros _.
  apply keeps_flag_bind; [flag|]. intros [error|]; [flag|exact IH].
Qed.

Lemma apply_tombstones_keeps_flag opts n_partial tombstones :
  keeps_flag (apply_tombstones opts n_partial tombstones).
Proof.
  unfold apply_tombstones. destruct (opt_add_tombstones opts); [|flag].
  apply keeps_flag_bind; [flag|].
  intros [error|]; [flag|apply add_tombstones_keeps_flag].
Qed.

(** *** The command, phase by phase *)

Lemma fsck_phases argv st :
  ostree_builtin_fsck argv st
  = let '(r, s1, l1) := until_verification argv st in
    match r with
    | GFail error => (GFail error, s1, l1)
    | GOk v =>
      let '(r, s2, l2) := verification v (elements (v_reachable v)) 0 s1 in
      match r with
      | GFail error => (GFail error, s2, l1 ++ l2)
      | GOk _ =>
        let '(r, s3, l3) := after_verification v s2 in
        (r, s3, l1 ++ l2 ++ l3)
      end
    end.
Proof.
  unfold ostree_builtin_fsck, until_verification, verification, after_verification,
    fsck_reachable_objects_from_commits, corruption_encountered, g_set_error_literal.
  run.
  repeat (case_match; simplify_eq; run; cbn [v_opts v_repair_remotes v_n_partial
            v_tombstones v_reachable];
          try done_run).
Qed.

Lemma command_from argv st0 v done todo st l :
  verifying argv st0 v done todo st l →
  ostree_builtin_fsck argv st0
  = let '(r, s2, l2) := verification v todo (advance done 0) st in
    match r with
    | GFail error => (GFail error, s2, l ++ l2)
    | GOk _ =>
      let '(r, s3, l3) := after_verification v s2 in
      (r, s3, l ++ l2 ++ l3)
    end.
Proof.
  intros (s1 & l1 & l2 & Huntil & Helements & Hdone & ->).
  rewrite fsck_phases, Huntil, Helements.
  unfold verification in *. rewrite (fsck_objects_app _ _ _ _ _ _ _ _ _ _ Hdone).
  destruct (fsck_objects _ _ _ _ todo _ _) as [[[[]|error] s2] l3].
  - destruct (after_verification v s2) as [[r s3] l4]. done_run.
  - done_run.
Qed.

(** A fatal error on the next object is the result of the command. *)
Lemma command_aborts argv st0 v done checksum objtype rest st l error s' l' :
  verifying argv st0 v done ((checksum, objtype) :: rest) st l →
  load_and_fsck_one_object (v_opts v) checksum objtype (v_repair_remotes v) st
  = (GFail error, s', l') →
  ostree_builtin_fsck argv st0 = (GFail error, s', l ++ l').
Proof.
  intros Hrun Hone. rewrite (command_from _ _ _ _ _ _ _ Hrun).
  unfold verification. rewrite (fsck_objects_fail _ _ _ _ _ _ _ _ _ _ _ _ Hone).
  reflexivity.
Qed.

(** With the flag up, the verdict is failure. *)
Lemma after_verification_flagged v s :
  found_corruption s = true →
  (∃ error, (after_verification v s).1.1 = GFail error)
  ∧ ∀ u s' l', apply_tombstones (v_opts v) (v_n_partial v) (v_tombstones v) s
               = (GOk u, s', l') →
      after_verification v s = (GFail (Some corruption_encountered), s', l').
Proof.
  intros Hs. unfold after_verification. run.
  pose proof (apply_tombstones_keeps_flag (v_opts v) (v_n_partial v)
                (v_tombstones v) s) as Hkeep.
  destruct (apply_tombstones _ _ _ s) as [[[[]|error] s'] l']; cbn in Hkeep.
  - rewrite Hkeep, Hs. split; [eexists; reflexivity|].
    intros u s2 l2 H. simplify_eq. done_run.
  - split; [eexists; reflexivity|]. intros u s2 l2 H. discriminate.
Qed.

Lemma after_verification_clean v s u s' l' :
  found_corruption s = false →
  apply_tombstones (v_opts v) (v_n_partial v) (v_tombstones v) s = (GOk u, s', l') →
  after_verification v s = (GOk tt, s', l').
Proof.
  intros Hs Happly. unfold after_verification. run. rewrite Happly.
  pose proof (apply_tombstones_keeps_flag (v_opts v) (v_n_partial v)
                (v_tombstones v) s) as Hkeep.
  rewrite Happly in Hkeep. cbn in Hkeep. rewrite Hkeep, Hs. done_run.
Qed.

(** Once the flag is up during verification, the command fails. *)
Lemma command_flagged argv st0 v done todo st l :
  verifying argv st0 v done todo st l →
  found_corruption st = true →
  ∃ error, (ostree_builtin_fsck argv st0).1.1 = GFail error.
Proof.
  intros Hrun Hflag. rewrite (command_from _ _ _ _ _ _ _ Hrun).
  pose proof (fsck_objects_raises (v_opts v) (v_repair_remotes v)
                (Z.of_nat (size (v_reachable v)))
                (Z.of_nat (size (v_reachable v)) `div` 10) todo (advance done 0)
                st Hflag) as Hraise.
  unfold verification.
  destruct (fsck_objects _ _ _ _ todo _ _) as [[[[]|error] s2] l2]; cbn in Hraise.
  - destruct (after_verification_flagged v s2 Hraise) as [[error Herror] _].
    destruct (after_verification v s2) as [[r s3] l3]. cbn in *. eauto.
  - eexists; reflexivity.
Qed.

(** *** Remediation *)

(** C1.  A reachable object whose recomputed checksum differs from its
    name, with neither [--delete] nor a repair source: the verifier fails
    with the error "corrupted object <checksum>.<kind>; actual checksum:
    <digest>", nothing is printed, deleted or flagged, the loop stops
    at that object whatever follows it, and the command returns that
    error. *)
Theorem checksum_mismatch_aborts opts checksum objtype actual st :
  opt_delete opts = false →
  outcome (world st) checksum objtype = ChecksumMismatch actual →
  message (corruption checksum objtype actual)
  = "corrupted object " +:+ checksum +:+ "."
    +:+ ostree_object_type_to_string objtype +:+ "; actual checksum: " +:+ actual
  ∧ load_and_fsck_one_object opts checksum objtype None st
    = (GFail (Some (corruption checksum objtype actual)), st, [])
  ∧ (∀ count mod_ rest i,
       fsck_objects opts None count mod_ ((checksum, objtype) :: rest) i st
       = (GFail (Some (corruption checksum objtype actual)), st, []))
  ∧ (∀ argv st0 v done rest l,
       v_opts v = opts → v_repair_remotes v = None →
       verifying argv st0 v done ((checksum, objtype) :: rest) st l →
       ostree_builtin_fsck argv st0
       = (GFail (Some (corruption checksum objtype actual)), st, l)).
Proof.
  intros Hdelete Houtcome.
  assert (load_and_fsck_one_object opts checksum objtype None st
          = (GFail (Some (corruption checksum objtype actual)), st, [])) as Hone.
  { rewrite fsck_policy. unfold policy. rewrite Houtcome, Hdelete. reflexivity. }
  split; [reflexivity|]. split; [exact Hone|]. split.
  - intros count mod_ rest i. apply fsck_objects_fail. exact Hone.
  - intros argv st0 v done rest l Hopts Hremotes Hrun. subst opts.
    rewrite <- Hremotes in Hone.
    rewrite (command_aborts _ _ _ _ _ _ _ _ _ _ _ _ Hrun Hone). done_run.
Qed.

(** C2.  A reachable object whose load fails with "not found", with no
    repair source: the verifier succeeds, having printed "Object
    missing" and raised the corruption flag; the loop goes on with the
    remaining objects; the command fails, and when nothing after that
    object is fatal it fails with "Repository corruption encountered". *)
Theorem missing_object_is_aggregated opts checksum objtype st :
  outcome (world st) checksum objtype = OutcomeMissing →
  load_and_fsck_one_object opts checksum objtype None st
  = (GOk tt, flagged st, [Stderr (object_missing checksum objtype)])
  ∧ (∀ count mod_ rest i,
       fsck_objects opts None count mod_ ((checksum, objtype) :: rest) i st
       = let '(r, s, l) :=
           fsck_objects opts None count mod_ rest (guint (i + 1)) (flagged st) in
         (r, s, Stderr (object_missing checksum objtype) :: progress count mod_ i ++ l))
  ∧ (∀ argv st0 v done rest l,
       v_opts v = opts → v_repair_remotes v = None →
       verifying argv st0 v done ((checksum, objtype) :: rest) st l →
       (∃ error, (ostree_builtin_fsck argv st0).1.1 = GFail error)
       ∧ ∀ s2 l2 s3 l3,
           verification v rest (advance (done ++ [(checksum, objtype)]) 0) (flagged st)
           = (GOk tt, s2, l2) →
           apply_tombstones opts (v_n_partial v) (v_tombstones v) s2 = (GOk tt, s3, l3) →
           ostree_builtin_fsck argv st0
           = (GFail (Some corruption_encountered), s3,
              l ++ Stderr (object_missing checksum objtype)
                :: progress (Z.of_nat (size (v_reachable v)))
                            (Z.of_nat (size (v_reachable v)) `div` 10)
                            (advance done 0)
                ++ l2 ++ l3)).
Proof.
  intros Houtcome.
  assert (load_and_fsck_one_object opts checksum objtype None st
          = (GOk tt, flagged st, [Stderr (object_missing checksum objtype)])) as Hone.
  { rewrite fsck_policy. unfold policy. rewrite Houtcome. reflexivity. }
  split; [exact Hone|]. split.
  - intros count mod_ rest i. rewrite (fsck_objects_ok _ _ _ _ _ _ _ _ _ _ _ _ Hone).
    destruct (fsck_objects _ _ _ _ _ _ _) as [[r s] l]. reflexivity.
  - intros argv st0 v done rest l Hopts Hremotes Hrun. subst opts.
    rewrite <- Hremotes in Hone.
    assert (verifying argv st0 v (done ++ [(checksum, objtype)]) rest (flagged st)
              (l ++ Stderr (object_missing checksum objtype)
                 :: progress (Z.of_nat (size (v_reachable v)))
                             (Z.of_nat (size (v_reachable v)) `div` 10)
                             (advance done 0))) as Hnext.
    { destruct Hrun as (s1 & l1 & l2 & Huntil & Helements & Hdone & ->).
      exists s1, l1. eexists. split; [exact Huntil|].
      split; [rewrite <- app_assoc; exact Helements|]. split.
      - unfold verification in *.
        rewrite (fsck_objects_app _ _ _ _ _ _ _ _ _ _ Hdone).
        rewrite (fsck_objects_ok _ _ _ _ _ _ _ _ _ _ _ _ Hone).
        cbn [fsck_objects]. run. reflexivity.
      - done_run. }
    split; [exact (command_flagged _ _ _ _ _ _ _ Hnext eq_refl)|].
    intros s2 l2 s3 l3 Hrest Happly.
    rewrite (command_from _ _ _ _ _ _ _ Hnext), Hrest.
    assert (found_corruption s2 = true) as Hraise.
    { pose proof (fsck_objects_raises (v_opts v) (v_repair_remotes v)
                    (Z.of_nat (size (v_reachable v)))
                    (Z.of_nat (size (v_reachable v)) `div` 10) rest
                    (advance (done ++ [(checksum, objtype)]) 0)
                    (flagged st) eq_refl) as H.
      unfold verification in Hrest. rewrite Hrest in H. exact H. }
    destruct (after_verification_flagged v s2 Hraise) as [_ Hafter].
    rewrite (Hafter _ _ _ Happly). done_run.
Qed.

(** C10.  A file object that loads but whose mode bits fail validation:
    whatever the options and the repair sources, the verifier fails with
    the validator's error (prefixed with the file's checksum); nothing is
    deleted, no repair is tried, the flag is untouched; the loop stops
    and the command returns that error. *)
Theorem invalid_file_mode_aborts opts repair_remotes checksum st
    input file_info xattrs reason :
  ostree_repo_load_file (world st) checksum = inr (input, file_info, xattrs) →
  ostree_validate_structureof_file_mode
    (g_file_info_get_attribute_uint32 file_info "unix::mode") = Some reason →
  let error := prefixed ("While validating file '" +:+ checksum +:+ "': ") reason in
  load_and_fsck_one_object opts checksum OSTREE_OBJECT_TYPE_FILE repair_remotes st
  = (GFail (Some error), st, [])
  ∧ (∀ count mod_ rest i,
       fsck_objects opts repair_remotes count mod_
         ((checksum, OSTREE_OBJECT_TYPE_FILE) :: rest) i st
       = (GFail (Some error), st, []))
  ∧ (∀ argv st0 v done rest l,
       v_opts v = opts → v_repair_remotes v = repair_remotes →
       verifying argv st0 v done ((checksum, OSTREE_OBJECT_TYPE_FILE) :: rest) st l →
       ostree_builtin_fsck argv st0 = (GFail (Some error), st, l)).
Proof.
  intros Hload Hmode error.
  assert (load_and_fsck_one_object opts checksum OSTREE_OBJECT_TYPE_FILE
            repair_remotes st = (GFail (Some error), st, [])) as Hone.
  { rewrite fsck_policy. unfold policy, outcome. rewrite Hload, Hmode. reflexivity. }
  split; [exact Hone|]. split.
  - intros count mod_ rest i. apply fsck_objects_fail. exact Hone.
  - intros argv st0 v done rest l Hopts Hremotes Hrun. subst opts repair_remotes.
    rewrite (command_aborts _ _ _ _ _ _ _ _ _ _ _ _ Hrun Hone). done_run.
Qed.

(** C4.  Repairing an object of a metadata kind fails at once: one
    "not implenented" line, no remote asked, no request sent, nothing
    written.  Hence a missing metadata object raises the corruption flag
    whether or not repair sources are configured, and the verifier goes
    on. *)
Theorem metadata_is_never_repaired opts checksum objtype st :
  OSTREE_OBJECT_TYPE_IS_META objtype = true →
  (∀ remotes,
     repair_object opts remotes checksum objtype st
     = (false, st, [Stderr (not_implemented checksum objtype)]))
  ∧ (outcome (world st) checksum objtype = OutcomeMissing →
     ∀ repair_remotes,
       load_and_fsck_one_object opts checksum objtype repair_remotes st
       = (GOk tt, flagged st,
          Stderr (object_missing checksum objtype)
          :: match repair_remotes with
             | Some _ => [Stderr (not_implemented checksum objtype)]
             | None => []
             end)).
Proof.
  intros Hmeta.
  assert (objtype ≠ OSTREE_OBJECT_TYPE_FILE) as Hkind by (intros ->; discriminate).
  split.
  - intros remotes. apply repair_object_meta. exact Hkind.
  - intros Houtcome [remotes|]; rewrite fsck_policy; unfold policy; rewrite Houtcome.
    + rewrite repair_or_flag_some, (repair_object_meta _ _ _ _ _ Hkind). reflexivity.
    + reflexivity.
Qed.

(** C3, as the code has it.  With [--delete] or a list of repair
    sources: an object whose checksum does not match is reported on
    stderr and deleted, whatever the deletion answers, before repair
    is tried; a missing object is reported and repair is tried, no
    deletion being issued for it.  Repair goes through the configured
    list with [repair_object]; when there is no list, or the repair
    fails, the corruption flag is raised.  In both cases the verifier
    returns [TRUE] and the loop goes on with the next object. *)
Theorem remediation_of_bad_objects opts checksum objtype repair_remotes st :
  opt_delete opts || bool_decide (repair_remotes ≠ None) = true →
  (∀ actual d w,
     outcome (world st) checksum objtype = ChecksumMismatch actual →
     ostree_repo_delete_object (world st) objtype checksum = (d, w) →
     ∃ s l,
       repair_or_flag opts repair_remotes checksum objtype
                      (mkState w (found_corruption st)) = (tt, s, l)
       ∧ load_and_fsck_one_object opts checksum objtype repair_remotes st
         = (GOk tt, s,
            Stderr (corrupted_object checksum objtype actual +:+ LF)
            :: DeleteObject objtype checksum :: l))
  ∧ (outcome (world st) checksum objtype = OutcomeMissing →
     ∃ s l,
       repair_or_flag opts repair_remotes checksum objtype st = (tt, s, l)
       ∧ load_and_fsck_one_object opts checksum objtype repair_remotes st
         = (GOk tt, s, Stderr (object_missing checksum objtype) :: l))
  ∧ (∀ s0,
       repair_or_flag opts repair_remotes checksum objtype s0
       = match repair_remotes with
         | None => (tt, flagged s0, [])
         | Some remotes =>
           let '(repaired, s, l) := repair_object opts remotes checksum objtype s0 in
           (tt, if repaired then s else flagged s, l)
         end)
  ∧ (∀ count mod_ rest i s l,
       load_and_fsck_one_object opts checksum objtype repair_remotes st
       = (GOk tt, s, l) →
       fsck_objects opts repair_remotes count mod_ ((checksum, objtype) :: rest) i st
       = let '(r, s', l') :=
           fsck_objects opts repair_remotes count mod_ rest (guint (i + 1)) s in
         (r, s', l ++ progress count mod_ i ++ l')).
Proof.
  intros Hconfigured. repeat split.
  - intros actual d w Houtcome Hdelete.
    destruct (repair_or_flag opts repair_remotes checksum objtype
                (mkState w (found_corruption st))) as [[[] s] l] eqn:Hrepair.
    exists s, l. split; [reflexivity|].
    rewrite fsck_policy. unfold policy.
    rewrite Houtcome, Hconfigured, Hdelete, Hrepair. reflexivity.
  - intros Houtcome.
    destruct (repair_or_flag opts repair_remotes checksum objtype st)
      as [[[] s] l] eqn:Hrepair.
    exists s, l. split; [reflexivity|].
    rewrite fsck_policy. unfold policy. rewrite Houtcome, Hrepair. reflexivity.
  - intros s0. destruct repair_remotes as [remotes|].
    + apply repair_or_flag_some.
    + apply repair_or_flag_none.
  - intros count mod_ rest i s l Hone.
    exact (fsck_objects_ok _ _ _ _ _ _ _ _ _ _ _ _ Hone).
Qed.

(** *** Remote repair *)

Lemma repair_file_nil opts checksum st :
  repair_object opts [] checksum OSTREE_OBJECT_TYPE_FILE st = (false, st, []).
Proof. reflexivity. Qed.

Lemma repair_file_cons opts remote rest checksum st :
  repair_object opts (remote :: rest) checksum OSTREE_OBJECT_TYPE_FILE st
  = let '(round, s, l) :=
      repair_from opts (ostree_object_type_to_string OSTREE_OBJECT_TYPE_FILE) checksum
        (ostree_get_relative_object_path checksum OSTREE_OBJECT_TYPE_FILE true)
        OSTREE_OBJECT_TYPE_FILE remote st in
    match round with
    | ReturnTrue => (true, s, l)
    | ReturnFalse => (false, s, l)
    | Continue =>
      let '(repaired, s', l') :=
        repair_object opts rest checksum OSTREE_OBJECT_TYPE_FILE s in
      (repaired, s', l ++ l')
    end.
Proof.
  unfold repair_object.
  rewrite bool_decide_eq_false_2 by (intros H; apply H; reflexivity).
  cbn [repair_object_loop]. run.
  destruct (repair_from _ _ _ _ _ _ _) as [[[] s] l]; run; done_run.
Qed.

(** One round asks for exactly its own remote; a round that returns
    [FALSE] has seen the cancellation. *)
Lemma repair_from_round opts type checksum path objtype remote st :
  let '(round, s, l) := repair_from opts type checksum path objtype remote st in
  tried l = [remote]
  ∧ (round = ReturnFalse → g_cancellable_is_cancelled (world s) = true)
  ∧ (round = ReturnTrue → last l = Some (WriteContent checksum)).
Proof.
  unfold repair_from. run.
  repeat (case_match; simplify_eq; run); cbn in *; repeat split; congruence.
Qed.

(** Every source the routine asked is one of the list, in order, and
    it gives up only when the list is exhausted or the run cancelled. *)
Lemma repair_file_tried opts remotes checksum st :
  let '(repaired, s, l) :=
    repair_object opts remotes checksum OSTREE_OBJECT_TYPE_FILE st in
  tried l `prefix_of` remotes
  ∧ (repaired = false →
     tried l = remotes ∨ g_cancellable_is_cancelled (world s) = true)
  ∧ (repaired = true → last l = Some (WriteContent checksum)).
Proof.
  revert st. induction remotes as [|remote rest IH]; intros st.
  - rewrite repair_file_nil. cbn. repeat split; [apply prefix_nil|auto|discriminate].
  - rewrite repair_file_cons.
    pose proof (repair_from_round opts
                  (ostree_object_type_to_string OSTREE_OBJECT_TYPE_FILE) checksum
                  (ostree_get_relative_object_path checksum OSTREE_OBJECT_TYPE_FILE true)
                  OSTREE_OBJECT_TYPE_FILE remote st) as Hround.
    destruct (repair_from _ _ _ _ _ _ _) as [[round s] l].
    destruct Hround as (Htried & Hcancelled & Hwritten).
    destruct round.
    + rewrite Htried. repeat split; [|discriminate|auto].
      apply (prefix_cons remote [] rest), prefix_nil.
    + specialize (IH s).
      destruct (repair_object opts rest checksum OSTREE_OBJECT_TYPE_FILE s)
        as [[repaired s'] l'].
      destruct IH as (IHtried & IHfalse & IHtrue).
      unfold tried in *. rewrite omap_app, Htried. cbn [app]. repeat split.
      * apply prefix_cons, IHtried.
      * intros Hfalse. destruct (IHfalse Hfalse) as [->|Hc]; auto.
      * intros Htrue. specialize (IHtrue Htrue).
        destruct l' as [|e l']; [discriminate|].
        rewrite last_app. rewrite IHtrue. reflexivity.
    + rewrite Htried. repeat split; [|auto|discriminate].
      apply (prefix_cons remote [] rest), prefix_nil.
Qed.

(** *** What a round returns *)

Lemma repair_round opts type checksum path objtype remote st :
  repair_from opts type checksum path objtype remote st
  = round_of opts type checksum path objtype remote st.
Proof.
  unfold repair_from, round_of, fetch, repair_failed. run.
  destruct (ostree_repo_remote_get_url (world st) remote) as [error|server_url]; run;
    [reflexivity|].
  destruct (soup_session_request _) as [error|request]; run; [reflexivity|].
  destruct (soup_request_send (world st) request) as [[error|stream] w1]; run.
  { destruct (g_cancellable_is_cancelled w1); run; reflexivity. }
  destruct (ostree_content_stream_parse _ _ _ _) as [error|[[file_stream file_info] xattrs]];
    run; [reflexivity|].
  destruct (ostree_raw_file_to_content_stream _ _ _) as [error|[content_stream content_len]];
    run; [reflexivity|].
  destruct (ostree_repo_write_content w1 checksum content_stream content_len)
    as [[error|] w2]; run; [|reflexivity].
  destruct (opt_delete opts); run; [|reflexivity].
  destruct (ostree_repo_delete_object w2 objtype checksum) as [d w3]. reflexivity.
Qed.

Lemma repair_file_succeeds opts checksum remotes :
  let round :=
    repair_from opts (ostree_object_type_to_string OSTREE_OBJECT_TYPE_FILE) checksum
      (ostree_get_relative_object_path checksum OSTREE_OBJECT_TYPE_FILE true)
      OSTREE_OBJECT_TYPE_FILE in
  ∀ st s l,
    repair_object opts remotes checksum OSTREE_OBJECT_TYPE_FILE st = (true, s, l)
    ↔ ∃ before remote after s0 l0 l1,
        remotes = before ++ remote :: after
        ∧ all_fail round before st = Some (s0, l0)
        ∧ round remote s0 = (ReturnTrue, s, l1)
        ∧ l = l0 ++ l1.
Proof.
  intros round. induction remotes as [|remote rest IH]; intros st s l.
  - rewrite repair_file_nil. split; [discriminate|].
    intros ([|? ?] & ? & ? & ? & ? & ? & ? & _); discriminate.
  - rewrite repair_file_cons. fold round.
    destruct (round remote st) as [[r s1] l1] eqn:Hround. split.
    + destruct r.
      * intros H. simplify_eq. exists [], remote, rest, st, [], l. auto.
      * specialize (IH s1).
        destruct (repair_object opts rest checksum OSTREE_OBJECT_TYPE_FILE s1)
          as [[repaired s'] l'].
        intros H. simplify_eq.
        destruct (proj1 (IH _ _) eq_refl)
          as (before & source & after & s0 & l0 & l2 & -> & Hfail & Hlast & ->).
        exists (remote :: before), source, after, s0, (l1 ++ l0), l2.
        cbn [all_fail]. rewrite Hround, Hfail, <- app_assoc. auto.
      * discriminate.
    + intros (before & source & after & s0 & l0 & l2 & Heq & Hfail & Hlast & ->).
      destruct before as [|first before]; cbn [app all_fail] in Heq, Hfail;
        injection Heq as Hfirst Hrest.
      * subst source after. injection Hfail as Hs Hl. subst s0 l0.
        rewrite Hround in Hlast. injection Hlast as -> -> ->. reflexivity.
      * subst first rest. rewrite Hround in Hfail. destruct r; try discriminate.
        destruct (all_fail round before s1) as [[s' l']|] eqn:Hbefore; [|discriminate].
        injection Hfail as Hs Hl. subst s0 l0.
        assert (repair_object opts (before ++ source :: after) checksum
                  OSTREE_OBJECT_TYPE_FILE s1 = (true, s, l' ++ l2)) as ->.
        { apply IH. exists before, source, after, s', l', l2. auto. }
        rewrite app_assoc. reflexivity.
Qed.

Lemma repair_file_fails opts checksum remotes :
  let round :=
    repair_from opts (ostree_object_type_to_string OSTREE_OBJECT_TYPE_FILE) checksum
      (ostree_get_relative_object_path checksum OSTREE_OBJECT_TYPE_FILE true)
      OSTREE_OBJECT_TYPE_FILE in
  ∀ st s l,
    repair_object opts remotes checksum OSTREE_OBJECT_TYPE_FILE st = (false, s, l)
    ↔ all_fail round remotes st = Some (s, l)
      ∨ ∃ before remote after s0 l0 l1,
          remotes = before ++ remote :: after
          ∧ all_fail round before st = Some (s0, l0)
          ∧ round remote s0 = (ReturnFalse, s, l1)
          ∧ l = l0 ++ l1.
Proof.
  intros round. induction remotes as [|remote rest IH]; intros st s l.
  - rewrite repair_file_nil. cbn [all_fail]. split.
    + intros H. simplify_eq. auto.
    + intros [H|([|? ?] & ? & ? & ? & ? & ? & ? & _)]; [|discriminate..].
      simplify_eq. reflexivity.
  - rewrite repair_file_cons. fold round. cbn [all_fail].
    destruct (round remote st) as [[r s1] l1] eqn:Hround. split.
    + destruct r.
      * discriminate.
      * specialize (IH s1).
        destruct (repair_object opts rest checksum OSTREE_OBJECT_TYPE_FILE s1)
          as [[repaired s'] l'].
        intros H. simplify_eq.
        destruct (proj1 (IH _ _) eq_refl)
          as [Hall|(before & source & after & s0 & l0 & l2 & -> & Hfail & Hlast & ->)].
        -- left. rewrite Hall. reflexivity.
        -- right. exists (remote :: before), source, after, s0, (l1 ++ l0), l2.
           cbn [all_fail]. rewrite Hround, Hfail, <- app_assoc. auto.
      * intros H. simplify_eq. right. exists [], remote, rest, st, [], l. auto.
    + intros [Hall|(before & source & after & s0 & l0 & l2 & Heq & Hfail & Hlast & ->)].
      * destruct r; try discriminate.
        destruct (all_fail round rest s1) as [[s' l']|] eqn:Hrest; [|discriminate].
        injection Hall as Hs Hl. subst s l.
        assert (repair_object opts rest checksum OSTREE_OBJECT_TYPE_FILE s1
                = (false, s', l')) as -> by (apply IH; auto).
        reflexivity.
      * destruct before as [|first before]; cbn [app all_fail] in Heq, Hfail;
          injection Heq as Hfirst Hrest.
        -- subst source after. injection Hfail as Hs Hl. subst s0 l0.
           rewrite Hround in Hlast. injection Hlast as -> -> ->. reflexivity.
        -- subst first rest. rewrite Hround in Hfail. destruct r; try discriminate.
           destruct (all_fail round before s1) as [[s' l']|] eqn:Hbefore; [|discriminate].
           injection Hfail as Hs Hl. subst s0 l0.
           assert (repair_object opts (before ++ source :: after) checksum
                     OSTREE_OBJECT_TYPE_FILE s1 = (false, s, l' ++ l2)) as ->.
           { apply IH. right. exists before, source, after, s', l', l2. auto. }
           rewrite app_assoc. reflexivity.
Qed.

Lemma round_returns opts type checksum path objtype remote st :
  ((round_of opts type checksum path objtype remote st).1.1 = ReturnTrue
   ↔ ∃ url content_stream content_len w,
       fetch (world st) path remote = Fetched url content_stream content_len w
       ∧ (ostree_repo_write_content w checksum content_stream content_len).1 = None)
  ∧ ((round_of opts type checksum path objtype remote st).1.1 = ReturnFalse
     ↔ ∃ url error w,
         fetch (world st) path remote = NoDownload url error w
         ∧ g_cancellable_is_cancelled w = true).
Proof.
  unfold round_of. destruct (fetch (world st) path remote) eqn:Hfetch; cbn [fst].
  1,2,4,5:
    split; (split; [discriminate|]);
    [intros (? & ? & ? & ? & Heq & _)|intros (? & ? & ? & Heq & _)]; discriminate Heq.
  - destruct (g_cancellable_is_cancelled w) eqn:Hc; cbn [fst]; split.
    + split; [discriminate|]. intros (? & ? & ? & ? & Heq & _). discriminate Heq.
    + split; [eauto|reflexivity].
    + split; [discriminate|]. intros (? & ? & ? & ? & Heq & _). discriminate Heq.
    + split; [discriminate|]. intros (? & ? & ? & Heq & Hw). injection Heq as _ _ <-.
      congruence.
  - destruct (ostree_repo_write_content w checksum content_stream content_len)
      as [[error|] w'] eqn:Hwrite; split.
    + destruct (opt_delete opts); cbn [fst]; (split; [discriminate|]);
        intros (? & ? & ? & ? & Heq & Hnone); injection Heq as _ <- <- <-;
        rewrite Hwrite in Hnone; discriminate Hnone.
    + destruct (opt_delete opts); cbn [fst]; (split; [discriminate|]);
        intros (? & ? & ? & Heq & _); discriminate Heq.
    + cbn [fst]. split; [|reflexivity]. intros _.
      exists url, content_stream, content_len, w. rewrite Hwrite. auto.
    + cbn [fst]. split; [discriminate|]. intros (? & ? & ? & Heq & _). discriminate Heq.
Qed.

(** C7, as the code has it.  For a file object the routine goes through
    the sources in the order given, one round each: a round that writes
    the fetched content into the store ends the routine with success
    and leaves the later sources alone; a round that fails passes to the
    next source; after the last source the routine fails.  The sources
    asked are a prefix of the list, a success ends on the write, a
    failure has exhausted the list unless the run is cancelled, and a
    download that fails while the run is cancelled ends the routine at
    once, before any later source is asked.

    What a round returns is settled by what its source has: [TRUE]
    exactly when the content was fetched, parsed and taken by the store;
    [FALSE] exactly when the download failed in a cancelled run; in
    every other case (no URL, no request, a failed download, parse,
    stream or write) it reports the failure and passes on.  Hence the
    routine succeeds exactly at the first source whose round returns
    [TRUE], every source before it having failed and passed on; and it
    fails exactly when every source has failed and passed on, or at
    the first whose download failed in a cancelled run. *)
Theorem repair_goes_through_sources_in_order opts checksum st :
  let repair remotes := repair_object opts remotes checksum OSTREE_OBJECT_TYPE_FILE in
  let round :=
    repair_from opts (ostree_object_type_to_string OSTREE_OBJECT_TYPE_FILE) checksum
      (ostree_get_relative_object_path checksum OSTREE_OBJECT_TYPE_FILE true)
      OSTREE_OBJECT_TYPE_FILE in
  repair [] st = (false, st, [])
  ∧ (∀ remote rest,
       repair (remote :: rest) st
       = let '(r, s, l) := round remote st in
         match r with
         | ReturnTrue => (true, s, l)
         | ReturnFalse => (false, s, l)
         | Continue => let '(repaired, s', l') := repair rest s in (repaired, s', l ++ l')
         end)
  ∧ (∀ remotes,
       let '(repaired, s, l) := repair remotes st in
       tried l `prefix_of` remotes
       ∧ (repaired = false →
          tried l = remotes ∨ g_cancellable_is_cancelled (world s) = true)
       ∧ (repaired = true → last l = Some (WriteContent checksum)))
  ∧ (∀ remote server_url request stream w1 content w2,
       ostree_repo_remote_get_url (world st) remote = inr server_url →
       let url := server_url +:+ "/"
                  +:+ ostree_get_relative_object_path checksum OSTREE_OBJECT_TYPE_FILE true in
       soup_session_request url = inr request →
       soup_request_send (world st) request = (inr stream, w1) →
       (∃ file_stream file_info xattrs,
          ostree_content_stream_parse true stream
            (soup_request_get_content_length w1 request) false
          = inr (file_stream, file_info, xattrs)
          ∧ ostree_raw_file_to_content_stream file_stream file_info xattrs
            = inr content) →
       ostree_repo_write_content w1 checksum content.1 content.2 = (None, w2) →
       ∀ rest,
         repair (remote :: rest) st
         = (true, mkState w2 (found_corruption st),
            [RemoteGetUrl remote; RequestSend url; WriteContent checksum]))
  ∧ (∀ remote server_url request error w1,
       ostree_repo_remote_get_url (world st) remote = inr server_url →
       let url := server_url +:+ "/"
                  +:+ ostree_get_relative_object_path checksum OSTREE_OBJECT_TYPE_FILE true in
       soup_session_request url = inr request →
       soup_request_send (world st) request = (inl error, w1) →
       g_cancellable_is_cancelled w1 = true →
       ∀ rest,
         repair (remote :: rest) st
         = (false, mkState w1 (found_corruption st),
            [RemoteGetUrl remote; RequestSend url]))
  ∧ (∀ remote s,
       round remote s
       = round_of opts (ostree_object_type_to_string OSTREE_OBJECT_TYPE_FILE) checksum
           (ostree_get_relative_object_path checksum OSTREE_OBJECT_TYPE_FILE true)
           OSTREE_OBJECT_TYPE_FILE remote s)
  ∧ (∀ remote s,
       let path := ostree_get_relative_object_path checksum OSTREE_OBJECT_TYPE_FILE true in
       ((round remote s).1.1 = ReturnTrue
        ↔ ∃ url content_stream content_len w,
            fetch (world s) path remote = Fetched url content_stream content_len w
            ∧ (ostree_repo_write_content w checksum content_stream content_len).1 = None)
       ∧ ((round remote s).1.1 = ReturnFalse
          ↔ ∃ url error w,
              fetch (world s) path remote = NoDownload url error w
              ∧ g_cancellable_is_cancelled w = true))
  ∧ (∀ remotes s l,
       repair remotes st = (true, s, l)
       ↔ ∃ before remote after s0 l0 l1,
           remotes = before ++ remote :: after
           ∧ all_fail round before st = Some (s0, l0)
           ∧ round remote s0 = (ReturnTrue, s, l1)
           ∧ l = l0 ++ l1)
  ∧ (∀ remotes s l,
       repair remotes st = (false, s, l)
       ↔ all_fail round remotes st = Some (s, l)
         ∨ ∃ before remote after s0 l0 l1,
             remotes = before ++ remote :: after
             ∧ all_fail round before st = Some (s0, l0)
             ∧ round remote s0 = (ReturnFalse, s, l1)
             ∧ l = l0 ++ l1).
Proof.
  intros repair round. subst repair round. cbn beta.
  split; [apply repair_file_nil|].
  split; [intros; apply repair_file_cons|].
  split; [intros; apply repair_file_tried|].
  split; [|split; [|split; [|split; [|split]]]].
  - intros remote server_url request stream w1 [content_stream content_len] w2
      Hurl url Hrequest Hsend (file_stream & file_info & xattrs & Hparse & Hraw)
      Hwrite rest.
    rewrite repair_file_cons. unfold repair_from. run.
    rewrite Hurl. run. fold url. rewrite Hrequest. run. rewrite Hsend. run.
    rewrite Hparse, Hraw. run. cbn [fst snd] in Hwrite. rewrite Hwrite. run.
    reflexivity.
  - intros remote server_url request error w1 Hurl url Hrequest Hsend Hcancelled rest.
    rewrite repair_file_cons. unfold repair_from. run.
    rewrite Hurl. run. fold url. rewrite Hrequest. run. rewrite Hsend. run.
    rewrite Hcancelled. run. reflexivity.
  - intros remote s. apply repair_round.
  - intros remote s path. rewrite repair_round. apply round_returns.
  - intros remotes s l. apply repair_file_succeeds.
  - intros remotes s l. apply repair_file_fails.
Qed.

(** *** The census, step by step *)

Lemma census_other opts checksum objtype iter commits n_partial tombstones st :
  objtype ≠ OSTREE_OBJECT_TYPE_COMMIT →
  census opts ((checksum, objtype) :: iter) commits n_partial tombstones st
  = census opts iter commits n_partial tombstones st.
Proof.
  intros H. cbn [census]. rewrite bool_decide_eq_false_2 by exact H. reflexivity.
Qed.

Lemma census_commit opts checksum iter commits n_partial tombstones st :
  census opts ((checksum, OSTREE_OBJECT_TYPE_COMMIT) :: iter) commits n_partial
         tombstones st
  = match ostree_repo_load_commit (world st) checksum with
    | inl error => (GFail (Some error), st, [])
    | inr (commit, commitstate) =>
      match stage opts (world st) checksum commit tombstones with
      | GFail error => (GFail error, st, [])
      | GOk tombstones =>
        if bool_decide (Z.land commitstate OSTREE_REPO_COMMIT_STATE_PARTIAL ≠ 0)
        then census opts iter commits (guint (n_partial + 1)) tombstones st
        else census opts iter ({[ (checksum, OSTREE_OBJECT_TYPE_COMMIT) ]} ∪ commits)
                    n_partial tombstones st
      end
    end.
Proof.
  cbn [census]. rewrite bool_decide_eq_true_2 by reflexivity. unfold stage. run.
  repeat (case_match; simplify_eq; run; try done_run); congruence.
Qed.

Lemma stage_spec opts w checksum commit commitstate tombstones tombstones' :
  ostree_repo_load_commit w checksum = inr (commit, commitstate) →
  stage opts w checksum commit tombstones = GOk tombstones' →
  tombstones'
  = tombstones ++ (if opt_add_tombstones opts
                      && orphan_commit w (checksum, OSTREE_OBJECT_TYPE_COMMIT)
                   then [checksum] else []).
Proof.
  intros Hload Hstage. unfold stage in Hstage. unfold orphan_commit. cbn [fst snd].
  rewrite bool_decide_eq_true_2, Hload by reflexivity.
  repeat (case_match; simplify_eq); cbn [andb]; rewrite ?app_nil_r; reflexivity.
Qed.

Lemma guint_idemp z : guint (guint z) = guint z.
Proof. unfold guint. apply Z.mod_mod. lia. Qed.

Lemma guint_succ z k : guint (guint (z + 1) + k) = guint (z + (1 + k)).
Proof. unfold guint. rewrite Zplus_mod_idemp_l. f_equal. lia. Qed.

(** The census reads the store; it changes and prints nothing. *)
Lemma census_reads opts iter :
  ∀ commits n_partial tombstones st,
    let '(_, s, l) := census opts iter commits n_partial tombstones st in
    s = st ∧ l = [].
Proof.
  induction iter as [|[checksum objtype] iter IH]; intros commits n_partial tombstones st.
  - cbn [census]. run. auto.
  - destruct (decide (objtype = OSTREE_OBJECT_TYPE_COMMIT)) as [->|Hother].
    + rewrite census_commit.
      destruct (ostree_repo_load_commit _ _) as [error|[commit commitstate]]; [auto|].
      destruct (stage _ _ _ _ _); [|auto].
      destruct (bool_decide _); apply IH.
    + rewrite (census_other _ _ _ _ _ _ _ _ Hother). apply IH.
Qed.

Lemma census_spec opts iter :
  ∀ commits0 n0 tombstones0 st commits n_partial tombstones s l,
  census opts iter commits0 n0 tombstones0 st
  = (GOk (commits, n_partial, tombstones), s, l) →
  let w := world st in
  s = st ∧ l = []
  ∧ (∀ o, o ∈ commits ↔ (o ∈ iter ∧ complete_commit w o = true) ∨ o ∈ commits0)
  ∧ (guint n0 = n0 →
     n_partial = guint (n0 + Z.of_nat (length (List.filter (partial_commit w) iter))))
  ∧ tombstones
    = tombstones0
      ++ (if opt_add_tombstones opts
          then (List.filter (orphan_commit w) iter).*1 else []).
Proof.
  induction iter as [|[checksum objtype] iter IH];
    intros commits0 n0 tombstones0 st commits n_partial tombstones s l H w; subst w.
  - cbn [census] in H. unfold ret in H. simplify_eq.
    split; [reflexivity|]. split; [reflexivity|]. split; [|split].
    + intros x. rewrite elem_of_nil. tauto.
    + intros Hn0. cbn. rewrite Z.add_0_r. congruence.
    + destruct (opt_add_tombstones opts); cbn; rewrite app_nil_r; reflexivity.
  - cbn [List.filter].
    destruct (decide (objtype = OSTREE_OBJECT_TYPE_COMMIT)) as [->|Hother].
    + rewrite census_commit in H.
      destruct (ostree_repo_load_commit (world st) checksum)
        as [error|[commit commitstate]] eqn:Hload; [discriminate|].
      destruct (stage opts (world st) checksum commit tombstones0)
        as [tombstones1|error] eqn:Hstage; [|discriminate].
      apply (stage_spec _ _ _ _ _ _ _ Hload) in Hstage.
      assert (commit_state (world st) (checksum, OSTREE_OBJECT_TYPE_COMMIT) = Some commitstate)
        as Hstate.
      { unfold commit_state. cbn [fst snd].
        rewrite bool_decide_eq_true_2 by reflexivity. rewrite Hload.
        reflexivity. }
      assert (tombstones1
              ++ (if opt_add_tombstones opts
                  then (List.filter (orphan_commit (world st)) iter).*1 else [])
              = tombstones0
                ++ (if opt_add_tombstones opts
                    then (if orphan_commit (world st) (checksum, OSTREE_OBJECT_TYPE_COMMIT)
                          then (checksum, OSTREE_OBJECT_TYPE_COMMIT)
                               
                               :: List.filter (orphan_commit (world st)) iter
                          else List.filter (orphan_commit (world st)) iter).*1
                    else [])) as Htombs.
      { subst tombstones1. destruct (opt_add_tombstones opts); cbn [andb].
        - destruct (orphan_commit _ _); cbn; rewrite <- ?app_assoc; reflexivity.
        - rewrite !app_nil_r. reflexivity. }
      unfold partial_commit at 1. rewrite Hstate.
      case_bool_decide as Hpartial; apply IH in H as (-> & -> & Hcommits & Hn & ->);
        (split; [reflexivity|]); (split; [reflexivity|]);
        (split; [|split; [|exact Htombs]]).
      * intros o. rewrite Hcommits, elem_of_cons. split; [tauto|].
        intros [[[->|Ho] Hc]|Ho]; [|tauto..].
        unfold complete_commit in Hc. rewrite Hstate in Hc.
        apply bool_decide_eq_true_1 in Hc. contradiction.
      * intros Hn0. rewrite (Hn (guint_idemp _)). cbn [length].
        rewrite guint_succ, Nat2Z.inj_succ. f_equal. lia.
      * intros o. rewrite Hcommits, elem_of_cons, elem_of_union, elem_of_singleton.
        split; [|tauto]. intros [?|[->|?]]; [tauto| |tauto].
        left. split; [tauto|]. unfold complete_commit. rewrite Hstate.
        apply bool_decide_eq_true_2.
        destruct (decide (Z.land commitstate OSTREE_REPO_COMMIT_STATE_PARTIAL = 0));
          [assumption|contradiction].
      * intros Hn0. exact (Hn Hn0).
    + rewrite (census_other _ _ _ _ _ _ _ _ Hother) in H.
      apply IH in H as (-> & -> & Hcommits & Hn & ->).
      assert (commit_state (world st) (checksum, objtype) = None) as Hstate.
      { unfold commit_state. cbn [fst snd].
        rewrite bool_decide_eq_false_2 by exact Hother. reflexivity. }
      assert (orphan_commit (world st) (checksum, objtype) = false) as Horphan.
      { unfold orphan_commit. cbn [fst snd].
        rewrite bool_decide_eq_false_2 by exact Hother. reflexivity. }
      unfold partial_commit at 1. rewrite Hstate, Horphan.
      split; [reflexivity|]. split; [reflexivity|]. split; [|split].
      * intros o. rewrite Hcommits, elem_of_cons. split; [tauto|].
        intros [[[->|Ho] Hc]|Ho]; [|tauto..].
        unfold complete_commit in Hc. rewrite Hstate in Hc. discriminate.
      * exact Hn.
      * reflexivity.
Qed.

(** *** The calls of the walker *)

Lemma emits_ret {A} P (a : A) : emits P (ret a).
Proof. intros st. constructor. Qed.

Lemma emits_ask {A} P (f : World → A) : emits P (ask f).
Proof. intros st. constructor. Qed.

Lemma emits_set P b : emits P (set_found_corruption b).
Proof. intros st. constructor. Qed.

Lemma emits_get P : emits P get_found_corruption.
Proof. intros st. constructor. Qed.

Lemma emits_emit (P : Event → Prop) e : P e → emits P (emit e).
Proof. intros H st. repeat constructor. exact H. Qed.

Lemma emits_call {A} (P : Event → Prop) e (f : World → A * World) :
  P e → emits P (call e f).
Proof.
  intros H st. unfold call. destruct (f (world st)). repeat constructor. exact H.
Qed.

Lemma emits_bind {A B} P (m : M A) (f : A → M B) :
  emits P m → (∀ a, emits P (f a)) → emits P (m ≫= f).
Proof.
  intros Hm Hf st. unfold mbind, M_bind, bind.
  specialize (Hm st). destruct (m st) as [[a s1] l1].
  specialize (Hf a s1). destruct (f a s1) as [[b s2] l2].
  apply Forall_app. split; assumption.
Qed.

Ltac no_walk :=
  repeat lazymatch goal with
  | |- emits _ (mbind _ _) => apply emits_bind; [|intros ?]
  | |- emits _ (ret _) => apply emits_ret
  | |- emits _ (ask _) => apply emits_ask
  | |- emits _ (set_found_corruption _) => apply emits_set
  | |- emits _ get_found_corruption => apply emits_get
  | |- emits _ (emit _) => apply emits_emit; exact I
  | |- emits _ (g_print _) => apply emits_emit; exact I
  | |- emits _ (g_printerr _) => apply emits_emit; exact I
  | |- emits _ (call _ _) => apply emits_call; exact I
  | |- emits _ (delete_object _ _) => apply emits_call; exact I
  | |- emits _ (remote_get_url _) => unfold remote_get_url
  | |- emits _ (when _ _) => unfold when
  | |- emits _ (match ?x with _ => _ end) => destruct x
  end.

Lemma repair_object_no_walk opts remotes checksum objtype :
  emits not_a_walk (repair_object opts remotes checksum objtype).
Proof.
  unfold repair_object. destruct (bool_decide _); [no_walk|].
  induction remotes as [|remote remotes IH]; cbn [repair_object_loop]; [no_walk|].
  apply emits_bind; [unfold repair_from; no_walk|].
  intros []; [no_walk| exact IH |no_walk].
Qed.

Lemma load_and_fsck_no_walk opts checksum objtype rr :
  emits not_a_walk (load_and_fsck_one_object opts checksum objtype rr).
Proof.
  assert (emits not_a_walk (repair_or_flag opts rr checksum objtype)) as Hrepair.
  { unfold repair_or_flag. destruct rr; [|no_walk].
    apply emits_bind; [apply repair_object_no_walk|]. intros ?. no_walk. }
  unfold load_and_fsck_one_object.
  apply emits_bind; [no_walk|]. intros [[|file_info xattrs input]|error]; [| |no_walk].
  - apply emits_bind; [exact Hrepair|]. intros ?. no_walk.
  - destruct (ostree_checksum_file_from_input _ _ _ _); [no_walk|].
    destruct (bool_decide _); [|no_walk]. destruct (_ || _); [|no_walk].
    apply emits_bind; [no_walk|]. intros _.
    apply emits_bind; [no_walk|]. intros _.
    apply emits_bind; [exact Hrepair|]. intros ?. no_walk.
Qed.

Lemma fsck_objects_no_walk opts rr count mod_ iter i :
  emits not_a_walk (fsck_objects opts rr count mod_ iter i).
Proof.
  revert i. induction iter as [|[checksum objtype] iter IH]; intros i;
    cbn [fsck_objects]; [no_walk|].
  apply emits_bind; [apply load_and_fsck_no_walk|].
  intros [u|error]; [|no_walk].
  apply emits_bind; [no_walk|]. intros _. apply IH.
Qed.

Lemma after_verification_no_walk v : emits not_a_walk (after_verification v).
Proof.
  assert (∀ tombstones, emits not_a_walk (add_tombstones tombstones)) as Hadd.
  { induction tombstones as [|checksum tombstones IH]; cbn [add_tombstones]; [no_walk|].
    apply emits_bind; [no_walk|]. intros _.
    apply emits_bind; [no_walk|]. intros [error|]; [no_walk|exact IH]. }
  unfold after_verification, apply_tombstones.
  apply emits_bind; [|intros ?; no_walk].
  destruct (opt_add_tombstones _); [|no_walk].
  apply emits_bind; [no_walk|]. intros [error|]; [no_walk|apply Hadd].
Qed.

Lemma prepare_no_walk opts : emits not_a_walk (prepare_repair_remotes opts).
Proof.
  assert (∀ iter, emits not_a_walk (check_remote_urls iter)) as Hcheck.
  { induction iter as [|remote iter IH]; cbn [check_remote_urls]; [no_walk|].
    apply emits_bind; [no_walk|]. intros [error|url]; [no_walk|exact IH]. }
  unfold prepare_repair_remotes. destruct (opt_repair_remotes opts) as [[|r l]|]; [no_walk| |no_walk].
  destruct (strv_contains _ _); [no_walk|].
  apply emits_bind; [apply Hcheck|]. intros ?. no_walk.
Qed.

Lemma prepare_keeps_state opts st : (prepare_repair_remotes opts st).1.2 = st.
Proof.
  assert (∀ iter st, (check_remote_urls iter st).1.2 = st) as Hcheck.
  { induction iter as [|remote iter IH]; intros s; cbn [check_remote_urls]; [reflexivity|].
    run. destruct (ostree_repo_remote_get_url _ _); run; [reflexivity|].
    specialize (IH s). destruct (check_remote_urls iter s) as [[r s'] l]. exact IH. }
  unfold prepare_repair_remotes.
  destruct (opt_repair_remotes opts) as [[|r l]|]; [reflexivity| |reflexivity].
  destruct (strv_contains _ _).
  - destruct (_ >? _); reflexivity.
  - run. specialize (Hcheck (r :: l) st).
    destruct (check_remote_urls (r :: l) st) as [[[]] l']; exact Hcheck.
Qed.

(** The walker is called on the members of the table it is given, and
    reads only. *)
Lemma traverse_commits_spec iter :
  ∀ reachable st,
    let '(r, s, l) := traverse_commits iter reachable st in
    s = st ∧ Forall (λ e, ∃ c, e = TraverseCommit c ∧ c ∈ iter.*1) l.
Proof.
  induction iter as [|[checksum objtype] iter IH]; intros reachable st;
    cbn [traverse_commits]; run.
  - split; [reflexivity|constructor].
  - destruct (ostree_repo_traverse_commit_union _ _ _ _) as [error|reachable'].
    + split; [reflexivity|]. repeat constructor. exists checksum.
      split; [reflexivity|]. cbn. apply elem_of_cons. auto.
    + specialize (IH reachable' st).
      destruct (traverse_commits iter reachable' st) as [[r s] l].
      destruct IH as [-> IH]. split; [reflexivity|]. constructor.
      * exists checksum. split; [reflexivity|]. cbn. apply elem_of_cons. auto.
      * eapply Forall_impl; [exact IH|]. cbn. intros e (c & -> & Hc).
        exists c. split; [reflexivity|]. apply elem_of_cons. auto.
Qed.

Ltac run_in H :=
  repeat (progress (
    unfold mbind, mret, M_bind, M_ret, bind, ret, emit, ask, call, when,
      g_print, g_printerr, set_found_corruption, get_found_corruption,
      remote_get_url, delete_object in H;
    cbn beta iota zeta delta [app negb orb andb fst snd world found_corruption] in H)).

Lemma not_a_walk_root w l : Forall not_a_walk l → Forall (root_of w) l.
Proof.
  intros Hl. eapply Forall_impl; [exact Hl|].
  intros [] H c Hc; try discriminate. destruct H.
Qed.

Lemma until_verification_spec argv st0 r s1 l1 :
  until_verification argv st0 = (r, s1, l1) →
  s1 = mkState (world st0) false
  ∧ Forall (root_of (world st0)) l1
  ∧ ∀ v, r = GOk v →
      ∃ objects commits,
        ostree_option_context_parse argv (world st0) = inr (v_opts v)
        ∧ (prepare_repair_remotes (v_opts v) s1).1.1 = GOk (v_repair_remotes v)
        ∧ ostree_repo_list_objects (world st0) = inr objects
        ∧ census (v_opts v) (elements objects) ∅ 0 [] s1
          = (GOk (commits, v_n_partial v, v_tombstones v), s1, [])
        ∧ (traverse_commits (elements commits) ∅ s1).1.1 = GOk (v_reachable v).
Proof.
  intros H. unfold until_verification in H. run_in H.
  destruct (ostree_option_context_parse argv (world st0)) as [error|opts] eqn:Hparse;
    run_in H.
  { simplify_eq. split; [reflexivity|]. split; [constructor|]. discriminate. }
  pose proof (prepare_keeps_state opts (mkState (world st0) false)) as Hkeep.
  pose proof (prepare_no_walk opts (mkState (world st0) false)) as Hprepare.
  destruct (prepare_repair_remotes opts _) as [[[repair_remotes|error] sp] lp] eqn:Hprep;
    cbn [fst snd] in Hkeep, Hprepare; subst sp; run_in H.
  2:{ simplify_eq. rewrite app_nil_r. split; [reflexivity|].
      split; [apply not_a_walk_root, Hprepare|]. discriminate. }
  apply (not_a_walk_root (world st0)) in Hprepare.
  assert (∀ line, root_of (world st0) (Stdout line)) as Hprint
    by (intros line c Hc; discriminate).
  assert (∃ quiet, quiet = negb (opt_quiet opts)) as [quiet Hquiet] by eauto.
  rewrite <- Hquiet in H.
  destruct (ostree_repo_list_objects (world st0)) as [error|objects] eqn:Hlist.
  { destruct quiet; run_in H; rewrite Hlist in H; run_in H; simplify_eq;
      (split; [reflexivity|]); (split; [|discriminate]);
      rewrite ?app_nil_r; try apply Forall_app; auto. }
  pose proof (census_spec opts (elements objects) ∅ 0 [] (mkState (world st0) false)) as Hcensus.
  pose proof (census_reads opts (elements objects) ∅ 0 [] (mkState (world st0) false)) as Hreads.
  destruct (census opts (elements objects) ∅ 0 [] (mkState (world st0) false))
    as [[[[[commits n_partial] tombstones]|error] sc] lc] eqn:Hcounted.
  2:{ destruct quiet; run_in H; rewrite Hlist in H; run_in H;
        rewrite Hcounted in H; cbn in Hreads; destruct Hreads as [-> ->];
        run_in H; simplify_eq;
        (split; [reflexivity|]); (split; [|discriminate]);
        rewrite ?app_nil_r; repeat first [apply Forall_app; split | apply Forall_cons; split]; auto. }
  destruct (Hcensus _ _ _ _ _ eq_refl) as (-> & -> & Hcommits & _).
  pose proof (traverse_commits_spec (elements commits) ∅ (mkState (world st0) false)) as Hwalk.
  destruct (traverse_commits (elements commits) ∅ (mkState (world st0) false))
    as [[walked sw] lw] eqn:Hwalked.
  destruct Hwalk as [-> Hwalk].
  assert (Forall (root_of (world st0)) lw) as Hroots.
  { eapply Forall_impl; [exact Hwalk|]. cbn. intros e (c & -> & Hc) c' Hc'.
    simplify_eq. apply list_elem_of_fmap in Hc as ([c objtype] & -> & Hc).
    apply elem_of_elements, Hcommits in Hc as [[_ Hc]|Hc]; [|set_solver].
    cbn. pose proof Hc as Hkind. unfold complete_commit, commit_state in Hkind.
    cbn [fst snd] in Hkind. case_bool_decide; [|discriminate]. subst objtype.
    exact Hc. }
  destruct quiet; run_in H; rewrite Hlist in H; run_in H; 
    rewrite Hcounted in H; run_in H;
    rewrite Hwalked in H; run_in H; destruct walked as [reachable|error];
    simplify_eq; (split; [reflexivity|]); rewrite ?app_nil_r.
  all: split; [repeat first [apply Forall_app; split | apply Forall_cons; split]; auto|].
  all: intros v Hv; simplify_eq; cbn [v_opts v_repair_remotes v_n_partial
                                       v_tombstones v_reachable].
  all: exists objects, commits; rewrite Hprep, Hwalked; auto.
Qed.

(** Only roots are handed to the walker, in every run. *)
Lemma command_walks_roots argv st :
  Forall (root_of (world st)) (ostree_builtin_fsck argv st).2.
Proof.
  rewrite fsck_phases.
  destruct (until_verification argv st) as [[[v|error] s1] l1] eqn:Huntil;
    destruct (until_verification_spec _ _ _ _ _ Huntil) as (_ & Hroots & _);
    [|exact Hroots].
  pose proof (fsck_objects_no_walk (v_opts v) (v_repair_remotes v)
                (Z.of_nat (size (v_reachable v)))
                (Z.of_nat (size (v_reachable v)) `div` 10)
                (elements (v_reachable v)) 0 s1) as Hverify.
  unfold verification.
  destruct (fsck_objects _ _ _ _ _ _ _) as [[[[]|error] s2] l2]; cbn [snd] in *.
  - pose proof (after_verification_no_walk v s2) as Hafter.
    destruct (after_verification v s2) as [[r s3] l3]. cbn [snd] in *.
    repeat (apply Forall_app; split); auto using not_a_walk_root.
  - apply Forall_app; split; auto using not_a_walk_root.
Qed.

Lemma traverse_commits_commits iter :
  walker_adds_only_root →
  ∀ reachable st reachable',
    (traverse_commits iter reachable st).1.1 = GOk reachable' →
    ∀ c, (c, OSTREE_OBJECT_TYPE_COMMIT) ∈ reachable' →
         c ∈ iter.*1 ∨ (c, OSTREE_OBJECT_TYPE_COMMIT) ∈ reachable.
Proof.
  intros Hwalker. induction iter as [|[checksum objtype] iter IH];
    intros reachable st reachable' H c Hc; cbn [traverse_commits] in H; run_in H.
  - simplify_eq. auto.
  - destruct (ostree_repo_traverse_commit_union _ _ _ _) as [error|reachable1] eqn:Hstep;
      run_in H; [discriminate|].
    destruct (traverse_commits iter reachable1 st) as [[r s] l] eqn:Hrest.
    cbn [fst] in H. subst r.
    assert ((traverse_commits iter reachable1 st).1.1 = GOk reachable') as Hrest'
      by (rewrite Hrest; reflexivity).
    destruct (IH _ _ _ Hrest' c Hc) as [Hin|Hin].
    + left. cbn. apply elem_of_cons. auto.
    + destruct (Hwalker _ _ _ _ Hstep c Hin) as [->|Hold]; [|auto].
      left. cbn. apply elem_of_cons. auto.
Qed.

(** *** The census and the tombstones *)

(** C5.  A commit the store marks partial: the census step for it
    leaves the table of roots as it is and adds one to [n_partial]
    (staging a tombstone is the only other thing that step can do, when
    tombstoning is on); it is no member of the roots the census returns,
    which are counted apart from the partial commits; in no run is the
    walker called on it; and, the walker adding no commit but its root,
    it is not in the reachable set that is verified. *)
Theorem partial_commits_are_not_roots st checksum commit commitstate :
  ostree_repo_load_commit (world st) checksum = inr (commit, commitstate) →
  Z.land commitstate OSTREE_REPO_COMMIT_STATE_PARTIAL ≠ 0 →
  (∀ opts iter commits n_partial tombstones,
     census opts ((checksum, OSTREE_OBJECT_TYPE_COMMIT) :: iter) commits n_partial
            tombstones st
     = match stage opts (world st) checksum commit tombstones with
       | GOk tombstones => census opts iter commits (guint (n_partial + 1)) tombstones st
       | GFail error => (GFail error, st, [])
       end)
  ∧ (∀ opts iter commits n_partial tombstones s l,
       census opts iter ∅ 0 [] st = (GOk (commits, n_partial, tombstones), s, l) →
       ((checksum, OSTREE_OBJECT_TYPE_COMMIT) ∉ commits)
       ∧ n_partial
         = guint (Z.of_nat (length (List.filter (partial_commit (world st)) iter))))
  ∧ (∀ argv, ¬ (TraverseCommit checksum ∈ (ostree_builtin_fsck argv st).2))
  ∧ (walker_adds_only_root →
     ∀ argv v s1 l1,
       until_verification argv st = (GOk v, s1, l1) →
       (checksum, OSTREE_OBJECT_TYPE_COMMIT) ∉ v_reachable v).
Proof.
  intros Hload Hpartial.
  assert (complete_commit (world st) (checksum, OSTREE_OBJECT_TYPE_COMMIT) = false)
    as Hcomplete.
  { unfold complete_commit, commit_state. cbn [fst snd].
    rewrite bool_decide_eq_true_2, Hload by reflexivity.
    apply bool_decide_eq_false_2. exact Hpartial. }
  split; [|split; [|split]].
  - intros opts iter commits n_partial tombstones.
    rewrite census_commit, Hload. destruct (stage _ _ _ _ _); [|reflexivity].
    rewrite bool_decide_eq_true_2 by exact Hpartial. reflexivity.
  - intros opts iter commits n_partial tombstones s l Hcensus.
    apply census_spec in Hcensus as (_ & _ & Hcommits & Hn & _). split.
    + rewrite Hcommits. intros [[_ Hc]|Hc]; [congruence|set_solver].
    + rewrite Hn by reflexivity. reflexivity.
  - intros argv Hin.
    pose proof (command_walks_roots argv st) as Hroots.
    rewrite Forall_forall in Hroots. specialize (Hroots _ Hin _ eq_refl). congruence.
  - intros Hwalker argv v s1 l1 Huntil Hin.
    apply until_verification_spec in Huntil
      as (-> & _ & Hv). destruct (Hv v eq_refl)
      as (objects & commits & _ & _ & _ & Hcensus & Hwalk).
    apply census_spec in Hcensus as (_ & _ & Hcommits & _). cbn [world] in Hcommits.
    destruct (traverse_commits_commits _ Hwalker _ _ _ Hwalk _ Hin) as [Hroot|Hempty];
      [|set_solver].
    apply list_elem_of_fmap in Hroot as ([c objtype] & Hc & Hroot). cbn in Hc. subst c.
    apply elem_of_elements, Hcommits in Hroot as [[_ Hroot]|Hroot]; [|set_solver].
    pose proof Hroot as Hkind. unfold complete_commit, commit_state in Hkind.
    cbn [fst snd] in Hkind. case_bool_decide; [|discriminate]. subst objtype.
    congruence.
Qed.

Lemma add_tombstones_cons checksum rest s :
  add_tombstones (checksum :: rest) s
  = let '(d, w) := ostree_repo_delete_object (world s) OSTREE_OBJECT_TYPE_COMMIT checksum in
    match d with
    | Some error =>
      (GFail (Some error), mkState w (found_corruption s), tombstone_events [checksum])
    | None =>
      let '(r, s', l) := add_tombstones rest (mkState w (found_corruption s)) in
      (r, s', tombstone_events [checksum] ++ l)
    end.
Proof.
  cbn [add_tombstones]. run.
  destruct (ostree_repo_delete_object _ _ _) as [[error|] w]; run; [reflexivity|].
  destruct (add_tombstones rest _) as [[r s'] l]. reflexivity.
Qed.

Lemma add_tombstones_ok tombstones :
  ∀ s u s' l, add_tombstones tombstones s = (GOk u, s', l) →
              l = tombstone_events tombstones.
Proof.
  induction tombstones as [|checksum rest IH]; intros s u s' l H.
  - cbn [add_tombstones] in H. unfold ret in H. simplify_eq. reflexivity.
  - rewrite add_tombstones_cons in H.
    destruct (ostree_repo_delete_object _ _ _) as [[error|] w]; [discriminate|].
    destruct (add_tombstones rest _) as [[r s1] l1] eqn:Hrest. simplify_eq.
    rewrite (IH _ _ _ _ Hrest). reflexivity.
Qed.

Lemma orphans_nodup (w : World) (objects : gset ObjectName) :
  NoDup (List.filter (orphan_commit w) (elements objects)).*1.
Proof.
  apply NoDup_fmap_2_strong.
  - intros [c1 t1] [c2 t2] H1 H2 Heq. cbn in Heq. subst c2.
    apply list_elem_of_In, filter_In in H1 as [_ H1].
    apply list_elem_of_In, filter_In in H2 as [_ H2].
    unfold orphan_commit in H1, H2. cbn [fst snd] in H1, H2.
    repeat case_bool_decide; try discriminate. congruence.
  - apply NoDup_ListNoDup, List.NoDup_filter, NoDup_ListNoDup, NoDup_elements.
Qed.

(** C6.  With [--add-tombstones], a run that gets to verification has
    staged the commits of the listing whose parent is set and not found,
    each once and no other.  The apply phase does nothing when none is
    staged; otherwise it first enables tombstone commits, an error there
    being fatal, then prints a line for and deletes each staged commit
    in turn, the first deletion error being fatal.  Neither the census
    nor the apply phase touches the corruption flag: when verification
    leaves it down and the apply phase succeeds, the command succeeds. *)
Theorem tombstones_replace_orphans argv st0 v s1 l1 :
  until_verification argv st0 = (GOk v, s1, l1) →
  opt_add_tombstones (v_opts v) = true →
  let tombstones := v_tombstones v in
  let apply := apply_tombstones (v_opts v) (v_n_partial v) tombstones in
  (∃ objects,
     ostree_repo_list_objects (world st0) = inr objects
     ∧ tombstones = (List.filter (orphan_commit (world st0)) (elements objects)).*1
     ∧ NoDup tombstones
     ∧ ∀ c, c ∈ tombstones
            ↔ (c, OSTREE_OBJECT_TYPE_COMMIT) ∈ objects
              ∧ orphan_commit (world st0) (c, OSTREE_OBJECT_TYPE_COMMIT) = true)
  ∧ found_corruption s1 = false
  ∧ (∀ s, tombstones = [] → apply s = (GOk tt, s, []))
  ∧ (∀ s error w,
       tombstones ≠ [] →
       ot_enable_tombstone_commits (world s) = (Some error, w) →
       apply s = (GFail (Some error), mkState w (found_corruption s), [EnableTombstones]))
  ∧ (∀ s w,
       tombstones ≠ [] →
       ot_enable_tombstone_commits (world s) = (None, w) →
       apply s = let '(r, s', l) := add_tombstones tombstones
                                      (mkState w (found_corruption s)) in
                 (r, s', EnableTombstones :: l))
  ∧ (∀ checksum rest s,
       add_tombstones (checksum :: rest) s
       = let '(d, w) :=
           ostree_repo_delete_object (world s) OSTREE_OBJECT_TYPE_COMMIT checksum in
         match d with
         | Some error =>
           (GFail (Some error), mkState w (found_corruption s),
            tombstone_events [checksum])
         | None =>
           let '(r, s', l) := add_tombstones rest (mkState w (found_corruption s)) in
           (r, s', tombstone_events [checksum] ++ l)
         end)
  ∧ (∀ s u s' l,
       apply s = (GOk u, s', l) →
       found_corruption s' = found_corruption s
       ∧ l = (if bool_decide (tombstones = []) then [] else [EnableTombstones])
             ++ tombstone_events tombstones)
  ∧ (∀ st l s3 l3,
       verifying argv st0 v (elements (v_reachable v)) [] st l →
       found_corruption st = false →
       apply st = (GOk tt, s3, l3) →
       ostree_builtin_fsck argv st0 = (GOk tt, s3, l ++ l3)).
Proof.
  intros Huntil Hopt tombstones apply. subst tombstones apply.
  destruct (until_verification_spec _ _ _ _ _ Huntil) as (-> & _ & Hv).
  destruct (Hv v eq_refl) as (objects & commits & _ & _ & Hlist & Hcensus & _).
  apply census_spec in Hcensus as (_ & _ & _ & _ & Htombs).
  rewrite Hopt in Htombs. cbn [app world] in Htombs.
  assert (∀ s w, v_tombstones v ≠ [] →
            ∀ r, ot_enable_tombstone_commits (world s) = (r, w) →
            apply_tombstones (v_opts v) (v_n_partial v) (v_tombstones v) s
            = match r with
              | Some error =>
                (GFail (Some error), mkState w (found_corruption s), [EnableTombstones])
              | None =>
                let '(r, s', l) := add_tombstones (v_tombstones v)
                                     (mkState w (found_corruption s)) in
                (r, s', EnableTombstones :: l)
              end) as Happly.
  { intros s w Hne r Henable. unfold apply_tombstones. rewrite Hopt.
    destruct (v_tombstones v) as [|c rest] eqn:Hv'; [contradiction|].
    cbn [length]. rewrite Nat2Z.inj_succ.
    rewrite (proj2 (Z.eqb_neq _ 0)) by lia. run. rewrite Henable.
    destruct r as [error|]; run; [reflexivity|].
    destruct (add_tombstones (c :: rest) _) as [[r s'] l]. reflexivity. }
  assert (∀ s, v_tombstones v = [] →
            apply_tombstones (v_opts v) (v_n_partial v) (v_tombstones v) s
            = (GOk tt, s, [])) as Hnone.
  { intros s Hnil. unfold apply_tombstones. rewrite Hopt, Hnil. reflexivity. }
  repeat split.
  - exists objects. split; [exact Hlist|]. split; [exact Htombs|]. split.
    + rewrite Htombs. apply orphans_nodup.
    + intros c. rewrite Htombs, list_elem_of_fmap. split.
      * intros ([c' objtype] & -> & Hin). cbn [fst].
        apply list_elem_of_In, filter_In in Hin as [Hin Horphan].
        pose proof Horphan as Hkind. unfold orphan_commit in Hkind.
        cbn [fst snd] in Hkind. case_bool_decide; [|discriminate]. subst objtype.
        split; [|exact Horphan]. apply elem_of_elements, list_elem_of_In, Hin.
      * intros [Hin Horphan]. exists (c, OSTREE_OBJECT_TYPE_COMMIT).
        split; [reflexivity|]. apply list_elem_of_In, filter_In.
        split; [|exact Horphan]. apply list_elem_of_In, elem_of_elements, Hin.
  - exact Hnone.
  - intros s error w Hne Henable. exact (Happly s w Hne _ Henable).
  - intros s w Hne Henable. exact (Happly s w Hne _ Henable).
  - intros checksum rest s. apply add_tombstones_cons.
  - pose proof (apply_tombstones_keeps_flag (v_opts v) (v_n_partial v)
                  (v_tombstones v) s) as Hkeep.
    rewrite H in Hkeep. exact Hkeep.
  - case_bool_decide as Hnil.
    + rewrite (Hnone s Hnil) in H. simplify_eq. rewrite Hnil. reflexivity.
    + destruct (ot_enable_tombstone_commits (world s)) as [r w] eqn:Henable.
      rewrite (Happly s w Hnil _ Henable) in H. destruct r as [error|]; [discriminate|].
      destruct (add_tombstones _ _) as [[r s2] l2] eqn:Hadd. simplify_eq.
      rewrite (add_tombstones_ok _ _ _ _ _ Hadd). reflexivity.
  - intros st l s3 l3 Hrun Hflag Happlied.
    rewrite (command_from _ _ _ _ _ _ _ Hrun). unfold verification.
    cbn [fsck_objects]. run.
    rewrite (after_verification_clean _ _ _ _ _ Hflag Happlied). done_run.
Qed.

(** *** The repair sources *)

Lemma strv_contains_spec haystack needle :
  strv_contains haystack needle = true ↔ needle ∈ haystack.
Proof.
  induction haystack as [|s haystack IH]; cbn [strv_contains].
  - rewrite elem_of_nil. split; [discriminate|tauto].
  - rewrite elem_of_cons. case_bool_decide as Hs.
    + subst s. tauto.
    + rewrite IH. split; [tauto|]. intros [->|?]; [contradiction|assumption].
Qed.

(** C8.  When ["-"] is among the values of [--repair-from-remote]: if it
    is the only value, the repair sources are the remotes the store
    lists; if there is any other value, preparing the sources fails,
    nothing having been asked or printed, and the command fails with
    that error before it enumerates or verifies anything. *)
Theorem dash_stands_for_all_remotes opts remotes st :
  opt_repair_remotes opts = Some remotes →
  "-" ∈ remotes →
  (remotes = ["-"] →
   prepare_repair_remotes opts st = (GOk (ostree_repo_remote_list (world st)), st, []))
  ∧ (remotes ≠ ["-"] →
     prepare_repair_remotes opts st = (GFail (Some dash_error), st, [])
     ∧ ∀ argv st0,
         ostree_option_context_parse argv (world st0) = inr opts →
         ostree_builtin_fsck argv st0
         = (GFail (Some dash_error), mkState (world st0) false, [])).
Proof.
  intros Hopt Hdash. pose proof Hdash as Hcontains.
  apply strv_contains_spec in Hcontains.
  assert (remotes ≠ ["-"] → ∀ s,
            prepare_repair_remotes opts s = (GFail (Some dash_error), s, [])) as Hfail.
  { intros Hother s. unfold prepare_repair_remotes. rewrite Hopt.
    destruct remotes as [|r1 [|r2 rest]].
    - apply elem_of_nil in Hdash. contradiction.
    - apply list_elem_of_singleton in Hdash. subst r1. contradiction.
    - rewrite Hcontains. cbn [length]. rewrite !Nat2Z.inj_succ.
      rewrite Z.gtb_ltb, (proj2 (Z.ltb_lt _ _)) by lia. reflexivity. }
  split.
  - intros ->. unfold prepare_repair_remotes. rewrite Hopt. reflexivity.
  - intros Hother. split; [apply Hfail, Hother|].
    intros argv st0 Hparse. unfold ostree_builtin_fsck. run.
    rewrite Hparse. run. rewrite (Hfail Hother). reflexivity.
Qed.

(** *** The progress lines *)

Lemma repair_object_quiet quiet opts remotes checksum objtype st :
  repair_object (with_quiet quiet opts) remotes checksum objtype st
  = repair_object opts remotes checksum objtype st.
Proof.
  unfold repair_object. destruct (bool_decide _); [reflexivity|].
  revert st. induction remotes as [|remote remotes IH]; intros st; [reflexivity|].
  cbn [repair_object_loop]. run.
  change (repair_from (with_quiet quiet opts)) with (repair_from opts).
  destruct (repair_from _ _ _ _ _ _ _) as [[[] s] l]; run; try reflexivity.
  rewrite IH. reflexivity.
Qed.

Lemma load_and_fsck_quiet quiet opts checksum objtype rr st :
  load_and_fsck_one_object (with_quiet quiet opts) checksum objtype rr st
  = load_and_fsck_one_object opts checksum objtype rr st.
Proof.
  assert (∀ s, repair_or_flag (with_quiet quiet opts) rr checksum objtype s
               = repair_or_flag opts rr checksum objtype s) as Hrepair.
  { intros s. destruct rr as [remotes|]; [|reflexivity].
    rewrite !repair_or_flag_some, repair_object_quiet. reflexivity. }
  rewrite !fsck_policy. unfold policy. cbn [with_quiet opt_delete].
  destruct (outcome _ _ _); try reflexivity.
  - rewrite Hrepair. reflexivity.
  - destruct (_ || _); [|reflexivity].
    destruct (ostree_repo_delete_object _ _ _) as [d w]. rewrite Hrepair. reflexivity.
Qed.

(** The verification loop does the same, progress lines included,
    whether [--quiet] is set or not. *)
Lemma progress_ignores_quiet quiet opts rr count mod_ iter i st :
  fsck_objects (with_quiet quiet opts) rr count mod_ iter i st
  = fsck_objects opts rr count mod_ iter i st.
Proof.
  revert i st. induction iter as [|[checksum objtype] iter IH]; intros i st;
    [reflexivity|].
  cbn [fsck_objects]. run. rewrite load_and_fsck_quiet.
  destruct (load_and_fsck_one_object _ _ _ _ _) as [[[u|error] s] l]; run;
    [|reflexivity].
  destruct ((mod_ =? 0) || (i `mod` mod_ =? 0)); run; rewrite IH; reflexivity.
Qed.

(** * Further properties of the checker *)

(** *** Runs that only check *)

Lemma read_only_ret {A} (a : A) : read_only (ret a).
Proof. intros st. split; [reflexivity|constructor]. Qed.

Lemma read_only_ask {A} (f : World → A) : read_only (ask f).
Proof. intros st. split; [reflexivity|constructor]. Qed.

Lemma read_only_set b : read_only (set_found_corruption b).
Proof. intros st. split; [reflexivity|constructor]. Qed.

Lemma read_only_get : read_only get_found_corruption.
Proof. intros st. split; [reflexivity|constructor]. Qed.

Lemma read_only_emit e : harmless e → read_only (emit e).
Proof. intros H st. split; [reflexivity|]. repeat constructor. exact H. Qed.

Lemma read_only_bind {A B} (m : M A) (f : A → M B) :
  read_only m → (∀ a, read_only (f a)) → read_only (m ≫= f).
Proof.
  intros Hm Hf st. unfold mbind, M_bind, bind.
  specialize (Hm st). destruct (m st) as [[a s1] l1].
  specialize (Hf a s1). destruct (f a s1) as [[b s2] l2].
  cbn [fst snd] in *. destruct Hm as [Hm1 Hm2], Hf as [Hf1 Hf2].
  split; [congruence|]. apply Forall_app. split; assumption.
Qed.

Ltac reads :=
  repeat lazymatch goal with
  | |- read_only (mbind _ _) => apply read_only_bind; [|intros ?]
  | |- read_only (ret _) => apply read_only_ret
  | |- read_only (ask _) => apply read_only_ask
  | |- read_only (set_found_corruption _) => apply read_only_set
  | |- read_only get_found_corruption => apply read_only_get
  | |- read_only (emit _) => apply read_only_emit; exact I
  | |- read_only (g_print _) => apply read_only_emit; exact I
  | |- read_only (g_printerr _) => apply read_only_emit; exact I
  | |- read_only (when _ _) => unfold when
  | |- read_only (match ?x with _ => _ end) => destruct x
  end.

Lemma load_and_fsck_read_only opts checksum objtype :
  opt_delete opts = false →
  read_only (load_and_fsck_one_object opts checksum objtype None).
Proof.
  intros Hdelete st. rewrite fsck_policy. unfold policy. rewrite Hdelete.
  destruct (outcome _ _ _); cbn; repeat constructor.
Qed.

Lemma fsck_objects_read_only opts count mod_ iter :
  opt_delete opts = false →
  ∀ i, read_only (fsck_objects opts None count mod_ iter i).
Proof.
  intros Hdelete. induction iter as [|[checksum objtype] iter IH]; intros i;
    cbn [fsck_objects]; [reads|].
  apply read_only_bind; [apply load_and_fsck_read_only, Hdelete|].
  intros [u|error]; [|reads].
  apply read_only_bind; [reads|]. intros _. apply IH.
Qed.

Lemma traverse_commits_read_only iter :
  ∀ reachable, read_only (traverse_commits iter reachable).
Proof.
  induction iter as [|[checksum objtype] iter IH]; intros reachable;
    cbn [traverse_commits]; [reads|].
  apply read_only_bind; [reads|]. intros _.
  apply read_only_bind; [reads|]. intros [error|reachable']; [reads|apply IH].
Qed.

Lemma census_read_only opts iter commits n_partial tombstones :
  read_only (census opts iter commits n_partial tombstones).
Proof.
  intros st. pose proof (census_reads opts iter commits n_partial tombstones st) as H.
  destruct (census _ _ _ _ _ _) as [[r s] l]. destruct H as [-> ->].
  split; [reflexivity|constructor].
Qed.

Lemma read_only_step {A B} (m : M A) (f : A → M B) st w :
  world (m st).1.2 = w →
  Forall harmless (m st).2 →
  world (f (m st).1.1 (m st).1.2).1.2 = w
  ∧ Forall harmless (f (m st).1.1 (m st).1.2).2 →
  world ((m ≫= f) st).1.2 = w ∧ Forall harmless ((m ≫= f) st).2.
Proof.
  unfold mbind, M_bind, bind. destruct (m st) as [[a s1] l1]. cbn [fst snd].
  destruct (f a s1) as [[b s2] l2]. cbn [fst snd]. intros H1 Hl1 [H2 Hl2].
  split; [assumption|]. apply Forall_app. split; assumption.
Qed.

Lemma apply_tombstones_read_only opts n_partial tombstones :
  opt_add_tombstones opts = false →
  read_only (apply_tombstones opts n_partial tombstones).
Proof. intros H. unfold apply_tombstones. rewrite H. reads. Qed.

Lemma fsck_reachable_read_only opts commits :
  opt_delete opts = false →
  read_only (fsck_reachable_objects_from_commits opts commits None).
Proof.
  intros Hdelete. unfold fsck_reachable_objects_from_commits.
  apply read_only_bind; [apply traverse_commits_read_only|].
  intros [reachable|error]; [|reads]. apply fsck_objects_read_only, Hdelete.
Qed.

(** X1.  A run with none of [--delete], [--add-tombstones] and
    [--repair-from-remote] changes nothing in the store and talks to no
    remote: all it emits are lines on the two output streams and calls
    of the walker. *)
Theorem check_only_run_is_read_only argv st opts :
  ostree_option_context_parse argv (world st) = inr opts →
  opt_delete opts = false →
  opt_add_tombstones opts = false →
  opt_repair_remotes opts = None →
  world (ostree_builtin_fsck argv st).1.2 = world st
  ∧ Forall harmless (ostree_builtin_fsck argv st).2.
Proof.
  intros Hparse Hdelete Htombstones Hrepair. unfold ostree_builtin_fsck.
  apply read_only_step; [reflexivity|constructor|].
  cbn [set_found_corruption fst snd].
  apply read_only_step; [reflexivity|constructor|].
  cbn [ask fst snd world]. rewrite Hparse. cbn beta iota.
  unfold prepare_repair_remotes. rewrite Hrepair. cbn beta iota.
  apply read_only_step; [reflexivity|constructor|].
  cbn [ret fst snd].
  lazymatch goal with
  | |- world (?m ?s).1.2 = _ ∧ _ => assert (read_only m) as H; [|exact (H s)]
  end.
  cbn beta iota.
  apply read_only_bind; [reads|]. intros _.
  apply read_only_bind; [reads|]. intros [error|objects]; [reads|].
  apply read_only_bind; [apply census_read_only|].
  intros [[[commits n_partial] tombstones]|error]; [|reads].
  apply read_only_bind; [reads|]. intros _.
  apply read_only_bind; [apply fsck_reachable_read_only, Hdelete|].
  intros [u|error]; [|reads].
  apply read_only_bind; [apply apply_tombstones_read_only, Htombstones|].
  intros [u'|error]; reads.
Qed.

(** *** Intact repositories *)

Lemma fsck_objects_intact opts rr count mod_ iter st :
  (∀ o, o ∈ iter → outcome (world st) o.1 o.2 = PresentValid) →
  ∀ i, ∃ l, fsck_objects opts rr count mod_ iter i st = (GOk tt, st, l)
            ∧ Forall printed l.
Proof.
  induction iter as [|[checksum objtype] iter IH]; intros Hvalid i.
  - exists []. split; [reflexivity|constructor].
  - assert (load_and_fsck_one_object opts checksum objtype rr st = (GOk tt, st, []))
      as Hone.
    { pose proof (Hvalid (checksum, objtype) (list_elem_of_here _ _)) as Hone.
      cbn [fst snd] in Hone. rewrite fsck_policy. unfold policy.
      rewrite Hone. reflexivity. }
    rewrite (fsck_objects_ok _ _ _ _ _ _ _ _ _ _ _ _ Hone).
    destruct (IH (λ o Ho, Hvalid o (list_elem_of_further _ _ _ Ho)) (guint (i + 1)))
      as (l & -> & Hl).
    eexists. split; [reflexivity|]. cbn [app]. apply Forall_app. split; [|exact Hl].
    unfold progress. destruct (_ || _); repeat constructor. eexists; reflexivity.
Qed.

Lemma fsck_objects_sound opts count mod_ iter :
  ∀ i st u s l,
    fsck_objects opts None count mod_ iter i st = (GOk u, s, l) →
    found_corruption s = false →
    s = st ∧ ∀ o, o ∈ iter → outcome (world st) o.1 o.2 = PresentValid.
Proof.
  induction iter as [|[checksum objtype] iter IH]; intros i st u s l H Hs.
  - cbn [fsck_objects] in H. unfold ret in H. simplify_eq.
    split; [reflexivity|]. intros o Ho. apply elem_of_nil in Ho. destruct Ho.
  - assert (∀ st' r s' l', found_corruption st' = true →
              fsck_objects opts None count mod_ iter (guint (i + 1)) st' = (r, s', l') →
              s' = s → False) as Hraised.
    { intros st' r s' l' Hst' E ->.
      pose proof (fsck_objects_raises opts None count mod_ iter (guint (i + 1)) st' Hst')
        as Hr. rewrite E in Hr. cbn in Hr. congruence. }
    destruct (load_and_fsck_one_object opts checksum objtype None st)
      as [[[[]|error] s1] l1] eqn:Hone.
    2:{ rewrite (fsck_objects_fail _ _ _ _ _ _ _ _ _ _ _ _ Hone) in H. discriminate. }
    rewrite (fsck_objects_ok _ _ _ _ _ _ _ _ _ _ _ _ Hone) in H.
    destruct (fsck_objects opts None count mod_ iter (guint (i + 1)) s1)
      as [[r s'] l'] eqn:Hrest.
    simplify_eq. rewrite fsck_policy in Hone. unfold policy in Hone.
    destruct (outcome (world st) checksum objtype) eqn:Houtcome; simplify_eq.
    + destruct (IH _ _ _ _ _ Hrest Hs) as [-> Hvalid]. split; [reflexivity|].
      intros o [->|Ho]%elem_of_cons; [exact Houtcome|exact (Hvalid o Ho)].
    + rewrite repair_or_flag_none in Hone. simplify_eq.
      exfalso. eapply Hraised; [|exact Hrest|reflexivity]. reflexivity.
    + destruct (opt_delete opts); cbn [orb] in Hone.
      * destruct (ostree_repo_delete_object _ _ _) as [d w].
        rewrite repair_or_flag_none in Hone. simplify_eq.
        exfalso. eapply Hraised; [|exact Hrest|reflexivity]. reflexivity.
      * rewrite bool_decide_eq_false_2 in Hone by (intros Hn; apply Hn; reflexivity).
        discriminate.
Qed.

(** X2.  When every reachable object is intact and [--add-tombstones] is
    off, the run succeeds: the verification and the apply phase print
    lines on stdout and nothing else, the store is as it was, the flag
    is down. *)
Theorem intact_run_succeeds argv st0 v s1 l1 :
  until_verification argv st0 = (GOk v, s1, l1) →
  opt_add_tombstones (v_opts v) = false →
  (∀ o, o ∈ v_reachable v → outcome (world st0) o.1 o.2 = PresentValid) →
  ∃ l2, ostree_builtin_fsck argv st0 = (GOk tt, mkState (world st0) false, l1 ++ l2)
        ∧ Forall printed l2.
Proof.
  intros Huntil Htombstones Hvalid.
  destruct (until_verification_spec _ _ _ _ _ Huntil) as (-> & _ & _).
  rewrite fsck_phases, Huntil. unfold verification.
  destruct (fsck_objects_intact (v_opts v) (v_repair_remotes v)
              (Z.of_nat (size (v_reachable v)))
              (Z.of_nat (size (v_reachable v)) `div` 10)
              (elements (v_reachable v)) (mkState (world st0) false)
              (λ o Ho, Hvalid o (proj1 (elem_of_elements _ _) Ho)) 0)
    as (l2 & -> & Hl2).
  unfold after_verification, apply_tombstones. rewrite Htombstones. run.
  destruct (v_n_partial v >? 0); run.
  - eexists. split; [reflexivity|]. apply Forall_app. split; [exact Hl2|].
    repeat constructor. eexists; reflexivity.
  - eexists. split; [reflexivity|]. rewrite app_nil_r. exact Hl2.
Qed.

(** X3.  Without repair sources a run succeeds only if every reachable
    object is intact. *)
Theorem success_means_intact argv st0 v s1 l1 u s l :
  until_verification argv st0 = (GOk v, s1, l1) →
  v_repair_remotes v = None →
  ostree_builtin_fsck argv st0 = (GOk u, s, l) →
  ∀ o, o ∈ v_reachable v → outcome (world st0) o.1 o.2 = PresentValid.
Proof.
  intros Huntil Hremotes Hrun o Ho.
  destruct (until_verification_spec _ _ _ _ _ Huntil) as (-> & _ & _).
  rewrite fsck_phases, Huntil in Hrun. unfold verification in Hrun.
  rewrite Hremotes in Hrun.
  destruct (fsck_objects _ _ _ _ _ _ _) as [[[[]|error] s2] l2] eqn:Hverify;
    [|discriminate].
  pose proof (apply_tombstones_keeps_flag (v_opts v) (v_n_partial v)
                (v_tombstones v) s2) as Hkeep.
  unfold after_verification in Hrun. run_in Hrun.
  destruct (apply_tombstones _ _ _ s2) as [[[[]|error] s3] l3]; run_in Hrun;
    [|discriminate].
  cbn in Hkeep. destruct (found_corruption s3) eqn:Hflag; [discriminate|].
  destruct (fsck_objects_sound _ _ _ _ _ _ _ _ _ Hverify (eq_sym Hkeep)) as [_ Hvalid].
  apply (Hvalid o). apply elem_of_elements. exact Ho.
Qed.

(** *** Fatal outcomes *)

(** X4.  A metadata object that loads but fails the validator of its
    kind: whatever the options and the repair sources, the verifier
    fails with the validator's error under the prefix of that kind;
    nothing is printed, deleted, repaired or flagged; the loop stops and
    the command returns that error. *)
Theorem invalid_metadata_aborts opts repair_remotes checksum objtype st metadata reason :
  OSTREE_OBJECT_TYPE_IS_META objtype = true →
  ostree_repo_load_variant (world st) objtype checksum = inr metadata →
  schema_error objtype metadata = Some reason →
  let error := mkGError (domain reason) (code reason)
                        (while_validating checksum objtype +:+ message reason) in
  load_and_fsck_one_object opts checksum objtype repair_remotes st
  = (GFail (Some error), st, [])
  ∧ (∀ count mod_ rest i,
       fsck_objects opts repair_remotes count mod_ ((checksum, objtype) :: rest) i st
       = (GFail (Some error), st, []))
  ∧ (∀ argv st0 v done rest l,
       v_opts v = opts → v_repair_remotes v = repair_remotes →
       verifying argv st0 v done ((checksum, objtype) :: rest) st l →
       ostree_builtin_fsck argv st0 = (GFail (Some error), st, l)).
Proof.
  intros Hmeta Hload Hschema error.
  assert (load_and_fsck_one_object opts checksum objtype repair_remotes st
          = (GFail (Some error), st, [])) as Hone.
  { rewrite fsck_policy. unfold policy, outcome.
    destruct objtype; [discriminate|..]; rewrite Hload, Hschema; reflexivity. }
  split; [exact Hone|]. split.
  - intros count mod_ rest i. apply fsck_objects_fail. exact Hone.
  - intros argv st0 v done rest l Hopts Hremotes Hrun. subst opts repair_remotes.
    rewrite (command_aborts _ _ _ _ _ _ _ _ _ _ _ _ Hrun Hone). done_run.
Qed.

(** X5.  A metadata object whose load fails with anything but "not
    found": the verifier fails, and the error of the store is lost, the
    caller's error location stays empty; nothing is printed or flagged,
    and the command fails with no error set, whatever the options. *)
Theorem metadata_load_error_is_lost opts repair_remotes checksum objtype st e :
  OSTREE_OBJECT_TYPE_IS_META objtype = true →
  ostree_repo_load_variant (world st) objtype checksum = inl e →
  g_error_matches e G_IO_ERROR G_IO_ERROR_NOT_FOUND = false →
  load_and_fsck_one_object opts checksum objtype repair_remotes st
  = (GFail None, st, [])
  ∧ (∀ argv st0 v done rest l,
       v_opts v = opts → v_repair_remotes v = repair_remotes →
       verifying argv st0 v done ((checksum, objtype) :: rest) st l →
       ostree_builtin_fsck argv st0 = (GFail None, st, l)).
Proof.
  intros Hmeta Hload Hmatch.
  assert (load_and_fsck_one_object opts checksum objtype repair_remotes st
          = (GFail None, st, [])) as Hone.
  { rewrite fsck_policy. unfold policy, outcome.
    destruct objtype; [discriminate|..]; rewrite Hload, Hmatch; reflexivity. }
  split; [exact Hone|].
  intros argv st0 v done rest l Hopts Hremotes Hrun. subst opts repair_remotes.
  rewrite (command_aborts _ _ _ _ _ _ _ _ _ _ _ _ Hrun Hone). done_run.
Qed.

(** X6.  A file object whose load fails with anything but "not found":
    the verifier fails with the error of the store under the prefix
    "Loading file object <checksum>: "; no option turns it into a
    deletion, a repair or a flag, and the command returns that error. *)
Theorem unreadable_file_aborts opts repair_remotes checksum st e :
  ostree_repo_load_file (world st) checksum = inl e →
  g_error_matches e G_IO_ERROR G_IO_ERROR_NOT_FOUND = false →
  let error := mkGError (domain e) (code e)
                        (("Loading file object " +:+ checksum +:+ ": ") +:+ message e) in
  load_and_fsck_one_object opts checksum OSTREE_OBJECT_TYPE_FILE repair_remotes st
  = (GFail (Some error), st, [])
  ∧ (∀ argv st0 v done rest l,
       v_opts v = opts → v_repair_remotes v = repair_remotes →
       verifying argv st0 v done ((checksum, OSTREE_OBJECT_TYPE_FILE) :: rest) st l →
       ostree_builtin_fsck argv st0 = (GFail (Some error), st, l)).
Proof.
  intros Hload Hmatch error.
  assert (load_and_fsck_one_object opts checksum OSTREE_OBJECT_TYPE_FILE
            repair_remotes st = (GFail (Some error), st, [])) as Hone.
  { rewrite fsck_policy. unfold policy, outcome. rewrite Hload, Hmatch. reflexivity. }
  split; [exact Hone|].
  intros argv st0 v done rest l Hopts Hremotes Hrun. subst opts repair_remotes.
  rewrite (command_aborts _ _ _ _ _ _ _ _ _ _ _ _ Hrun Hone). done_run.
Qed.

(** *** Repair sources given by name *)

Lemma check_remote_urls_spec iter st :
  let '(r, s, l) := check_remote_urls iter st in
  s = st
  ∧ match r with
    | GOk _ => l = RemoteGetUrl <$> iter ∧ Forall (has_url (world st)) iter
    | GFail error =>
      ∃ known remote rest e,
        iter = known ++ remote :: rest
        ∧ Forall (has_url (world st)) known
        ∧ ostree_repo_remote_get_url (world st) remote = inl e
        ∧ error = Some e
        ∧ l = RemoteGetUrl <$> (known ++ [remote])
    end.
Proof.
  induction iter as [|remote iter IH]; cbn [check_remote_urls]; run.
  - split; [reflexivity|]. split; [reflexivity|constructor].
  - destruct (ostree_repo_remote_get_url (world st) remote) as [e|url] eqn:Hurl; run.
    + split; [reflexivity|]. exists [], remote, iter, e. repeat split; auto.
    + destruct (check_remote_urls iter st) as [[[u|error] s] l].
      * destruct IH as (-> & -> & Hall). split; [reflexivity|].
        split; [reflexivity|]. constructor; [exists url; exact Hurl|exact Hall].
      * destruct IH as (-> & known & failing & rest & e & -> & Hknown & Hfail & -> & ->).
        split; [reflexivity|]. exists (remote :: known), failing, rest, e.
        repeat split; auto. constructor; [exists url; exact Hurl|exact Hknown].
Qed.

(** X7.  Repair sources given by name: the store is asked for the URL of
    each, in the order given; the first one it does not know ends the
    preparation with the store's error, the later ones are not asked;
    when it knows them all, the sources are the names as given.  The
    state is left as it was. *)
Theorem named_remotes_are_checked_in_order opts remotes st :
  opt_repair_remotes opts = Some remotes →
  remotes ≠ [] →
  "-" ∉ remotes →
  let '(r, s, l) := prepare_repair_remotes opts st in
  s = st
  ∧ match r with
    | GOk repair_remotes =>
      repair_remotes = Some remotes
      ∧ l = RemoteGetUrl <$> remotes
      ∧ Forall (has_url (world st)) remotes
    | GFail error =>
      ∃ known remote rest e,
        remotes = known ++ remote :: rest
        ∧ Forall (has_url (world st)) known
        ∧ ostree_repo_remote_get_url (world st) remote = inl e
        ∧ error = Some e
        ∧ l = RemoteGetUrl <$> (known ++ [remote])
    end.
Proof.
  intros Hopt Hsome Hdash. unfold prepare_repair_remotes. rewrite Hopt.
  destruct remotes as [|r1 rest]; [contradiction|].
  destruct (strv_contains (r1 :: rest) "-") eqn:Hcontains.
  { apply strv_contains_spec in Hcontains. contradiction. }
  pose proof (check_remote_urls_spec (r1 :: rest) st) as Hcheck. run.
  destruct (check_remote_urls (r1 :: rest) st) as [[[u|error] s] l]; run;
    rewrite app_nil_r.
  - destruct Hcheck as (-> & -> & Hall). auto.
  - exact Hcheck.
Qed.

(** X8.  [strv_contains] decides membership in the vector. *)
Theorem strv_contains_decides_membership haystack needle :
  strv_contains haystack needle = bool_decide (needle ∈ haystack).
Proof.
  destruct (strv_contains haystack needle) eqn:H; symmetry.
  - apply bool_decide_eq_true_2, strv_contains_spec, H.
  - apply bool_decide_eq_false_2. intros Hin. apply strv_contains_spec in Hin.
    congruence.
Qed.

(** *** The census as a whole *)

Lemma census_app opts before after :
  ∀ commits0 n0 tombstones0 st,
    census opts (before ++ after) commits0 n0 tombstones0 st
    = match census opts before commits0 n0 tombstones0 st with
      | (GOk (commits, n_partial, tombstones), _, _) =>
        census opts after commits n_partial tombstones st
      | (GFail error, _, _) => (GFail error, st, [])
      end.
Proof.
  induction before as [|[checksum objtype] before IH]; intros commits0 n0 tombstones0 st.
  - reflexivity.
  - cbn [app]. destruct (decide (objtype = OSTREE_OBJECT_TYPE_COMMIT)) as [->|Hother].
    + rewrite !census_commit.
      destruct (ostree_repo_load_commit _ _) as [error|[commit commitstate]];
        [reflexivity|].
      destruct (stage _ _ _ _ _); [|reflexivity].
      destruct (bool_decide _); apply IH.
    + rewrite !(census_other _ _ _ _ _ _ _ _ Hother). apply IH.
Qed.

Lemma census_loads opts iter :
  ∀ commits0 n0 tombstones0 st r s l,
    census opts iter commits0 n0 tombstones0 st = (GOk r, s, l) →
    Forall (λ o, listed_commit o = true → is_Some (commit_state (world st) o)) iter.
Proof.
  induction iter as [|[checksum objtype] iter IH]; intros commits0 n0 tombstones0 st r s l H;
    [constructor|].
  destruct (decide (objtype = OSTREE_OBJECT_TYPE_COMMIT)) as [->|Hother].
  - rewrite census_commit in H.
    destruct (ostree_repo_load_commit (world st) checksum)
      as [error|[commit commitstate]] eqn:Hload; [discriminate|].
    destruct (stage _ _ _ _ _); [|discriminate]. constructor.
    + intros _. unfold commit_state. cbn [fst snd].
      rewrite bool_decide_eq_true_2, Hload by reflexivity. eexists; reflexivity.
    + destruct (bool_decide _); exact (IH _ _ _ _ _ _ _ H).
  - rewrite (census_other _ _ _ _ _ _ _ _ Hother) in H. constructor.
    + unfold listed_commit. cbn [snd]. rewrite bool_decide_eq_false_2 by exact Hother.
      discriminate.
    + exact (IH _ _ _ _ _ _ _ H).
Qed.

Lemma commits_split w iter :
  Forall (λ o, listed_commit o = true → is_Some (commit_state w o)) iter →
  (length (List.filter (complete_commit w) iter)
   + length (List.filter (partial_commit w) iter)
   = length (List.filter listed_commit iter))%nat.
Proof.
  induction 1 as [|o iter Ho _ IH]; [reflexivity|]. cbn [List.filter].
  unfold complete_commit at 1, partial_commit at 1.
  destruct (listed_commit o) eqn:Hlisted.
  - destruct (Ho eq_refl) as [commitstate ->].
    destruct (decide (Z.land commitstate OSTREE_REPO_COMMIT_STATE_PARTIAL = 0)) as [Hc|Hp].
    + rewrite bool_decide_eq_true_2, bool_decide_eq_false_2 by (try exact Hc; tauto).
      cbn [length]. lia.
    + rewrite bool_decide_eq_false_2, bool_decide_eq_true_2 by exact Hp.
      cbn [length]. lia.
  - unfold commit_state. unfold listed_commit in Hlisted. rewrite Hlisted. exact IH.
Qed.

(** X9.  A census that succeeds has loaded every commit of the listing
    and put each of them on one side.  The roots it returns are exactly
    the commits of the listing the store does not mark partial: an
    object is a root if and only if it is listed, is a commit and is
    not partial.  Each root is counted once, the counter of partial
    commits is their number, and roots and partial commits together
    are all the commits listed. *)
Theorem census_partitions_commits (opts : Options) (objects commits : gset ObjectName)
    (st : State World)
    n_partial tombstones s l :
  census opts (elements objects) ∅ 0 [] st = (GOk (commits, n_partial, tombstones), s, l) →
  let w := world st in
  Forall (λ o, listed_commit o = true → is_Some (commit_state w o)) (elements objects)
  ∧ size commits = length (List.filter (complete_commit w) (elements objects))
  ∧ (size commits + length (List.filter (partial_commit w) (elements objects))
     = length (List.filter listed_commit (elements objects)))%nat
  ∧ (∀ o, o ∈ commits → o ∈ objects ∧ o.2 = OSTREE_OBJECT_TYPE_COMMIT)
  ∧ (∀ o, o ∈ commits ↔ o ∈ objects ∧ complete_commit w o = true)
  ∧ (∀ o, o ∈ commits
          ↔ o ∈ objects ∧ o.2 = OSTREE_OBJECT_TYPE_COMMIT ∧ partial_commit w o = false)
  ∧ n_partial
    = guint (Z.of_nat (length (List.filter (partial_commit w) (elements objects)))).
Proof.
  intros Hcensus w. pose proof (census_loads _ _ _ _ _ _ _ _ _ Hcensus) as Hloads.
  apply census_spec in Hcensus as (_ & _ & Hcommits & Hn & _).
  fold w in Hcommits, Hloads, Hn.
  assert (∀ o, o ∈ commits ↔ o ∈ objects ∧ complete_commit w o = true) as Hroots.
  { intros o. rewrite Hcommits, elem_of_elements. split; [|tauto].
    intros [H|H]; [exact H|]. apply elem_of_empty in H. destruct H. }
  assert (size commits = length (List.filter (complete_commit w) (elements objects)))
    as Hsize.
  { assert (commits = list_to_set (List.filter (complete_commit w) (elements objects)))
      as Heq.
    { apply set_eq. intros o. rewrite Hroots, elem_of_list_to_set.
      rewrite (list_elem_of_In (List.filter _ _)), filter_In, <- list_elem_of_In.
      rewrite elem_of_elements. reflexivity. }
    rewrite Heq at 1.
    apply size_list_to_set, NoDup_ListNoDup, List.NoDup_filter, NoDup_ListNoDup,
      NoDup_elements. }
  split; [exact Hloads|]. split; [exact Hsize|].
  split; [rewrite Hsize; apply commits_split, Hloads|].
  split; [|split; [exact Hroots|split]].
  - intros o Ho. apply Hroots in Ho as [Ho Hc]. split; [exact Ho|].
    unfold complete_commit, commit_state in Hc. case_bool_decide; [assumption|discriminate].
  - intros o. rewrite Hroots. split.
    + intros [Ho Hc]. split; [exact Ho|].
      unfold complete_commit, partial_commit, commit_state in *.
      case_bool_decide as Hkind; [|discriminate]. split; [exact Hkind|].
      destruct (ostree_repo_load_commit w o.1) as [error|[commit commitstate]];
        [discriminate|].
      apply bool_decide_eq_true_1 in Hc. apply bool_decide_eq_false_2. congruence.
    + intros (Ho & Hkind & Hp). split; [exact Ho|].
      rewrite Forall_forall in Hloads.
      destruct (Hloads o) as [commitstate Hstate].
      { apply elem_of_elements, Ho. }
      { unfold listed_commit. apply bool_decide_eq_true_2, Hkind. }
      unfold complete_commit, partial_commit in *. rewrite Hstate in Hp |- *.
      apply bool_decide_eq_false_1 in Hp. apply bool_decide_eq_true_2.
      destruct (decide (Z.land commitstate OSTREE_REPO_COMMIT_STATE_PARTIAL = 0));
        [assumption|contradiction].
  - rewrite (Hn eq_refl). f_equal.
Qed.

(** X10.  A commit of the listing that the store cannot load ends the
    census, and the command, with the store's error: the commits listed
    before it have been read, nothing has been changed, verified or
    printed but the first banner. *)
Theorem unloadable_commit_aborts opts before checksum after st r e :
  (census opts before ∅ 0 [] st).1.1 = GOk r →
  ostree_repo_load_commit (world st) checksum = inl e →
  census opts (before ++ (checksum, OSTREE_OBJECT_TYPE_COMMIT) :: after) ∅ 0 [] st
  = (GFail (Some e), st, [])
  ∧ ∀ argv st0 repair_remotes lp objects,
      st = mkState (world st0) false →
      ostree_option_context_parse argv (world st0) = inr opts →
      prepare_repair_remotes opts st = (GOk repair_remotes, st, lp) →
      ostree_repo_list_objects (world st0) = inr objects →
      elements objects = before ++ (checksum, OSTREE_OBJECT_TYPE_COMMIT) :: after →
      ostree_builtin_fsck argv st0
      = (GFail (Some e), st,
         lp ++ (if opt_quiet opts then [] else [Stdout ("Enumerating objects..." +:+ LF)])).
Proof.
  intros Hbefore Hload.
  assert (census opts (before ++ (checksum, OSTREE_OBJECT_TYPE_COMMIT) :: after) ∅ 0 [] st
          = (GFail (Some e), st, [])) as Hcensus.
  { rewrite census_app. destruct (census opts before ∅ 0 [] st) as [[r' s] l].
    cbn [fst] in Hbefore. subst r'. destruct r as [[commits n_partial] tombstones].
    rewrite census_commit, Hload. reflexivity. }
  split; [exact Hcensus|].
  intros argv st0 repair_remotes lp objects -> Hparse Hprepare Hlist Helements.
  unfold ostree_builtin_fsck. run. rewrite Hparse. run. rewrite Hprepare. run.
  destruct (opt_quiet opts); run; rewrite Hlist; run; rewrite Helements, Hcensus; run;
    done_run.
Qed.

(** *** What a run changes *)

Ltac event :=
  unfold changes_within; cbn;
  solve [ exact I | reflexivity
        | split; first [assumption | reflexivity]
        | intros ? ?; simplify_eq; auto ].

Ltac emitting :=
  repeat lazymatch goal with
  | |- emits _ (mbind _ _) => apply emits_bind; [|intros ?]
  | |- emits _ (ret _) => apply emits_ret
  | |- emits _ (ask _) => apply emits_ask
  | |- emits _ (set_found_corruption _) => apply emits_set
  | |- emits _ get_found_corruption => apply emits_get
  | |- emits _ (emit _) => apply emits_emit; event
  | |- emits _ (g_print _) => apply emits_emit; event
  | |- emits _ (g_printerr _) => apply emits_emit; event
  | |- emits _ (call _ _) => apply emits_call; event
  | |- emits _ (delete_object _ _) => apply emits_call; event
  | |- emits _ (remote_get_url _) => unfold remote_get_url
  | |- emits _ (when _ _) => unfold when
  | |- emits _ (match ?x with _ => _ end) => destruct x eqn:?
  end.

Lemma emits_impl {A} (P Q : Event → Prop) (m : M A) :
  (∀ e, P e → Q e) → emits P m → emits Q m.
Proof. intros H Hm st. eapply Forall_impl; [apply Hm|exact H]. Qed.

Lemma repair_object_events opts remotes checksum objtype :
  emits (repair_event opts (checksum, objtype))
        (repair_object opts remotes checksum objtype).
Proof.
  unfold repair_object. case_bool_decide as Hkind; [emitting|].
  assert (objtype = OSTREE_OBJECT_TYPE_FILE) as ->
    by (destruct (decide (objtype = OSTREE_OBJECT_TYPE_FILE)); [assumption|contradiction]).
  induction remotes as [|remote remotes IH]; cbn [repair_object_loop]; [emitting|].
  apply emits_bind; [unfold repair_from; emitting|].
  intros []; [emitting|exact IH|emitting].
Qed.

(** X11.  Whatever the sources answer, a repair changes no object of the
    store but the one it is asked to repair, writes it only when it is
    a file object, and deletes it only under [--delete]; it prints on
    stderr only, and calls neither the walker nor the tombstone
    switch. *)
Theorem repair_changes_only_its_object opts remotes checksum objtype st :
  let l := (repair_object opts remotes checksum objtype st).2 in
  Forall (repair_event opts (checksum, objtype)) l
  ∧ (∀ o, o ∈ omap changed l → o = (checksum, objtype))
  ∧ (WriteContent checksum ∈ l → objtype = OSTREE_OBJECT_TYPE_FILE)
  ∧ (DeleteObject objtype checksum ∈ l → opt_delete opts = true).
Proof.
  intros l. pose proof (repair_object_events opts remotes checksum objtype st) as H.
  fold l in H. rewrite Forall_forall in H. split; [apply Forall_forall, H|].
  split; [|split].
  - intros o (e & He & Ho)%list_elem_of_omap. specialize (H e He).
    destruct e; cbn in *; simplify_eq; [congruence|destruct H; congruence].
  - intros Hin. specialize (H _ Hin). cbn in H. congruence.
  - intros Hin. specialize (H _ Hin). cbn in H. tauto.
Qed.

Lemma repair_or_flag_changes opts rr checksum objtype :
  emits (changes_within (λ o, o = (checksum, objtype)))
        (repair_or_flag opts rr checksum objtype).
Proof.
  unfold repair_or_flag. destruct rr as [remotes|]; [|emitting].
  apply emits_bind; [|intros ?; emitting].
  eapply emits_impl; [|apply repair_object_events].
  intros [] He o Ho; cbn in *; simplify_eq; [congruence|destruct He; congruence].
Qed.

Lemma load_and_fsck_changes opts checksum objtype rr :
  emits (changes_within (λ o, o = (checksum, objtype)))
        (load_and_fsck_one_object opts checksum objtype rr).
Proof.
  intros st. rewrite fsck_policy. unfold policy.
  destruct (outcome _ _ _); try constructor.
  - pose proof (repair_or_flag_changes opts rr checksum objtype st) as H.
    destruct (repair_or_flag _ _ _ _ _) as [[[] s] l]. constructor; [event|exact H].
  - destruct (_ || _); [|constructor].
    destruct (ostree_repo_delete_object _ _ _) as [d w].
    pose proof (repair_or_flag_changes opts rr checksum objtype
                  (mkState w (found_corruption st))) as H.
    destruct (repair_or_flag _ _ _ _ _) as [[[] s] l].
    constructor; [event|]. constructor; [event|exact H].
Qed.

Lemma fsck_objects_changes opts rr count mod_ iter :
  ∀ i, emits (changes_within (λ o, o ∈ iter)) (fsck_objects opts rr count mod_ iter i).
Proof.
  induction iter as [|[checksum objtype] iter IH]; intros i;
    cbn [fsck_objects]; [emitting|].
  apply emits_bind.
  - eapply emits_impl; [|apply load_and_fsck_changes].
    intros e He o Ho. rewrite (He o Ho). apply list_elem_of_here.
  - intros [u|error]; [|emitting]. apply emits_bind; [emitting|]. intros _.
    eapply emits_impl; [|apply IH].
    intros e He o Ho. apply list_elem_of_further, He, Ho.
Qed.

Lemma add_tombstones_changes tombstones :
  emits (changes_within (λ o, o.2 = OSTREE_OBJECT_TYPE_COMMIT ∧ o.1 ∈ tombstones))
        (add_tombstones tombstones).
Proof.
  induction tombstones as [|checksum tombstones IH]; cbn [add_tombstones]; [emitting|].
  apply emits_bind; [emitting|]. intros _. apply emits_bind.
  - apply emits_call. intros o Ho. cbn in Ho. simplify_eq. cbn.
    split; [reflexivity|apply list_elem_of_here].
  - intros [error|]; [emitting|]. eapply emits_impl; [|apply IH].
    intros e He o Ho. destruct (He o Ho). split; [assumption|].
    apply list_elem_of_further. assumption.
Qed.

Lemma after_verification_changes v :
  emits (changes_within (λ o, o.2 = OSTREE_OBJECT_TYPE_COMMIT ∧ o.1 ∈ v_tombstones v))
        (after_verification v).
Proof.
  unfold after_verification. apply emits_bind; [|intros ?; emitting].
  unfold apply_tombstones. destruct (opt_add_tombstones (v_opts v)); [|emitting].
  apply emits_bind; [emitting|]. intros [error|]; [emitting|].
  apply add_tombstones_changes.
Qed.

Lemma until_verification_changes argv :
  emits (λ e, changed e = None) (until_verification argv).
Proof.
  assert (∀ iter, emits (λ e, changed e = None) (check_remote_urls iter)) as Hcheck.
  { induction iter as [|remote iter IH]; cbn [check_remote_urls]; [emitting|].
    apply emits_bind; [emitting|]. intros [error|url]; [emitting|exact IH]. }
  assert (∀ iter reachable, emits (λ e, changed e = None) (traverse_commits iter reachable))
    as Hwalk.
  { induction iter as [|[checksum objtype] iter IH]; intros reachable;
      cbn [traverse_commits]; [emitting|].
    apply emits_bind; [emitting|]. intros _. apply emits_bind; [emitting|].
    intros [error|reachable']; [emitting|apply IH]. }
  unfold until_verification.
  apply emits_bind; [emitting|]. intros _.
  apply emits_bind; [emitting|]. intros [error|opts]; [emitting|].
  apply emits_bind.
  { unfold prepare_repair_remotes.
    destruct (opt_repair_remotes opts) as [[|r l]|]; [emitting| |emitting].
    destruct (strv_contains _ _); [emitting|].
    apply emits_bind; [apply Hcheck|]. intros ?. emitting. }
  intros [repair_remotes|error]; [|emitting].
  apply emits_bind; [emitting|]. intros _.
  apply emits_bind; [emitting|]. intros [error|objects]; [emitting|].
  apply emits_bind.
  { intros st. pose proof (census_reads opts (elements objects) ∅ 0 [] st) as H.
    destruct (census _ _ _ _ _ _) as [[r s] l]. destruct H as [_ ->]. constructor. }
  intros [[[commits n_partial] tombstones]|error]; [|emitting].
  apply emits_bind; [emitting|]. intros _.
  apply emits_bind; [apply Hwalk|]. intros ?. emitting.
Qed.

(** X12.  The objects a run changes in the store: none before the
    verification starts; afterwards only objects of the reachable set,
    and the commits staged for a tombstone. *)
Theorem run_changes_only_reachable_or_staged argv st0 r s1 l1 :
  until_verification argv st0 = (r, s1, l1) →
  omap changed l1 = []
  ∧ ∀ o, o ∈ omap changed (ostree_builtin_fsck argv st0).2 →
         ∃ v, r = GOk v
              ∧ (o ∈ v_reachable v
                 ∨ (o.2 = OSTREE_OBJECT_TYPE_COMMIT ∧ o.1 ∈ v_tombstones v)).
Proof.
  intros Huntil.
  assert (∀ l, Forall (λ e, changed e = None) l → omap changed l = []) as Hnone.
  { induction 1 as [|e l He _ IH]; [reflexivity|]. cbn. rewrite He. exact IH. }
  pose proof (until_verification_changes argv st0) as H1. rewrite Huntil in H1.
  cbn [snd] in H1. apply Hnone in H1. split; [exact H1|].
  intros o. rewrite fsck_phases, Huntil. destruct r as [v|error].
  2:{ cbn [snd]. rewrite H1. intros []%elem_of_nil. }
  pose proof (fsck_objects_changes (v_opts v) (v_repair_remotes v)
                (Z.of_nat (size (v_reachable v)))
                (Z.of_nat (size (v_reachable v)) `div` 10)
                (elements (v_reachable v)) 0 s1) as H2.
  unfold verification.
  destruct (fsck_objects _ _ _ _ _ _ _) as [[[u|error] s2] l2]; cbn [snd] in *.
  - pose proof (after_verification_changes v s2) as H3.
    destruct (after_verification v s2) as [[r3 s3] l3]. cbn [snd] in *.
    rewrite !omap_app, H1. cbn [app].
    intros [(e & He & Ho)%list_elem_of_omap|(e & He & Ho)%list_elem_of_omap]%elem_of_app;
      exists v; (split; [reflexivity|]).
    + left. rewrite Forall_forall in H2. apply elem_of_elements, (H2 e He o Ho).
    + right. rewrite Forall_forall in H3. exact (H3 e He o Ho).
  - rewrite omap_app, H1. cbn [app].
    intros (e & He & Ho)%list_elem_of_omap. exists v. split; [reflexivity|].
    left. rewrite Forall_forall in H2. apply elem_of_elements, (H2 e He o Ho).
Qed.

(** *** Counting the progress lines *)

Lemma lines_app l1 l2 : lines (l1 ++ l2) = (lines l1 + lines l2)%nat.
Proof. unfold lines. rewrite List.filter_app, length_app. reflexivity. Qed.

Lemma lines_silent l : Forall (λ e, is_stdout e = false) l → lines l = O.
Proof.
  unfold lines. induction 1 as [|e l He _ IH]; [reflexivity|].
  cbn [List.filter]. rewrite He. exact IH.
Qed.

Lemma load_and_fsck_silent opts checksum objtype rr :
  emits (λ e, is_stdout e = false) (load_and_fsck_one_object opts checksum objtype rr).
Proof.
  assert (emits (λ e, is_stdout e = false) (repair_or_flag opts rr checksum objtype))
    as Hrepair.
  { unfold repair_or_flag. destruct rr as [remotes|]; [|emitting].
    apply emits_bind; [|intros ?; emitting].
    eapply emits_impl; [|apply repair_object_events].
    intros [] He; cbn in *; tauto. }
  intros st. rewrite fsck_policy. unfold policy.
  destruct (outcome _ _ _); try constructor.
  - specialize (Hrepair st).
    destruct (repair_or_flag _ _ _ _ _) as [[[] s] l]. constructor; [reflexivity|exact Hrepair].
  - destruct (_ || _); [|constructor].
    destruct (ostree_repo_delete_object _ _ _) as [d w].
    specialize (Hrepair (mkState w (found_corruption st))).
    destruct (repair_or_flag _ _ _ _ _) as [[[] s] l].
    constructor; [reflexivity|]. constructor; [reflexivity|exact Hrepair].
Qed.

Lemma fsck_objects_lines opts rr count mod_ iter :
  ∀ i st u s l,
    fsck_objects opts rr count mod_ iter i st = (GOk u, s, l) →
    0 ≤ i → i + Z.of_nat (length iter) < 2 ^ 32 →
    lines l = due mod_ i (length iter).
Proof.
  induction iter as [|[checksum objtype] iter IH]; intros i st u s l H Hi Hmax.
  - cbn [fsck_objects] in H. unfold ret in H. simplify_eq. reflexivity.
  - pose proof (load_and_fsck_silent opts checksum objtype rr st) as Hsilent.
    destruct (load_and_fsck_one_object opts checksum objtype rr st)
      as [[[[]|error] s1] l1] eqn:Hone.
    2:{ rewrite (fsck_objects_fail _ _ _ _ _ _ _ _ _ _ _ _ Hone) in H. discriminate. }
    rewrite (fsck_objects_ok _ _ _ _ _ _ _ _ _ _ _ _ Hone) in H.
    cbn [snd] in Hsilent. cbn [length] in Hmax. rewrite Nat2Z.inj_succ in Hmax.
    assert (guint (i + 1) = i + 1) as Hnext by (apply Z.mod_small; lia).
    rewrite Hnext in H.
    destruct (fsck_objects opts rr count mod_ iter (i + 1) s1) as [[r s'] l'] eqn:Hrest.
    simplify_eq. rewrite !lines_app, (lines_silent _ Hsilent).
    rewrite (IH _ _ _ _ _ Hrest) by lia. cbn [length due]. unfold progress.
    destruct (_ || _); reflexivity.
Qed.

Lemma due_always i n : due 0 i n = n.
Proof. revert i. induction n as [|n IH]; intros i; cbn; [|rewrite IH]; reflexivity. Qed.

Lemma due_multiples m n :
  0 < m → ∀ i, 0 ≤ i →
  Z.of_nat (due m i n) = (i + Z.of_nat n + m - 1) `div` m - (i + m - 1) `div` m.
Proof.
  intros Hm. induction n as [|n IH]; intros i Hi.
  - cbn [due]. rewrite Z.add_0_r. lia.
  - cbn [due]. rewrite (proj2 (Z.eqb_neq m 0)) by lia. cbn [orb].
    rewrite Nat2Z.inj_succ.
    replace (i + Z.succ (Z.of_nat n) + m - 1) with (i + 1 + Z.of_nat n + m - 1) by lia.
    assert ((i + 1 + m - 1) `div` m
            = (i + m - 1) `div` m + (if i `mod` m =? 0 then 1 else 0)) as Hstep.
    { pose proof (Z.div_mod i m ltac:(lia)) as Hdiv.
      pose proof (Z.mod_pos_bound i m Hm) as Hmod.
      destruct (i `mod` m =? 0) eqn:Hr.
      - apply Z.eqb_eq in Hr.
        rewrite <- (Z.div_unique (i + 1 + m - 1) m (i `div` m + 1) 0) by lia.
        rewrite <- (Z.div_unique (i + m - 1) m (i `div` m) (m - 1)) by lia. lia.
      - apply Z.eqb_neq in Hr.
        rewrite <- (Z.div_unique (i + 1 + m - 1) m (i `div` m + 1) (i `mod` m)) by lia.
        rewrite <- (Z.div_unique (i + m - 1) m (i `div` m + 1) (i `mod` m - 1)) by lia.
        lia. }
    destruct (i `mod` m =? 0); rewrite ?Nat2Z.inj_succ, IH by lia; lia.
Qed.

(** X13.  The progress lines of a verification that goes through: one per
    object when fewer than ten objects are reachable; otherwise one
    every [count / 10] objects, the first after the first object, which
    makes between ten and nineteen lines. *)
Theorem progress_lines_of_a_run v st u s l :
  let count := Z.of_nat (size (v_reachable v)) in
  verification v (elements (v_reachable v)) 0 st = (GOk u, s, l) →
  count < 2 ^ 32 →
  lines l = due (count `div` 10) 0 (size (v_reachable v))
  ∧ (count < 10 → lines l = size (v_reachable v))
  ∧ (10 ≤ count →
     Z.of_nat (lines l) = (count + count `div` 10 - 1) `div` (count `div` 10)
     ∧ (10 ≤ lines l ≤ 19)%nat).
Proof.
  intros count Hrun Hmax. unfold verification in Hrun. fold count in Hrun.
  assert (length (elements (v_reachable v)) = size (v_reachable v)) as Hlen
    by reflexivity.
  apply fsck_objects_lines in Hrun; [|lia|rewrite Hlen; fold count; lia].
  rewrite Hlen in Hrun. split; [exact Hrun|]. split.
  - intros Hfew. rewrite Hrun, Z.div_small by lia. apply due_always.
  - intros Hmany.
    assert (0 < count `div` 10) as Hmod by (apply Z.div_str_pos; lia).
    assert (Z.of_nat (lines l) = (count + count `div` 10 - 1) `div` (count `div` 10))
      as Hlines.
    { rewrite Hrun, (due_multiples _ _ Hmod 0) by lia. fold count.
      rewrite (Z.div_small (0 + count `div` 10 - 1)) by lia.
      rewrite Z.sub_0_r. f_equal; lia. }
    split; [exact Hlines|].
    assert (10 ≤ (count + count `div` 10 - 1) `div` (count `div` 10) ≤ 19) as Hbounds.
    { split.
      - apply Z.div_le_lower_bound; [lia|].
        pose proof (Z.mul_div_le count 10). lia.
      - apply Z.lt_succ_r, Z.div_lt_upper_bound; [lia|].
        pose proof (Z.mul_succ_div_gt count 10). lia. }
    lia.
Qed.

(** *** The walker and the last line *)

Lemma traverse_commits_app before after :
  ∀ reachable st,
    traverse_commits (before ++ after) reachable st
    = let '(r, s, l) := traverse_commits before reachable st in
      match r with
      | GOk reachable' =>
        let '(r', s', l') := traverse_commits after reachable' s in (r', s', l ++ l')
      | GFail error => (GFail error, s, l)
      end.
Proof.
  induction before as [|[checksum objtype] before IH]; intros reachable st.
  - cbn [app traverse_commits]. run.
    destruct (traverse_commits after reachable st) as [[r s] l]. reflexivity.
  - cbn [app traverse_commits]. run.
    destruct (ostree_repo_traverse_commit_union _ _ _ _) as [error|reachable1]; run;
      [reflexivity|].
    rewrite IH. destruct (traverse_commits before reachable1 st) as [[[r1|error] s1] l1];
      [|reflexivity].
    destruct (traverse_commits after r1 s1) as [[r2 s2] l2]. reflexivity.
Qed.

Lemma traverse_commits_ok iter :
  ∀ reachable st reachable' s l,
    traverse_commits iter reachable st = (GOk reachable', s, l) →
    s = st ∧ l = walks iter.
Proof.
  induction iter as [|[checksum objtype] iter IH]; intros reachable st reachable' s l H;
    cbn [traverse_commits] in H; run_in H.
  - simplify_eq. auto.
  - destruct (ostree_repo_traverse_commit_union _ _ _ _) as [error|reachable1];
      run_in H; [discriminate|].
    destruct (traverse_commits iter reachable1 st) as [[r1 s1] l1] eqn:Hrest.
    simplify_eq. destruct (IH _ _ _ _ _ Hrest) as [-> ->]. auto.
Qed.

(** X14.  The walker failing on a root ends the run with the walker's
    error: the roots before it have been walked, in order, the later
    ones are left alone, and no object has been verified, reported or
    changed. *)
Theorem walker_failure_aborts (opts : Options) (repair_remotes : option (list string))
    (commits : gset ObjectName) (before after : list ObjectName) checksum objtype
    st reachable s l e :
  elements commits = before ++ (checksum, objtype) :: after →
  traverse_commits before ∅ st = (GOk reachable, s, l) →
  ostree_repo_traverse_commit_union (world st) checksum 0 reachable = inl e →
  fsck_reachable_objects_from_commits opts commits repair_remotes st
  = (GFail (Some e), st, walks (before ++ [(checksum, objtype)])).
Proof.
  intros Helements Hbefore Hwalk.
  destruct (traverse_commits_ok _ _ _ _ _ _ Hbefore) as [-> ->].
  unfold fsck_reachable_objects_from_commits. run.
  rewrite Helements, traverse_commits_app, Hbefore.
  cbn [traverse_commits]. run. rewrite Hwalk. run.
  unfold walks. rewrite fmap_app, app_nil_r. reflexivity.
Qed.

(** X15.  Without [--add-tombstones], a run that passes verification ends
    by reporting the partial commits of the listing: the line "<n>
    partial commits not verified" when there are [n > 0] of them, with
    or without [--quiet], and no line when there is none. *)
Theorem partial_commits_are_reported (argv : list string) (st0 : State World)
    (v : Verification) (s1 : State World) (l1 : list Event) (objects : gset ObjectName) :
  until_verification argv st0 = (GOk v, s1, l1) →
  opt_add_tombstones (v_opts v) = false →
  ostree_repo_list_objects (world st0) = inr objects →
  let n := Z.of_nat (length (List.filter (partial_commit (world st0)) (elements objects))) in
  n < 2 ^ 32 →
  ∀ s, (after_verification v s).1.2 = s
       ∧ (after_verification v s).2
         = if n >? 0
           then [Stdout (fmt_u n +:+ " partial commits not verified" +:+ LF)]
           else [].
Proof.
  intros Huntil Htombstones Hlist n Hmax s.
  apply until_verification_spec in Huntil as (-> & _ & Hv).
  destruct (Hv v eq_refl) as (objects' & commits & _ & _ & Hlist' & Hcensus & _).
  rewrite Hlist in Hlist'. simplify_eq.
  apply census_spec in Hcensus as (_ & _ & _ & Hn & _). cbn [world] in Hn.
  specialize (Hn eq_refl). rewrite Z.add_0_l in Hn. fold n in Hn.
  unfold guint in Hn. rewrite Z.mod_small in Hn by (unfold n; lia).
  unfold after_verification, apply_tombstones. rewrite Htombstones, Hn. run.
  destruct (n >? 0); run; destruct (found_corruption s); split; reflexivity.
Qed.

End Properties.

(** * Runs

    The theorems at work on the sample repositories, and the places
    where the code departs from the letter of the specification. *)

Section Runs.
Import Toy Samples.
#[local] Existing Instance Toy.lib.

(** The walker of the list-backed store leaves other commits out. *)
Lemma walker_of_toy : walker_adds_only_root.
Proof.
  intros w c reachable reachable' H c' Hin.
  change (traverse w c reachable = inr reachable') in H. unfold traverse in H.
  destruct (load w OSTREE_OBJECT_TYPE_COMMIT c) as [e|o]; [discriminate|].
  injection H as <-.
  apply elem_of_union in Hin as [Hin|Hin]; [|right; exact Hin].
  apply elem_of_union in Hin as [Hin|Hin].
  - apply elem_of_singleton in Hin. left. congruence.
  - apply elem_of_list_to_set in Hin. apply list_elem_of_filter in Hin as [Hkind _].
    cbn in Hkind. contradiction.
Qed.

(** On [corrupted]: the run stops at [f1], the second of two objects. *)
Lemma checksum_mismatch_aborts_witness :
  ostree_builtin_fsck [] (start (corrupted plain))
  = (GFail (Some (corruption "f1" FILE "XX")), start (corrupted plain),
     [enumerating; verifying_commits "1"; TraverseCommit "c1"; objects_done "1" "2"]).
Proof.
  refine (proj2 (proj2 (proj2
            (checksum_mismatch_aborts plain "f1" FILE "XX" (start (corrupted plain))
               eq_refl _)))
            [] (start (corrupted plain))
            (mkVerification plain None 0 [] (list_to_set [("c1", COMMIT); ("f1", FILE)]))
            [("c1", COMMIT)] [] _ eq_refl eq_refl _).
  - vm_compute. reflexivity.
  - exists (start (corrupted plain)),
      [enumerating; verifying_commits "1"; TraverseCommit "c1"], [objects_done "1" "2"].
    repeat split; vm_compute; reflexivity.
Defined.

(** On [incomplete]: [f2] is reported, the loop ends, the run fails. *)
Lemma missing_object_is_aggregated_witness :
  ostree_builtin_fsck [] (start (incomplete plain))
  = (GFail (Some corruption_encountered), flagged (start (incomplete plain)),
     [enumerating; verifying_commits "1"; TraverseCommit "c1"; objects_done "1" "4";
      objects_done "2" "4"; objects_done "3" "4";
      Stderr (object_missing "f2" FILE); objects_done "4" "4"]).
Proof.
  refine (proj2 (proj2 (proj2
            (missing_object_is_aggregated plain "f2" FILE (start (incomplete plain)) _))
            [] (start (incomplete plain))
            (mkVerification plain None 0 []
               (list_to_set [("c1", COMMIT); ("d1", DIR_TREE); ("f1", FILE); ("f2", FILE)]))
            [("c1", COMMIT); ("d1", DIR_TREE); ("f1", FILE)] []
            [enumerating; verifying_commits "1"; TraverseCommit "c1";
             objects_done "1" "4"; objects_done "2" "4"; objects_done "3" "4"]
            eq_refl eq_refl _)
            (flagged (start (incomplete plain))) [] (flagged (start (incomplete plain))) []
            _ _).
  - vm_compute. reflexivity.
  - exists (start (incomplete plain)),
      [enumerating; verifying_commits "1"; TraverseCommit "c1"],
      [objects_done "1" "4"; objects_done "2" "4"; objects_done "3" "4"].
    repeat split; vm_compute; reflexivity.
  - vm_compute. reflexivity.
  - vm_compute. reflexivity.
Defined.

(** On [bad_mode], with [--delete] and a repair source: the run stops at
    [f1], which is neither deleted nor fetched. *)
Lemma invalid_file_mode_aborts_witness :
  ostree_builtin_fsck [] (start (with_remotes (bad_mode (mkOptions false true false
                                                           (Some ["origin"])))))
  = (GFail (Some (prefixed "While validating file 'f1': "
                    (failed "not a valid file type"))),
     start (with_remotes (bad_mode (mkOptions false true false (Some ["origin"])))),
     [RemoteGetUrl "origin"; enumerating; verifying_commits "1"; TraverseCommit "c1";
      objects_done "1" "2"]).
Proof.
  pose (opts := mkOptions false true false (Some ["origin"])).
  refine (proj2 (proj2
            (invalid_file_mode_aborts opts (Some ["origin"]) "f1"
               (start (with_remotes (bad_mode opts)))
               "f1" 16877 (mkObject "f1" 16877 true None None 0 [])
               (failed "not a valid file type") _ _))
            [] (start (with_remotes (bad_mode opts)))
            (mkVerification opts (Some ["origin"]) 0 []
               (list_to_set [("c1", COMMIT); ("f1", FILE)]))
            [("c1", COMMIT)] [] _ eq_refl eq_refl _).
  - vm_compute. reflexivity.
  - vm_compute. reflexivity.
  - exists (start (with_remotes (bad_mode opts))),
      [RemoteGetUrl "origin"; enumerating; verifying_commits "1"; TraverseCommit "c1"],
      [objects_done "1" "2"].
    repeat split; vm_compute; reflexivity.
Defined.

(** On [treeless], with a repair source: the missing tree is reported,
    its repair refused, the flag raised. *)
Lemma metadata_is_never_repaired_witness :
  load_and_fsck_one_object (repairing ["origin"]) "d1" DIR_TREE (Some ["origin"])
    (start (with_remotes (treeless (repairing ["origin"]))))
  = (GOk tt, flagged (start (with_remotes (treeless (repairing ["origin"])))),
     [Stderr (object_missing "d1" DIR_TREE); Stderr (not_implemented "d1" DIR_TREE)]).
Proof.
  refine (proj2 (metadata_is_never_repaired (repairing ["origin"]) "d1" DIR_TREE
                   (start (with_remotes (treeless (repairing ["origin"])))) eq_refl)
                _ (Some ["origin"])).
  vm_compute. reflexivity.
Defined.

(** The claim C3 as the specification states it fails on a missing
    object: with [--delete], the verifier reports it, raises the flag
    and issues no deletion. *)
Lemma missing_object_is_not_deleted :
  outcome (world (start (incomplete deleting))) "f2" FILE = OutcomeMissing
  ∧ opt_delete deleting || bool_decide (@None (list string) ≠ None) = true
  ∧ load_and_fsck_one_object deleting "f2" FILE None (start (incomplete deleting))
    = (GOk tt, flagged (start (incomplete deleting)),
       [Stderr (object_missing "f2" FILE)])
  ∧ ¬ (DeleteObject FILE "f2"
       ∈ (load_and_fsck_one_object deleting "f2" FILE None (start (incomplete deleting))).2).
Proof.
  assert (load_and_fsck_one_object deleting "f2" FILE None (start (incomplete deleting))
          = (GOk tt, flagged (start (incomplete deleting)),
             [Stderr (object_missing "f2" FILE)])) as Hrun
    by (vm_compute; reflexivity).
  split; [vm_compute; reflexivity|]. split; [reflexivity|]. split; [exact Hrun|].
  rewrite Hrun. cbn [snd]. intros Hin. apply list_elem_of_singleton in Hin. discriminate.
Qed.

(** On [corrupted], with [origin] as repair source: [f1] is reported and
    deleted, then repaired. *)
Lemma remediation_of_bad_objects_witness :
  ∃ s l,
    repair_or_flag (repairing ["origin"]) (Some ["origin"]) "f1" FILE
      (mkState (ostree_repo_delete_object
                  (with_remotes (corrupted (repairing ["origin"]))) FILE "f1").2 false)
    = (tt, s, l)
    ∧ load_and_fsck_one_object (repairing ["origin"]) "f1" FILE (Some ["origin"])
        (start (with_remotes (corrupted (repairing ["origin"]))))
      = (GOk tt, s,
         Stderr (corrupted_object "f1" FILE "XX" +:+ LF) :: DeleteObject FILE "f1" :: l).
Proof.
  refine (proj1 (remediation_of_bad_objects (repairing ["origin"]) "f1" FILE
                   (Some ["origin"])
                   (start (with_remotes (corrupted (repairing ["origin"])))) eq_refl)
                "XX" None _ _ _).
  - vm_compute. reflexivity.
  - vm_compute. reflexivity.
Defined.

(** The claim C7 as the specification states it fails twice.  On a
    commit the routine fails although [origin] was never asked and the
    run is not cancelled.  On a file, in a cancelled run, the routine
    finds no URL for the first source and goes on to ask the second,
    where the failed download ends it. *)
Lemma repair_does_not_always_try_the_sources :
  (repair_object plain ["origin"] "c1" COMMIT (start (with_remotes (lone plain)))
   = (false, start (with_remotes (lone plain)), [Stderr (not_implemented "c1" COMMIT)])
   ∧ g_cancellable_is_cancelled (with_remotes (lone plain)) = false
   ∧ tried [Stderr (not_implemented "c1" COMMIT)] ≠ ["origin"])
  ∧ (g_cancellable_is_cancelled (cancel (with_remotes (incomplete plain))) = true
     ∧ repair_object plain ["nowhere"; "origin"] "f2" FILE
         (start (cancel (with_remotes (incomplete plain))))
       = (false, start (cancel (with_remotes (incomplete plain))),
          [RemoteGetUrl "nowhere";
           Stderr ("repair of file f2 from nowhere failed, "
                   +:+ "failed to get a URL for remote: No such remote");
           RemoteGetUrl "origin"; RequestSend "http://origin/objects/f2.file"])).
Proof.
  split; [split; [|split]|split].
  - vm_compute. reflexivity.
  - reflexivity.
  - vm_compute. discriminate.
  - reflexivity.
  - vm_compute. reflexivity.
Qed.

(** With [origin] before [mirror]: the first source repairs [f1], the
    second is not asked. *)
Lemma repair_goes_through_sources_in_order_witness :
  repair_object plain ["origin"; "mirror"] "f1" FILE
    (start (with_remotes (corrupted plain)))
  = (true,
     mkState (ostree_repo_write_content (with_remotes (corrupted plain)) "f1" "f1" 2).2 false,
     [RemoteGetUrl "origin"; RequestSend "http://origin/objects/f1.file";
      WriteContent "f1"]).
Proof.
  refine (proj1 (proj2 (proj2 (proj2
            (repair_goes_through_sources_in_order plain "f1"
               (start (with_remotes (corrupted plain)))))))
            "origin" "http://origin" "http://origin/objects/f1.file" "f1"
            (with_remotes (corrupted plain)) ("f1", 2) _ eq_refl eq_refl eq_refl _ _
            ["mirror"]).
  - exists "f1", 33188, (mkObject "f1" 33188 true None None 0 []).
    split; reflexivity.
  - vm_compute. reflexivity.
Defined.

(** On [shallow]: the walker is not called on the partial commit [c2],
    which is not in the reachable set. *)
Lemma partial_commits_are_not_roots_witness :
  ¬ (TraverseCommit "c2" ∈ (ostree_builtin_fsck [] (start (shallow plain))).2)
  ∧ ∀ v s1 l1,
      until_verification [] (start (shallow plain)) = (GOk v, s1, l1) →
      ("c2", COMMIT) ∉ v_reachable v.
Proof.
  pose proof (partial_commits_are_not_roots (start (shallow plain)) "c2"
                (commit "c2" None 1 [("f9", FILE)]) 1) as H.
  destruct H as (_ & _ & Hwalk & Hreach).
  - vm_compute. reflexivity.
  - vm_compute. discriminate.
  - split; [exact (Hwalk [])|]. exact (Hreach walker_of_toy []).
Defined.

(** On [pruned], with [--add-tombstones]: [c2] is verified, then
    deleted for its tombstone; the run succeeds. *)
Lemma tombstones_replace_orphans_witness :
  ostree_builtin_fsck [] (start (pruned tombstoning))
  = (GOk tt,
     (apply_tombstones tombstoning 0 ["c2"] (start (pruned tombstoning))).1.2,
     [enumerating; verifying_commits "1"; TraverseCommit "c2"; objects_done "1" "1";
      EnableTombstones; Stdout ("Adding tombstone for commit c2" +:+ LF);
      DeleteObject COMMIT "c2"]).
Proof.
  refine (proj2 (proj2 (proj2 (proj2 (proj2 (proj2 (proj2
            (tombstones_replace_orphans [] (start (pruned tombstoning))
               (mkVerification tombstoning None 0 ["c2"] (list_to_set [("c2", COMMIT)]))
               (start (pruned tombstoning))
               [enumerating; verifying_commits "1"; TraverseCommit "c2"] _ eq_refl)))))))
            (start (pruned tombstoning))
            [enumerating; verifying_commits "1"; TraverseCommit "c2"; objects_done "1" "1"]
            _ [EnableTombstones; Stdout ("Adding tombstone for commit c2" +:+ LF);
               DeleteObject COMMIT "c2"] _ eq_refl _).
  - vm_compute. reflexivity.
  - exists (start (pruned tombstoning)),
      [enumerating; verifying_commits "1"; TraverseCommit "c2"], [objects_done "1" "1"].
    repeat split; vm_compute; reflexivity.
  - vm_compute. reflexivity.
Defined.

(** With [-] and [origin] together: the command fails at once. *)
Lemma dash_stands_for_all_remotes_witness :
  ostree_builtin_fsck [] (start (with_remotes (lone (repairing ["-"; "origin"]))))
  = (GFail (Some dash_error),
     start (with_remotes (lone (repairing ["-"; "origin"]))), []).
Proof.
  refine (proj2 (proj2 (dash_stands_for_all_remotes (repairing ["-"; "origin"])
                          ["-"; "origin"]
                          (start (with_remotes (lone (repairing ["-"; "origin"]))))
                          eq_refl _) _)
                [] (start (with_remotes (lone (repairing ["-"; "origin"])))) eq_refl).
  - apply elem_of_cons. left. reflexivity.
  - discriminate.
Defined.

(** C9 fails on the code.  On [lone], with [--quiet]: the banners are
    withheld, the progress line of the loop is printed all the same. *)
Theorem quiet_run_prints_progress :
  opt_quiet quiet = true
  ∧ ostree_builtin_fsck [] (start (lone quiet))
    = (GOk tt, start (lone quiet), [TraverseCommit "c1"; objects_done "1" "1"]).
Proof. split; [reflexivity|]. vm_compute. reflexivity. Qed.


(** *** Further runs of the checker *)

Import Cases.

(** On [incomplete], checking only: the store is as it was. *)
Lemma check_only_run_is_read_only_witness :
  world (ostree_builtin_fsck [] (start (incomplete plain))).1.2 = incomplete plain
  ∧ Forall harmless (ostree_builtin_fsck [] (start (incomplete plain))).2.
Proof.
  exact (check_only_run_is_read_only [] (start (incomplete plain)) plain
           eq_refl eq_refl eq_refl eq_refl).
Defined.

(** On [healthy]: the run succeeds. *)
Lemma intact_run_succeeds_witness :
  ∃ l2,
    ostree_builtin_fsck [] (start (healthy plain))
    = (GOk tt, start (healthy plain),
       [enumerating; verifying_commits "1"; TraverseCommit "c1"] ++ l2)
    ∧ Forall printed l2.
Proof.
  refine (intact_run_succeeds [] (start (healthy plain))
            (mkVerification plain None 0 [] (list_to_set [("c1", COMMIT); ("f1", FILE)]))
            (start (healthy plain))
            [enumerating; verifying_commits "1"; TraverseCommit "c1"] _ eq_refl _).
  - vm_compute. reflexivity.
  - intros o Ho. apply elem_of_list_to_set in Ho.
    apply elem_of_cons in Ho as [->|Ho]; [vm_compute; reflexivity|].
    apply list_elem_of_singleton in Ho. subst o. vm_compute. reflexivity.
Defined.

(** On [healthy]: the run succeeded, so [f1] is intact. *)
Lemma success_means_intact_witness :
  outcome (healthy plain) "f1" FILE = PresentValid.
Proof.
  refine (success_means_intact [] (start (healthy plain))
            (mkVerification plain None 0 [] (list_to_set [("c1", COMMIT); ("f1", FILE)]))
            (start (healthy plain))
            [enumerating; verifying_commits "1"; TraverseCommit "c1"]
            tt (start (healthy plain))
            [enumerating; verifying_commits "1"; TraverseCommit "c1";
             objects_done "1" "2"; objects_done "2" "2"]
            _ eq_refl _ ("f1", FILE) _).
  - vm_compute. reflexivity.
  - vm_compute. reflexivity.
  - apply elem_of_list_to_set. apply list_elem_of_further, list_elem_of_here.
Defined.

(** On [malformed], with [--delete] and a repair source: the tree is
    neither deleted nor fetched. *)
Lemma invalid_metadata_aborts_witness :
  load_and_fsck_one_object (mkOptions false true false (Some ["origin"])) "d1" DIR_TREE
    (Some ["origin"])
    (start (with_remotes (malformed (mkOptions false true false (Some ["origin"])))))
  = (GFail (Some (mkGError G_IO_ERROR G_IO_ERROR_FAILED
                    ("While validating directory tree 'd1': " +:+ "invalid structure"))),
     start (with_remotes (malformed (mkOptions false true false (Some ["origin"])))), []).
Proof.
  exact (proj1 (invalid_metadata_aborts (mkOptions false true false (Some ["origin"]))
                  (Some ["origin"]) "d1" DIR_TREE
                  (start (with_remotes
                            (malformed (mkOptions false true false (Some ["origin"])))))
                  (mkObject "d1" 0 false None None 0 []) (failed "invalid structure")
                  eq_refl eq_refl eq_refl)).
Defined.

(** On [unreadable]: the tree fails to load, the error is lost. *)
Lemma metadata_load_error_is_lost_witness :
  load_and_fsck_one_object plain "d1" DIR_TREE None (start (unreadable plain))
  = (GFail None, start (unreadable plain), []).
Proof.
  exact (proj1 (metadata_load_error_is_lost plain None "d1" DIR_TREE
                  (start (unreadable plain)) io_failure eq_refl eq_refl eq_refl)).
Defined.

(** On [unreadable]: the file fails to load, the error is kept. *)
Lemma unreadable_file_aborts_witness :
  load_and_fsck_one_object deleting "f1" FILE None (start (unreadable deleting))
  = (GFail (Some (mkGError G_IO_ERROR G_IO_ERROR_FAILED
                    ("Loading file object f1: " +:+ "Input/output error"))),
     start (unreadable deleting), []).
Proof.
  exact (proj1 (unreadable_file_aborts deleting None "f1"
                  (start (unreadable deleting)) io_failure eq_refl eq_refl)).
Defined.

(** With the sources [origin] and [nowhere]: the store knows the first
    and not the second. *)
Lemma named_remotes_are_checked_in_order_witness :
  let '(r, s, l) :=
    prepare_repair_remotes (repairing ["origin"; "nowhere"; "mirror"])
      (start (with_remotes (lone (repairing ["origin"; "nowhere"; "mirror"])))) in
  s = start (with_remotes (lone (repairing ["origin"; "nowhere"; "mirror"])))
  ∧ match r with
    | GOk repair_remotes =>
      repair_remotes = Some ["origin"; "nowhere"; "mirror"]
      ∧ l = RemoteGetUrl <$> ["origin"; "nowhere"; "mirror"]
      ∧ Forall (has_url (with_remotes (lone (repairing ["origin"; "nowhere"; "mirror"]))))
               ["origin"; "nowhere"; "mirror"]
    | GFail error =>
      ∃ known remote rest e,
        ["origin"; "nowhere"; "mirror"] = known ++ remote :: rest
        ∧ Forall (has_url (with_remotes (lone (repairing ["origin"; "nowhere"; "mirror"]))))
                 known
        ∧ ostree_repo_remote_get_url
            (with_remotes (lone (repairing ["origin"; "nowhere"; "mirror"]))) remote
          = inl e
        ∧ error = Some e
        ∧ l = RemoteGetUrl <$> (known ++ [remote])
    end.
Proof.
  refine (named_remotes_are_checked_in_order (repairing ["origin"; "nowhere"; "mirror"])
            ["origin"; "nowhere"; "mirror"]
            (start (with_remotes (lone (repairing ["origin"; "nowhere"; "mirror"]))))
            eq_refl _ _).
  - discriminate.
  - intros Hin. repeat (apply elem_of_cons in Hin as [Hin|Hin]; [discriminate|]).
    apply elem_of_nil in Hin. exact Hin.
Defined.

(** On [shallow]: one root, one partial commit, two commits listed. *)
Lemma census_partitions_commits_witness :
  (size (list_to_set [("c1", COMMIT)] : gset ObjectName)
   + length (List.filter (partial_commit (shallow plain))
               (elements (dom (objects (shallow plain)))))
   = length (List.filter listed_commit (elements (dom (objects (shallow plain))))))%nat.
Proof.
  refine (proj1 (proj2 (proj2
            (census_partitions_commits plain (dom (objects (shallow plain)))
               (list_to_set [("c1", COMMIT)]) (start (shallow plain)) 1 []
               (start (shallow plain)) [] _)))).
  vm_compute. reflexivity.
Defined.

(** On [damaged]: the census fails on [c1]. *)
Lemma unloadable_commit_aborts_witness :
  census plain ([] ++ [("c1", COMMIT)]) ∅ 0 [] (start (damaged plain))
  = (GFail (Some io_failure), start (damaged plain), []).
Proof.
  exact (proj1 (unloadable_commit_aborts plain [] "c1" [] (start (damaged plain))
                  (∅, 0, []) io_failure eq_refl eq_refl)).
Defined.

(** On [corrupted], with [--delete]: nothing is changed before the
    verification, and nothing but the two reachable objects after. *)
Lemma run_changes_only_reachable_or_staged_witness :
  omap changed [enumerating; verifying_commits "1"; TraverseCommit "c1"] = []
  ∧ ∀ o, o ∈ omap changed (ostree_builtin_fsck [] (start (corrupted deleting))).2 →
         ∃ v, GOk (mkVerification deleting None 0 []
                     (list_to_set [("c1", COMMIT); ("f1", FILE)])) = GOk v
              ∧ (o ∈ v_reachable v
                 ∨ (o.2 = OSTREE_OBJECT_TYPE_COMMIT ∧ o.1 ∈ v_tombstones v)).
Proof.
  refine (run_changes_only_reachable_or_staged [] (start (corrupted deleting))
            (GOk (mkVerification deleting None 0 []
                    (list_to_set [("c1", COMMIT); ("f1", FILE)])))
            (start (corrupted deleting))
            [enumerating; verifying_commits "1"; TraverseCommit "c1"] _).
  vm_compute. reflexivity.
Defined.

(** On [healthy]: two objects, two progress lines. *)
Lemma progress_lines_of_a_run_witness :
  lines [objects_done "1" "2"; objects_done "2" "2"] = 2%nat.
Proof.
  refine (proj1 (proj2
            (progress_lines_of_a_run
               (mkVerification plain None 0 [] (list_to_set [("c1", COMMIT); ("f1", FILE)]))
               (start (healthy plain)) tt (start (healthy plain))
               [objects_done "1" "2"; objects_done "2" "2"] _ _)) _).
  - vm_compute. reflexivity.
  - vm_compute. reflexivity.
  - vm_compute. reflexivity.
Defined.

(** On [lone], walking from a commit the store does not have. *)
Lemma walker_failure_aborts_witness :
  fsck_reachable_objects_from_commits plain {[ ("c9", COMMIT) ]} None (start (lone plain))
  = (GFail (Some (not_found "object")), start (lone plain),
     walks ([] ++ [("c9", COMMIT)])).
Proof.
  refine (walker_failure_aborts plain None {[ ("c9", COMMIT) ]} [] [] "c9" COMMIT
            (start (lone plain)) ∅ (start (lone plain)) [] (not_found "object")
            _ eq_refl _).
  - vm_compute. reflexivity.
  - vm_compute. reflexivity.
Defined.

(** On [shallow]: the partial commit [c2] is reported. *)
Lemma partial_commits_are_reported_witness :
  (after_verification (mkVerification plain None 1 [] (list_to_set [("c1", COMMIT)]))
     (start (shallow plain))).2
  = [partial_commits "1"].
Proof.
  refine (proj2 (partial_commits_are_reported [] (start (shallow plain))
                   (mkVerification plain None 1 [] (list_to_set [("c1", COMMIT)]))
                   (start (shallow plain))
                   [enumerating; verifying_commits "1"; TraverseCommit "c1"]
                   (dom (objects (shallow plain))) _ eq_refl eq_refl _
                   (start (shallow plain)))).
  - vm_compute. reflexivity.
  - vm_compute. reflexivity.
Defined.

End Runs.

(** * Properties of the web server *)

Section HttpdProperties.
Import Httpd.
Context {sys : Posix}.

Ltac io :=
  repeat (progress (
    unfold mbind, mret, IO_bind, IO_ret, io_bind, io_ret, soup, sys_call, call_stat;
    cbn beta iota zeta delta [app negb orb andb fst snd])).

(** *** Strings *)

Lemma append_cons a s t : String a s +:+ t = String a (s +:+ t).
Proof. reflexivity. Qed.

Lemma append_nil t : EmptyString +:+ t = t.
Proof. reflexivity. Qed.

Lemma prefix_spec needle : ∀ s, String.prefix needle s = true ↔ ∃ rest, s = needle +:+ rest.
Proof.
  induction needle as [|a needle IH]; intros s.
  - split; [intros _; exists s; reflexivity|]. intros _. destruct s; reflexivity.
  - destruct s as [|b s]; cbn [String.prefix].
    + split; [discriminate|]. intros [rest H]. rewrite append_cons in H. discriminate.
    + destruct (ascii_dec a b) as [->|Hab].
      * rewrite IH. split; intros [rest H]; exists rest.
        -- rewrite append_cons. congruence.
        -- rewrite append_cons in H. congruence.
      * split; [discriminate|]. intros [rest H]. rewrite append_cons in H. congruence.
Qed.

Lemma strstr_spec needle : ∀ haystack,
  strstr haystack needle ≠ None ↔ ∃ before after, haystack = before +:+ needle +:+ after.
Proof.
  induction haystack as [|a haystack IH]; cbn [strstr].
  - destruct (String.prefix needle EmptyString) eqn:Hp.
    + split; [|discriminate]. intros _. apply prefix_spec in Hp as [rest Hp].
      exists EmptyString, rest. exact Hp.
    + split; [intros H; destruct H; reflexivity|].
      intros ([|b before] & after & H); [|rewrite append_cons in H; discriminate].
      rewrite append_nil in H.
      assert (String.prefix needle EmptyString = true) as Hp'
        by (apply prefix_spec; eauto). congruence.
  - destruct (String.prefix needle (String a haystack)) eqn:Hp.
    + split; [|discriminate]. intros _. apply prefix_spec in Hp as [rest Hp].
      exists EmptyString, rest. exact Hp.
    + rewrite IH. split.
      * intros (before & after & ->). exists (String a before), after. reflexivity.
      * intros ([|b before] & after & H).
        -- rewrite append_nil in H.
           assert (String.prefix needle (String a haystack) = true) as Hp'
             by (apply prefix_spec; eauto). congruence.
        -- rewrite append_cons in H. injection H as -> ->. eauto.
Qed.

Lemma strrchr_starts s c : ∀ found, strrchr s c = Some found → ∃ rest, found = String c rest.
Proof.
  induction s as [|a s IH]; intros found H; cbn [strrchr] in H; [discriminate|].
  destruct (strrchr s c) as [found'|].
  - simplify_eq. apply IH. reflexivity.
  - case_bool_decide; simplify_eq. eauto.
Qed.

Lemma strrchr_last s c :
  strrchr s c = Some (String c EmptyString) ↔ ∃ before, s = before +:+ String c EmptyString.
Proof.
  induction s as [|a s IH]; cbn [strrchr].
  - split; [discriminate|]. intros [[|b before] H];
      rewrite ?append_nil, ?append_cons in H; discriminate.
  - destruct (strrchr s c) as [found|] eqn:Hfound.
    + split.
      * intros H. simplify_eq. destruct (proj1 IH eq_refl) as [before ->].
        exists (String a before). reflexivity.
      * intros [[|b before] H]; rewrite ?append_nil, ?append_cons in H; simplify_eq.
        apply IH. eauto.
    + case_bool_decide as Hac.
      * subst c. split.
        -- intros H. simplify_eq. exists EmptyString. reflexivity.
        -- intros [[|b before] H]; rewrite ?append_nil, ?append_cons in H.
           ++ injection H as Hs. subst s. reflexivity.
           ++ injection H as Hb Hs.
              assert (@None string = Some (String a EmptyString)) as Hlast
                by (apply IH; eauto).
              discriminate.
      * split; [discriminate|].
        intros [[|b before] H]; rewrite ?append_nil, ?append_cons in H;
          injection H as Hb Hs; [congruence|].
        assert (@None string = Some (String c EmptyString)) as Hlast
          by (apply IH; eauto).
        discriminate.
Qed.

(** *** The permission check *)

Lemma file_or_directory mode : S_ISREG mode = true → S_ISDIR mode = false.
Proof.
  unfold S_ISREG, S_ISDIR. intros H%Z.eqb_eq. rewrite H. reflexivity.
Qed.

Lemma safe_file stbuf :
  is_safe_to_access stbuf = true → S_ISDIR (st_mode stbuf) = false →
  S_ISREG (st_mode stbuf) = true ∧ Z.land (st_mode stbuf) S_IROTH ≠ 0.
Proof.
  unfold is_safe_to_access. intros H Hdir. rewrite Hdir in H.
  destruct (S_ISREG _); [|discriminate]. cbn in H.
  destruct (Z.eqb_spec (Z.land (st_mode stbuf) S_IROTH) 0); [discriminate|]. auto.
Qed.

(** *** The handler, case by case *)

Lemma stat_retry_answers fuel path :
  ∀ fs r fs' l,
    stat_retry fuel path fs = (Some r, fs', l) →
    r ≠ inl EINTR
    ∧ ∃ k, (k < fuel)%nat ∧ l = replicate k (Stat path (inl EINTR)) ++ [Stat path r].
Proof.
  induction fuel as [|fuel IH]; intros fs r fs' l H; cbn [stat_retry] in H.
  - discriminate.
  - revert H. io. destruct (stat fs path) as [[errno|stbuf] fs1] eqn:Hstat.
    + destruct (Z.eqb_spec errno EINTR) as [->|Hother].
      * destruct (stat_retry fuel path fs1) as [[r1 fs2] l1] eqn:Hrest.
        intros H. simplify_eq. destruct (IH _ _ _ _ Hrest) as (Hr & k & Hk & ->).
        split; [exact Hr|]. exists (S k). split; [lia|reflexivity].
      * intros H. simplify_eq. split; [congruence|]. exists O. split; [lia|reflexivity].
    + intros H. simplify_eq. split; [discriminate|]. exists O. split; [lia|reflexivity].
Qed.

Lemma do_get_cases fuel self msg path fs :
  do_get (S fuel) self msg path fs
  = if bool_decide (strstr path "../" ≠ None)
    then (Some tt, fs, [SetStatus SOUP_STATUS_FORBIDDEN])
    else
      let '(r, fs1, l1) := stat_retry fuel (safepath_of self path) fs in
      match r with
      | None => (None, fs1, l1)
      | Some r =>
        let '(r', fs2, l2) := answer self msg path (do_get fuel self msg) r fs1 in
        (r', fs2, l1 ++ l2)
      end.
Proof.
  cbn [do_get]. case_bool_decide; [reflexivity|].
  change (match path with String "/"%char rest => rest | _ => path end)
    with (relative path).
  change (g_build_filename (root self) (relative path)) with (safepath_of self path).
  io. destruct (stat_retry fuel (safepath_of self path) fs) as [[[[errno|stbuf]|] fs1] l1];
    io; [|idtac|rewrite app_nil_r; reflexivity].
  - unfold answer, status_of_errno.
    destruct (errno =? EPERM); [|destruct (errno =? ENOENT)]; io; reflexivity.
  - unfold answer. destruct (is_safe_to_access stbuf) eqn:Hsafe; io; [|reflexivity].
    destruct (S_ISDIR (st_mode stbuf)) eqn:Hdir.
    + destruct (strrchr (safepath_of self path) "/") as [[|c [|c' rest]]|];
        io; try reflexivity.
      destruct (stat fs1 _) as [[errno|istat] fs2]; io.
      * unfold get_directory_listing. io.
        destruct (readdir fs2 _) as [dir fs3]. reflexivity.
      * destruct (do_get fuel self msg _ fs2) as [[r' fs3] l3]. reflexivity.
    + destruct (safe_file _ Hsafe Hdir) as [Hreg _]. rewrite Hreg. io.
      case_bool_decide; io; [|reflexivity].
      destruct (g_mapped_file_new fs1 _) as [[contents|] fs2]; reflexivity.
Qed.

(** X16.  The permission check lets through exactly what others may
    read: regular files with [o+r], directories with [o+r] and [o+x].
    A path that passes and is no directory is a regular file, so the
    second test of the file type in [do_get] never fires. *)
Theorem is_safe_to_access_spec stbuf :
  (is_safe_to_access stbuf = true
   ↔ Z.land (st_mode stbuf) S_IROTH ≠ 0
     ∧ (S_ISREG (st_mode stbuf) = true
        ∨ (S_ISDIR (st_mode stbuf) = true ∧ Z.land (st_mode stbuf) S_IXOTH ≠ 0)))
  ∧ (is_safe_to_access stbuf = true →
     S_ISDIR (st_mode stbuf) = false → S_ISREG (st_mode stbuf) = true).
Proof.
  split; [|intros Hsafe Hdir; apply (safe_file _ Hsafe Hdir)].
  unfold is_safe_to_access.
  destruct (S_ISREG (st_mode stbuf)) eqn:Hreg; cbn [orb negb andb].
  - rewrite (file_or_directory _ Hreg). cbn [andb].
    destruct (Z.eqb_spec (Z.land (st_mode stbuf) S_IROTH) 0) as [Hr|Hr].
    + split; [discriminate|]. intros [H _]. contradiction.
    + split; [auto|reflexivity].
  - destruct (S_ISDIR (st_mode stbuf)); cbn [negb andb].
    + destruct (Z.eqb_spec (Z.land (st_mode stbuf) S_IROTH) 0) as [Hr|Hr].
      * split; [discriminate|]. intros [H _]. contradiction.
      * destruct (Z.eqb_spec (Z.land (st_mode stbuf) S_IXOTH) 0) as [Hx|Hx].
        -- split; [discriminate|]. intros [_ [H|[_ H]]]; [discriminate|contradiction].
        -- split; [auto|reflexivity].
    + split; [discriminate|]. intros [_ [H|[H _]]]; discriminate.
Qed.

(** X17.  A path with ["../"] anywhere in it is refused with 403 before
    the system is asked anything. *)
Theorem traversal_is_refused fuel self msg before after fs :
  do_get (S fuel) self msg (before +:+ "../" +:+ after) fs
  = (Some tt, fs, [SetStatus SOUP_STATUS_FORBIDDEN]).
Proof.
  rewrite do_get_cases, bool_decide_eq_true_2; [reflexivity|].
  apply strstr_spec. eauto.
Qed.

(** X18.  A method other than GET and HEAD is answered 501; the path is
    not looked at and the system is not asked anything. *)
Theorem other_methods_are_not_implemented fuel self msg path fs :
  method msg ≠ SOUP_METHOD_GET →
  method msg ≠ SOUP_METHOD_HEAD →
  httpd_callback fuel self msg path fs
  = (Some tt, fs, [SetStatus SOUP_STATUS_NOT_IMPLEMENTED]).
Proof.
  intros Hget Hhead. unfold httpd_callback.
  rewrite !bool_decide_eq_false_2 by assumption. reflexivity.
Qed.

(** X19.  When [stat] fails, the answer is 403 for [EPERM], 404 for
    [ENOENT] and 500 for every other [errno]; nothing else is done. *)
Theorem stat_errors_are_mapped fuel self msg path fs errno fs1 l1 :
  strstr path "../" = None →
  stat_retry fuel (safepath_of self path) fs = (Some (inl errno), fs1, l1) →
  do_get (S fuel) self msg path fs
  = (Some tt, fs1,
     l1 ++ [SetStatus (if errno =? EPERM then 403
                       else if errno =? ENOENT then 404 else 500)]).
Proof.
  intros Hpath Hstat. rewrite do_get_cases, Hstat.
  rewrite bool_decide_eq_false_2 by (intros H; apply H, Hpath). reflexivity.
Qed.

(** X20.  A directory asked for without a trailing slash is answered by
    a redirect (301) to the path of the request with a slash added; the
    directory is not read and no index is looked for. *)
Theorem directory_without_slash_redirects fuel self msg path fs stbuf fs1 l1 :
  strstr path "../" = None →
  stat_retry fuel (safepath_of self path) fs = (Some (inr stbuf), fs1, l1) →
  is_safe_to_access stbuf = true →
  S_ISDIR (st_mode stbuf) = true →
  (∀ before, safepath_of self path ≠ before +:+ "/") →
  do_get (S fuel) self msg path fs
  = (Some tt, fs1, l1 ++ [SetRedirect 301 (uri_path msg +:+ "/")]).
Proof.
  intros Hpath Hstat Hsafe Hdir Hslash. rewrite do_get_cases, Hstat.
  rewrite bool_decide_eq_false_2 by (intros H; apply H, Hpath).
  unfold answer. rewrite Hsafe, Hdir. cbn [negb].
  destruct (strrchr (safepath_of self path) "/") as [found|] eqn:Hfound; [|reflexivity].
  destruct (strrchr_starts _ _ _ Hfound) as [rest ->].
  destruct rest as [|c rest]; [|reflexivity].
  apply strrchr_last in Hfound as [before Hbefore]. destruct (Hslash _ Hbefore).
Qed.

(** X21.  A directory asked for with its trailing slash, in which [stat]
    finds [index.html]: the request is handled as a request for that
    file, with every check made again on it. *)
Theorem index_html_is_served_for_a_directory fuel self msg path fs stbuf fs1 l1
    before istat fs2 :
  strstr path "../" = None →
  stat_retry fuel (safepath_of self path) fs = (Some (inr stbuf), fs1, l1) →
  is_safe_to_access stbuf = true →
  S_ISDIR (st_mode stbuf) = true →
  safepath_of self path = before +:+ "/" →
  stat fs1 (safepath_of self path +:+ "/index.html") = (inr istat, fs2) →
  do_get (S fuel) self msg path fs
  = let '(r, fs3, l3) := do_get fuel self msg (relative path +:+ "/index.html") fs2 in
    (r, fs3, l1 ++ Stat (safepath_of self path +:+ "/index.html") (inr istat) :: l3).
Proof.
  intros Hpath Hstat Hsafe Hdir Hslash Hindex. rewrite do_get_cases, Hstat.
  rewrite bool_decide_eq_false_2 by (intros H; apply H, Hpath).
  unfold answer. rewrite Hsafe, Hdir. cbn [negb].
  rewrite (proj2 (strrchr_last (safepath_of self path) "/") (ex_intro _ before Hslash)).
  rewrite Hindex. destruct (do_get fuel self msg _ fs2) as [[r fs3] l3]. reflexivity.
Qed.

(** X22.  A directory asked for with its trailing slash, in which [stat]
    finds no [index.html]: the directory is read once and the answer is
    its listing, as [text/html]; the handler sets no status. *)
Theorem directory_is_listed fuel self msg path fs stbuf fs1 l1 before errno fs2 dir fs3 :
  strstr path "../" = None →
  stat_retry fuel (safepath_of self path) fs = (Some (inr stbuf), fs1, l1) →
  is_safe_to_access stbuf = true →
  S_ISDIR (st_mode stbuf) = true →
  safepath_of self path = before +:+ "/" →
  stat fs1 (safepath_of self path +:+ "/index.html") = (inl errno, fs2) →
  readdir fs2 (safepath_of self path) = (dir, fs3) →
  do_get (S fuel) self msg path fs
  = (Some tt, fs3,
     l1 ++ [Stat (safepath_of self path +:+ "/index.html") (inl errno);
            Readdir (safepath_of self path) dir;
            SetResponse "text/html" (page (safepath_of self path) dir)])
  ∧ strchr (safepath_of self path) "/" ≠ None.
Proof.
  intros Hpath Hstat Hsafe Hdir Hslash Hindex Hread. split.
  - rewrite do_get_cases, Hstat.
    rewrite bool_decide_eq_false_2 by (intros H; apply H, Hpath).
    unfold answer. rewrite Hsafe, Hdir. cbn [negb].
    rewrite (proj2 (strrchr_last (safepath_of self path) "/") (ex_intro _ before Hslash)).
    rewrite Hindex, Hread. reflexivity.
  - rewrite Hslash. clear. induction before as [|a before IH]; cbn [strchr].
    + rewrite append_nil. cbn. rewrite bool_decide_eq_true_2 by reflexivity. discriminate.
    + rewrite append_cons. cbn [strchr]. case_bool_decide; [discriminate|exact IH].
Qed.

(** X23.  A regular file that others may read: GET maps it and answers
    200 with its contents, or 500 when the mapping fails; any other
    method that reaches the handler answers 200 with the size [stat]
    reported as [Content-Length], and does not open the file. *)
Theorem regular_file_is_served fuel self msg path fs stbuf fs1 l1 :
  strstr path "../" = None →
  stat_retry fuel (safepath_of self path) fs = (Some (inr stbuf), fs1, l1) →
  is_safe_to_access stbuf = true →
  S_ISDIR (st_mode stbuf) = false →
  let safepath := safepath_of self path in
  do_get (S fuel) self msg path fs
  = if bool_decide (method msg = "GET") then
      let '(mapping, fs2) := g_mapped_file_new fs1 safepath in
      match mapping with
      | Some contents =>
        (Some tt, fs2,
         l1 ++ [MappedFileNew safepath (Some contents); BodyAppendBuffer contents;
                SetStatus 200])
      | None => (Some tt, fs2, l1 ++ [MappedFileNew safepath None; SetStatus 500])
      end
    else
      (Some tt, fs1,
       l1 ++ [HeadersAppend "Content-Length" (fmt_u (st_size stbuf `mod` 2 ^ 64));
              SetStatus 200]).
Proof.
  intros Hpath Hstat Hsafe Hdir safepath. rewrite do_get_cases, Hstat.
  rewrite bool_decide_eq_false_2 by (intros H; apply H, Hpath).
  unfold answer. rewrite Hsafe, Hdir. cbn [negb]. fold safepath.
  change SOUP_METHOD_GET with "GET". case_bool_decide; [|reflexivity].
  destruct (g_mapped_file_new fs1 safepath) as [[contents|] fs2]; reflexivity.
Qed.

(** *** The loop on [EINTR] *)

(** X24.  The [stat] loop ends as soon as [stat] answers anything but
    [EINTR]: when that happens after at most [k] interrupted calls, any
    fuel above [k] gives the answer, after exactly the interrupted calls
    and the one that was answered. *)
Theorem stat_is_retried_while_interrupted k :
  ∀ fuel path fs,
    settles k fs path →
    (k < fuel)%nat →
    ∃ j r fs',
      (j ≤ k)%nat
      ∧ r ≠ inl EINTR
      ∧ stat_retry fuel path fs
        = (Some r, fs', replicate j (Stat path (inl EINTR)) ++ [Stat path r]).
Proof.
  induction k as [|k IH]; intros [|fuel] path fs Hsettles Hfuel; try lia;
    cbn [settles] in Hsettles; cbn [stat_retry]; io;
    destruct (stat fs path) as [[errno|stbuf] fs1].
  - destruct (Z.eqb_spec errno EINTR) as [->|Hother]; [destruct Hsettles|].
    exists O, (inl errno), fs1. repeat split; [lia|congruence].
  - exists O, (inr stbuf), fs1. repeat split; [lia|discriminate].
  - destruct (Z.eqb_spec errno EINTR) as [->|Hother].
    + destruct (IH fuel path fs1 Hsettles ltac:(lia)) as (j & r & fs' & Hj & Hr & ->).
      exists (S j), r, fs'. repeat split; [lia|exact Hr].
    + exists O, (inl errno), fs1. repeat split; [lia|congruence].
  - exists O, (inr stbuf), fs1. repeat split; [lia|discriminate].
Qed.

(** *** What every run does *)

Lemma interrupted_calls k path (P : Call → bool) :
  P (Stat path (inl EINTR)) = false →
  List.filter P (replicate k (Stat path (inl EINTR))) = [].
Proof.
  intros H. induction k as [|k IH]; [reflexivity|]. cbn. rewrite H. exact IH.
Qed.

(** X25.  A request that the handler finishes is answered once: among
    the calls on the message there is exactly one status, redirect or
    response. *)
Theorem one_answer_per_request fuel self msg path :
  ∀ fs fs' l,
    httpd_callback fuel self msg path fs = (Some tt, fs', l) →
    length (List.filter is_answer l) = 1%nat.
Proof.
  assert (∀ fuel path fs fs' l,
            do_get fuel self msg path fs = (Some tt, fs', l) →
            length (List.filter is_answer l) = 1%nat) as Hget.
  { clear fuel path. induction fuel as [|fuel IH]; intros path fs fs' l H;
      [discriminate|].
    rewrite do_get_cases in H. case_bool_decide; [simplify_eq; reflexivity|].
    destruct (stat_retry fuel (safepath_of self path) fs) as [[[r|] fs1] l1] eqn:Hstat;
      [|discriminate].
    destruct (stat_retry_answers _ _ _ _ _ _ Hstat) as (_ & k & _ & ->).
    assert (∀ l2, length (List.filter is_answer l2) = 1%nat →
              length (List.filter is_answer
                        ((replicate k (Stat (safepath_of self path) (inl EINTR))
                          ++ [Stat (safepath_of self path) r]) ++ l2)) = 1%nat) as Hl.
    { intros l2 Hl2. rewrite !List.filter_app, interrupted_calls by reflexivity.
      exact Hl2. }
    unfold answer in H. destruct r as [errno|stbuf]; [simplify_eq; apply Hl; reflexivity|].
    destruct (is_safe_to_access stbuf); cbn [negb] in H;
      [|simplify_eq; apply Hl; reflexivity].
    destruct (S_ISDIR (st_mode stbuf)).
    - destruct (strrchr _ _) as [[|c [|c' rest]]|];
        try (simplify_eq; apply Hl; reflexivity).
      destruct (stat fs1 _) as [[errno|istat] fs2].
      + destruct (readdir fs2 _) as [dir fs3]. simplify_eq. apply Hl. reflexivity.
      + destruct (do_get fuel self msg _ fs2) as [[r' fs3] l3] eqn:Hrest.
        simplify_eq. apply Hl. cbn. exact (IH _ _ _ _ Hrest).
    - case_bool_decide; [|simplify_eq; apply Hl; reflexivity].
      destruct (g_mapped_file_new fs1 _) as [[contents|] fs2];
        simplify_eq; apply Hl; reflexivity. }
  intros fs fs' l H. unfold httpd_callback in H.
  destruct (_ || _); [exact (Hget _ _ _ _ _ H)|]. revert H. io. intros H.
  simplify_eq. reflexivity.
Qed.

(** X26.  Whatever is asked for, a run hands out a file (a 200, a body,
    a [Content-Length]) only after [stat] has described it as a regular
    file that others may read, under the root, at a path without
    ["../"]; and a body is the mapping of that very file. *)
Theorem only_readable_files_are_handed_out fuel self msg :
  ∀ path fs c,
    let l := (do_get fuel self msg path fs).2 in
    c ∈ l →
    hands_out c = true →
    ∃ path' stbuf,
      strstr path' "../" = None
      ∧ Stat (safepath_of self path') (inr stbuf) ∈ l
      ∧ world_readable_file stbuf
      ∧ ∀ contents, c = BodyAppendBuffer contents →
                    MappedFileNew (safepath_of self path') (Some contents) ∈ l.
Proof.
  induction fuel as [|fuel IH]; intros path fs c l Hc Hout; subst l.
  { apply elem_of_nil in Hc. destruct Hc. }
  rewrite do_get_cases in Hc |- *. case_bool_decide as Hpath.
  { apply list_elem_of_singleton in Hc. subst c. discriminate. }
  pose proof Hpath as Hclean.
  destruct (stat_retry fuel (safepath_of self path) fs) as [[[r|] fs1] l1] eqn:Hstat.
  2:{ cbn [snd] in Hc. exfalso.
      assert (∀ fuel fs, Forall (λ c, hands_out c = false)
                           (stat_retry fuel (safepath_of self path) fs).2) as Hquiet.
      { clear. induction fuel as [|fuel IH]; intros fs; cbn [stat_retry]; io;
          [constructor|].
        destruct (stat fs _) as [[errno|stbuf] fs1]; [|repeat constructor].
        destruct (errno =? EINTR); [|repeat constructor].
        specialize (IH fs1). destruct (stat_retry fuel _ fs1) as [[r fs2] l].
        constructor; [reflexivity|exact IH]. }
      specialize (Hquiet fuel fs). rewrite Hstat in Hquiet. cbn [snd] in Hquiet.
      rewrite Forall_forall in Hquiet. specialize (Hquiet _ Hc). congruence. }
  destruct (stat_retry_answers _ _ _ _ _ _ Hstat) as (_ & k & _ & ->).
  assert (∀ l2, c ∈ (replicate k (Stat (safepath_of self path) (inl EINTR))
                     ++ [Stat (safepath_of self path) r]) ++ l2 → c ∈ l2) as Hin.
  { intros l2 [[H|H]%elem_of_app|H]%elem_of_app; [| |exact H].
    - apply elem_of_replicate in H as [-> _]. discriminate.
    - apply list_elem_of_singleton in H. subst c. discriminate. }
  assert (∀ stbuf l2, r = inr stbuf →
            Stat (safepath_of self path) (inr stbuf)
            ∈ (replicate k (Stat (safepath_of self path) (inl EINTR))
               ++ [Stat (safepath_of self path) r]) ++ l2) as Hstatted.
  { intros stbuf l2 ->. apply elem_of_app. left. apply elem_of_app. right.
    apply list_elem_of_here. }
  unfold answer in Hc |- *. destruct r as [errno|stbuf].
  { cbn [snd] in Hc. apply Hin, list_elem_of_singleton in Hc. subst c.
    unfold status_of_errno in Hout.
    destruct (errno =? EPERM); [|destruct (errno =? ENOENT)]; discriminate. }
  destruct (is_safe_to_access stbuf) eqn:Hsafe; cbn [negb] in Hc |- *.
  2:{ cbn [snd] in Hc. apply Hin, list_elem_of_singleton in Hc. subst c. discriminate. }
  destruct (S_ISDIR (st_mode stbuf)) eqn:Hdir.
  - destruct (strrchr _ _) as [[|c0 [|c' rest]]|];
      try (cbn [snd] in Hc; apply Hin, list_elem_of_singleton in Hc; subst c;
           discriminate).
    destruct (stat fs1 _) as [[errno|istat] fs2].
    + destruct (readdir fs2 _) as [dir fs3]. cbn [snd] in Hc. apply Hin in Hc.
      repeat (apply elem_of_cons in Hc as [->|Hc]; [discriminate|]).
      apply elem_of_nil in Hc. destruct Hc.
    + specialize (IH (relative path +:+ "/index.html") fs2 c).
      destruct (do_get fuel self msg _ fs2) as [[r' fs3] l3]. cbn [snd] in *.
      apply Hin in Hc. apply elem_of_cons in Hc as [->|Hc]; [discriminate|].
      destruct (IH Hc Hout) as (path' & stbuf' & Hpath' & Hstat' & Hfile & Hbody).
      exists path', stbuf'. split; [exact Hpath'|]. split; [|split; [exact Hfile|]].
      * apply elem_of_app. right. apply list_elem_of_further, Hstat'.
      * intros contents Hcontents. apply elem_of_app. right.
        apply list_elem_of_further, (Hbody _ Hcontents).
  - exists path, stbuf. split; [exact Hclean|].
    pose proof (safe_file _ Hsafe Hdir) as Hfile.
    case_bool_decide.
    + destruct (g_mapped_file_new fs1 _) as [[contents|] fs2]; cbn [snd] in *.
      * split; [apply Hstatted; reflexivity|]. split; [exact Hfile|].
        intros contents' ->. apply Hin in Hc.
        apply elem_of_cons in Hc as [Hc|Hc]; [discriminate|].
        apply elem_of_cons in Hc as [Hc|Hc].
        -- injection Hc as ->. apply elem_of_app. right. apply list_elem_of_here.
        -- apply list_elem_of_singleton in Hc. discriminate.
      * apply Hin in Hc. repeat (apply elem_of_cons in Hc as [->|Hc]; [discriminate|]).
        apply elem_of_nil in Hc. destruct Hc.
    + cbn [snd] in *. split; [apply Hstatted; reflexivity|]. split; [exact Hfile|].
      intros contents ->. apply Hin in Hc.
      repeat (apply elem_of_cons in Hc as [Hc|Hc]; [discriminate|]).
      apply elem_of_nil in Hc. destruct Hc.
Qed.

(** X27.  A request whose method is not GET never opens a file: the
    handler maps no file and appends no body.  A GET request never
    appends a header. *)
Theorem only_get_maps_files fuel self msg :
  ∀ path fs,
    (method msg ≠ SOUP_METHOD_GET →
     Forall (λ c, maps_file c = false) (do_get fuel self msg path fs).2)
    ∧ (method msg = SOUP_METHOD_GET →
       Forall (λ c, is_header c = false) (do_get fuel self msg path fs).2).
Proof.
  assert (∀ (P : Call → bool) path,
            (∀ answer, P (Stat path answer) = false) →
            ∀ n fs, Forall (λ c, P c = false) (stat_retry n path fs).2) as Hstat.
  { intros P path HP n. induction n as [|n IH]; intros fs; cbn [stat_retry]; io;
      [constructor|].
    destruct (stat fs _) as [[errno|stbuf] fs1]; [|repeat constructor; apply HP].
    destruct (errno =? EINTR); [|repeat constructor; apply HP].
    specialize (IH fs1). destruct (stat_retry n _ fs1) as [[r fs2] l].
    constructor; [apply HP|exact IH]. }
  assert (∀ P : Call → bool,
            (∀ path answer, P (Stat path answer) = false) →
            (∀ status, P (SetStatus status) = false) →
            (∀ status uri, P (SetRedirect status uri) = false) →
            (∀ type body, P (SetResponse type body) = false) →
            (∀ path dir, P (Readdir path dir) = false) →
            (if bool_decide (method msg = SOUP_METHOD_GET)
             then ∀ path mapping, P (MappedFileNew path mapping) = false
             else True) →
            (if bool_decide (method msg = SOUP_METHOD_GET)
             then ∀ contents, P (BodyAppendBuffer contents) = false
             else ∀ name value, P (HeadersAppend name value) = false) →
            ∀ path fs, Forall (λ c, P c = false) (do_get fuel self msg path fs).2) as Hall.
  { intros P H1 H2 H3 H4 H5 H6 H7. induction fuel as [|fuel IH]; intros path fs;
      [constructor|].
    rewrite do_get_cases.
    destruct (bool_decide (strstr path "../" ≠ None)); [repeat constructor; apply H2|].
    specialize (Hstat P (safepath_of self path) (H1 _) fuel fs).
    destruct (stat_retry fuel (safepath_of self path) fs) as [[[r|] fs1] l1];
      cbn [snd] in *; [|exact Hstat].
    assert (Forall (λ c, P c = false)
              (answer self msg path (do_get fuel self msg) r fs1).2) as Hanswer.
    { unfold answer. destruct r as [errno|stbuf]; [repeat constructor; apply H2|].
      destruct (is_safe_to_access stbuf); cbn [negb]; [|repeat constructor; apply H2].
      destruct (S_ISDIR (st_mode stbuf)).
      - destruct (strrchr _ _) as [[|c [|c' rest]]|];
          try (repeat constructor; apply H3).
        destruct (stat fs1 _) as [[errno|istat] fs2].
        + destruct (readdir fs2 _) as [dir fs3]. repeat constructor; auto.
        + specialize (IH (relative path +:+ "/index.html") fs2).
          destruct (do_get fuel self msg _ fs2) as [[r' fs3] l3].
          constructor; [apply H1|exact IH].
      - destruct (bool_decide (method msg = SOUP_METHOD_GET)).
        + destruct (g_mapped_file_new fs1 _) as [[contents|] fs2];
            repeat constructor; auto.
        + repeat constructor; auto. }
    destruct (answer _ _ _ _ _ _) as [[r' fs2] l2]. apply Forall_app. auto. }
  intros path fs. split; intros Hmethod.
  - apply Hall; try reflexivity;
      rewrite bool_decide_eq_false_2 by exact Hmethod; [exact I|reflexivity].
  - apply Hall; try reflexivity;
      rewrite bool_decide_eq_true_2 by exact Hmethod; reflexivity.
Qed.

(** *** The listing *)

Lemma sorted_insert_perm x l : sorted_insert compare_strings x l ≡ₚ x :: l.
Proof.
  induction l as [|y l IH]; cbn [sorted_insert]; [reflexivity|].
  destruct (compare_strings x y); try reflexivity.
  rewrite IH. apply Permutation_swap.
Qed.

Lemma sorted_insert_hd x y l :
  le_strings y x → HdRel le_strings y l → HdRel le_strings y (sorted_insert compare_strings x l).
Proof.
  intros Hyx Hl. destruct l as [|z l]; cbn [sorted_insert]; [constructor; exact Hyx|].
  inversion Hl; subst. destruct (compare_strings x z); constructor; assumption.
Qed.

Lemma sorted_insert_sorted x l :
  Sorted le_strings l → Sorted le_strings (sorted_insert compare_strings x l).
Proof.
  induction 1 as [|y l Hl IH Hy]; cbn [sorted_insert]; [repeat constructor|].
  destruct (compare_strings x y) eqn:Hxy.
  - repeat constructor; try assumption. unfold le_strings. congruence.
  - repeat constructor; try assumption. unfold le_strings. congruence.
  - constructor; [exact IH|]. apply sorted_insert_hd; [|exact Hy].
    unfold le_strings, compare_strings, strcmp in *.
    rewrite String.compare_antisym, Hxy. discriminate.
Qed.

(** X28.  The entries of a listing: the names [readdir] gave, without
    ["."], and without [".."] when the directory is ["./"], each escaped
    and each once, in the order of [strcmp]; none when the directory
    cannot be opened. *)
Theorem listing_is_sorted_and_complete path names :
  let entries := entries_of path (Some names) in
  Sorted le_strings entries
  ∧ entries ≡ₚ g_markup_escape_text <$> List.filter (kept path) names
  ∧ (∀ name, kept path name = true
             ↔ name ≠ "." ∧ (name = ".." → path ≠ "./"))
  ∧ entries_of path None = [].
Proof.
  intros entries. subst entries. unfold entries_of, g_ptr_array_sort. cbn [default].
  split; [|split; [|split; [|reflexivity]]].
  - induction (g_markup_escape_text <$> _) as [|x l IH]; cbn [foldr]; [constructor|].
    apply sorted_insert_sorted, IH.
  - induction (g_markup_escape_text <$> _) as [|x l IH]; cbn [foldr]; [reflexivity|].
    rewrite sorted_insert_perm, IH. reflexivity.
  - intros name. unfold kept. rewrite negb_true_iff, orb_false_iff, andb_false_iff.
    rewrite !bool_decide_eq_false. destruct (decide (name = "..")); tauto.
Qed.

End HttpdProperties.

(** ** Runs of the web server *)

Section HttpdRuns.
Import Httpd Disk.
#[local] Existing Instance Disk.sys.

(** A regular file readable by all passes the check and is no directory. *)
Lemma is_safe_to_access_spec_witness : S_ISREG 33188 = true.
Proof.
  exact (proj2 (is_safe_to_access_spec (mkStat 33188 5)) eq_refl eq_refl).
Defined.

(** POST is not implemented. *)
Lemma other_methods_are_not_implemented_witness :
  httpd_callback 0 server (mkSoupMessage "POST" "/pub/b.txt") "/pub/b.txt" srv
  = (Some tt, srv, [SetStatus 501]).
Proof.
  refine (other_methods_are_not_implemented 0 server (mkSoupMessage "POST" "/pub/b.txt")
            "/pub/b.txt" srv _ _); discriminate.
Defined.

(** [stat] fails with [EACCES] on [/srv/locked]: the answer is 500. *)
Lemma stat_errors_are_mapped_witness :
  do_get 2 server (get "/locked") "/locked" srv
  = (Some tt, srv, [Stat "/srv/locked" (inl EACCES); SetStatus 500]).
Proof.
  exact (stat_errors_are_mapped 1 server (get "/locked") "/locked" srv EACCES srv
           [Stat "/srv/locked" (inl EACCES)] eq_refl eq_refl).
Defined.

(** [/pub] is a directory: the client is sent to [/pub/]. *)
Lemma directory_without_slash_redirects_witness :
  do_get 2 server (get "/pub") "/pub" srv
  = (Some tt, srv,
     [Stat "/srv/pub" (inr (mkStat 16877 4096)); SetRedirect 301 "/pub/"]).
Proof.
  refine (directory_without_slash_redirects 1 server (get "/pub") "/pub" srv
            (mkStat 16877 4096) srv [Stat "/srv/pub" (inr (mkStat 16877 4096))]
            eq_refl eq_refl eq_refl eq_refl _).
  intros before H.
  assert (strrchr "/srv/pub" "/" = Some "/") as Hlast
    by (apply strrchr_last; exists before; exact H).
  vm_compute in Hlast. discriminate.
Defined.

(** [/site/] has an [index.html]: it is served. *)
Lemma index_html_is_served_for_a_directory_witness :
  do_get 3 server (get "/site/") "/site/" srv
  = (Some tt, srv,
     [Stat "/srv/site/" (inr (mkStat 16877 4096));
      Stat "/srv/site//index.html" (inr (mkStat 33188 13));
      Stat "/srv/site//index.html" (inr (mkStat 33188 13));
      MappedFileNew "/srv/site//index.html" (Some "<html></html>");
      BodyAppendBuffer "<html></html>"; SetStatus 200]).
Proof.
  exact (index_html_is_served_for_a_directory 2 server (get "/site/") "/site/" srv
           (mkStat 16877 4096) srv [Stat "/srv/site/" (inr (mkStat 16877 4096))]
           "/srv/site" (mkStat 33188 13) srv eq_refl eq_refl eq_refl eq_refl eq_refl
           eq_refl).
Defined.

(** [/pub/] has none: its entries are listed. *)
Lemma directory_is_listed_witness :
  do_get 2 server (get "/pub/") "/pub/" srv
  = (Some tt, srv,
     [Stat "/srv/pub/" (inr (mkStat 16877 4096));
      Stat "/srv/pub//index.html" (inl ENOENT);
      Readdir "/srv/pub/" (Some ["."; "b.txt"; ".."; "a<1>"; "secret"]);
      SetResponse "text/html"
        (page "/srv/pub/" (Some ["."; "b.txt"; ".."; "a<1>"; "secret"]))])
  ∧ strchr "/srv/pub/" "/" ≠ None.
Proof.
  exact (directory_is_listed 1 server (get "/pub/") "/pub/" srv
           (mkStat 16877 4096) srv [Stat "/srv/pub/" (inr (mkStat 16877 4096))]
           "/srv/pub" ENOENT srv (Some ["."; "b.txt"; ".."; "a<1>"; "secret"]) srv
           eq_refl eq_refl eq_refl eq_refl eq_refl eq_refl eq_refl).
Defined.

(** HEAD on [/pub/b.txt]: the length, and no mapping. *)
Lemma regular_file_is_served_witness :
  do_get 2 server (head "/pub/b.txt") "/pub/b.txt" srv
  = (Some tt, srv,
     [Stat "/srv/pub/b.txt" (inr (mkStat 33188 5));
      HeadersAppend "Content-Length" "5"; SetStatus 200]).
Proof.
  exact (regular_file_is_served 1 server (head "/pub/b.txt") "/pub/b.txt" srv
           (mkStat 33188 5) srv [Stat "/srv/pub/b.txt" (inr (mkStat 33188 5))]
           eq_refl eq_refl eq_refl eq_refl).
Defined.

(** Two interrupted calls, then the answer. *)
Lemma stat_is_retried_while_interrupted_witness :
  ∃ j r fs',
    (j ≤ 2)%nat
    ∧ r ≠ inl EINTR
    ∧ stat_retry 3 "/srv/pub/b.txt" (interrupted 2 srv)
      = (Some r, fs', replicate j (Stat "/srv/pub/b.txt" (inl EINTR))
                      ++ [Stat "/srv/pub/b.txt" r]).
Proof.
  refine (stat_is_retried_while_interrupted 2 3 "/srv/pub/b.txt" (interrupted 2 srv) _ _).
  - vm_compute. exact I.
  - lia.
Defined.

(** The private file is refused with one status. *)
Lemma one_answer_per_request_witness :
  length (List.filter is_answer
            [Stat "/srv/pub/secret" (inr (mkStat 33152 3)); SetStatus 403]) = 1%nat.
Proof.
  exact (one_answer_per_request 2 server (get "/pub/secret") "/pub/secret" srv srv
           [Stat "/srv/pub/secret" (inr (mkStat 33152 3)); SetStatus 403] eq_refl).
Defined.

(** The body sent for [/site/] is the mapping of a file [stat] described
    as readable. *)
Lemma only_readable_files_are_handed_out_witness :
  ∃ path' stbuf,
    strstr path' "../" = None
    ∧ Stat (safepath_of server path') (inr stbuf)
      ∈ (do_get 3 server (get "/site/") "/site/" srv).2
    ∧ world_readable_file stbuf
    ∧ ∀ contents,
        BodyAppendBuffer "<html></html>" = BodyAppendBuffer contents →
        MappedFileNew (safepath_of server path') (Some contents)
        ∈ (do_get 3 server (get "/site/") "/site/" srv).2.
Proof.
  refine (only_readable_files_are_handed_out 3 server (get "/site/") "/site/" srv
            (BodyAppendBuffer "<html></html>") _ eq_refl).
  do 4 apply list_elem_of_further. apply list_elem_of_here.
Defined.

(** HEAD on [/pub/b.txt] maps nothing. *)
Lemma only_get_maps_files_witness :
  Forall (λ c, maps_file c = false)
         (do_get 2 server (head "/pub/b.txt") "/pub/b.txt" srv).2.
Proof.
  refine (proj1 (only_get_maps_files 2 server (head "/pub/b.txt") "/pub/b.txt" srv) _).
  discriminate.
Defined.

End HttpdRuns.
